(** * transfer_to_album.py: moving a VK audio library into playlists

    A shallow embedding of [transfer_to_album.py] and the proofs of the
    properties its specification states.

    The script is sequential I/O glue: it prompts on the console, asks a
    scraping client for the whole track list, and then calls two HTTP
    endpoints in loops.  The embedding keeps that shape.  Every function of
    the script is a computation in a state-and-exception monad [M] over a
    [World] (the trace of external interactions, the console input still to
    be read, the configuration file on disk).  Everything the script cannot
    decide by itself -- what the user types, what the libraries and the
    remote API answer -- is read from an environment [Env].

    Conventions.
    - Python [str] is [string] (the UTF-8 bytes of the text).
    - Python [int] is [Z]; [len] and slice indices are [nat].
    - JSON numbers are integers (the API's ids and error codes are).
    - An exception is a value of [Exn]; [Exn] covers the classes derived
      from [Exception], which is what [except Exception] catches.
    - An HTTP request is recorded by the API method it calls and the
      arguments the script passes; URL encoding is below the model.
    - The configuration file is held the way [configparser] reports it:
      whether reading it raises, which sections it has, and what [get]
      gives for an option, a value or the exception of the interpolation.
      What [configparser] does with the values the script assigns is part
      of the environment. *)

From Stdlib Require Import String Ascii List ZArith Arith Bool Lia ZifyNat DecimalString.
Import ListNotations.
Open Scope string_scope.

Set Implicit Arguments.
Set Warnings "-register-all".


(* ================================================================= *)
(** ** Python values *)

Module Py.

(** The newline character of Python's ["\n"]. *)
Definition nl : string := String (ascii_of_nat 10) EmptyString.

(** [str(n)] for a length and for an [int]. *)
Definition str_of_nat (n : nat) : string := NilZero.string_of_uint (Nat.to_uint n).
Definition str_of_Z (z : Z) : string := NilZero.string_of_int (Z.to_int z).

(** Truthiness of a [str]. *)
Definition nonempty (s : string) : bool :=
  match s with EmptyString => false | String _ _ => true end.

(** [a or b] on strings. *)
Definition str_or (a b : string) : string := if nonempty a then a else b.

(** *** [str.strip()]

    A string is cut into its UTF-8 encoded characters, and the characters
    Python's [str.isspace] accepts are dropped at both ends. *)

Definition is_continuation (b : ascii) : bool :=
  let n := nat_of_ascii b in ((128 <=? n) && (n <? 192))%nat.

Definition starts_with_continuation (c : list ascii) : bool :=
  match c with b :: _ => is_continuation b | [] => false end.

Fixpoint utf8_chars (bs : list ascii) : list (list ascii) :=
  match bs with
  | [] => []
  | b :: rest =>
      match utf8_chars rest with
      | c :: cs => if starts_with_continuation c then (b :: c) :: cs
                   else [b] :: c :: cs
      | [] => [[b]]
      end
  end.

Definition isspace (c : list ascii) : bool :=
  (match map nat_of_ascii c with
   | [n] => ((9 <=? n) && (n <=? 13)) || ((28 <=? n) && (n <=? 32))
   | [194; n] => (n =? 133) || (n =? 160)           (* U+0085, U+00A0 *)
   | [225; 154; 128] => true                         (* U+1680 *)
   | [226; 128; n] => ((128 <=? n) && (n <=? 138))   (* U+2000 .. U+200A *)
                      || (n =? 168) || (n =? 169)    (* U+2028, U+2029 *)
                      || (n =? 175)                  (* U+202F *)
   | [226; 129; 159] => true                         (* U+205F *)
   | [227; 128; 128] => true                         (* U+3000 *)
   | _ => false
   end)%nat.

Fixpoint lstrip_chars (cs : list (list ascii)) : list (list ascii) :=
  match cs with
  | c :: rest => if isspace c then lstrip_chars rest else cs
  | [] => []
  end.

Definition strip (s : string) : string :=
  let cs := utf8_chars (list_ascii_of_string s) in
  string_of_list_ascii (concat (rev (lstrip_chars (rev (lstrip_chars cs))))).

(** [sep.join(parts)]. *)
Definition join (sep : string) (parts : list string) : string :=
  String.concat sep parts.

(** [s[i:j]] on a list, with Python's clamping at the end of the list. *)
Definition slice {A} (l : list A) (i j : nat) : list A := firstn (j - i) (skipn i l).

(** [range(start, stop, step)] for a positive [step]. *)
Definition range (start stop step : nat) : list nat :=
  map (fun k => start + k * step) (seq 0 ((stop - start + (step - 1)) / step)).

(** *** JSON values, as [resp.json()] returns them *)

Inductive Json : Type :=
| JNone
| JBool (b : bool)
| JInt (z : Z)
| JStr (s : string)
| JList (items : list Json)
| JDict (fields : list (string * Json)).

(** Exceptions (classes derived from [Exception]).  An instance of a
    subclass of [RuntimeError] is a [RuntimeError]; [OtherException] is any
    class outside the [RuntimeError] family that the model does not name
    (connection errors, JSON decoding errors, authentication errors). *)
Inductive Exn : Type :=
| RuntimeError (msg : string)
| KeyError (key : string)
| TypeError (msg : string)
| AttributeError (msg : string)
| EOFError (msg : string)
| OtherException (class msg : string).

Definition is_RuntimeError (e : Exn) : bool :=
  match e with RuntimeError _ => true | _ => false end.

(** [str(e)]. *)
Definition str_of_exn (e : Exn) : string :=
  match e with
  | RuntimeError m | TypeError m | AttributeError m | EOFError m => m
  | KeyError k => "'" ++ k ++ "'"
  | OtherException _ m => m
  end.

Inductive Result (A : Type) : Type :=
| Ok (a : A)
| Raise (e : Exn).
Arguments Ok {A} a.
Arguments Raise {A} e.

Fixpoint lookup {A} (k : string) (d : list (string * A)) : option A :=
  match d with
  | [] => None
  | (k', v) :: rest => if String.eqb k k' then Some v else lookup k rest
  end.

Definition type_name (v : Json) : string :=
  match v with
  | JNone => "NoneType" | JBool _ => "bool" | JInt _ => "int"
  | JStr _ => "str" | JList _ => "list" | JDict _ => "dict"
  end.

(** [bool(v)]. *)
Definition truthy (v : Json) : bool :=
  match v with
  | JNone => false
  | JBool b => b
  | JInt z => negb (Z.eqb z 0)
  | JStr s => nonempty s
  | JList l => match l with [] => false | _ => true end
  | JDict d => match d with [] => false | _ => true end
  end.

(** [a or b]. *)
Definition or_ (a b : Json) : Json := if truthy a then a else b.

Definition is_JStr (s : string) (v : Json) : bool :=
  match v with JStr s' => String.eqb s s' | _ => false end.

Definition substring_of (s t : string) : bool :=
  match String.index 0 s t with Some _ => true | None => false end.

(** [key in v] for a string key. *)
Definition contains (key : string) (v : Json) : Result bool :=
  match v with
  | JDict d => Ok (match lookup key d with Some _ => true | None => false end)
  | JList l => Ok (existsb (is_JStr key) l)
  | JStr s => Ok (substring_of key s)
  | _ => Raise (TypeError ("argument of type '" ++ type_name v ++ "' is not iterable"))
  end.

(** [v[key]] for a string key. *)
Definition getitem (v : Json) (key : string) : Result Json :=
  match v with
  | JDict d => match lookup key d with Some x => Ok x | None => Raise (KeyError key) end
  | JList _ => Raise (TypeError "list indices must be integers or slices, not str")
  | JStr _ => Raise (TypeError "string indices must be integers, not 'str'")
  | _ => Raise (TypeError ("'" ++ type_name v ++ "' object is not subscriptable"))
  end.

(** [v.get(key, default)]. *)
Definition get (v : Json) (key : string) (default : Json) : Result Json :=
  match v with
  | JDict d => Ok (match lookup key d with Some x => x | None => default end)
  | _ => Raise (AttributeError
                  ("'" ++ type_name v ++ "' object has no attribute 'get'"))
  end.

(** [str(v)], as an f-string formats a value.  Scalars print exactly as in
    Python; a container prints its items through [repr], where the [repr]
    of a string is the string between single quotes (exact for strings
    without quotes, backslashes and control characters). *)
Fixpoint repr (v : Json) : string :=
  match v with
  | JNone => "None"
  | JBool true => "True"
  | JBool false => "False"
  | JInt z => str_of_Z z
  | JStr s => "'" ++ s ++ "'"
  | JList l => "[" ++ join ", " (map repr l) ++ "]"
  | JDict d =>
      "{" ++ join ", "
               ((fix fields (d : list (string * Json)) : list string :=
                   match d with
                   | [] => []
                   | (k, x) :: rest => ("'" ++ k ++ "': " ++ repr x) :: fields rest
                   end) d) ++ "}"
  end.

Definition str (v : Json) : string :=
  match v with JStr s => s | _ => repr v end.

End Py.

Import Py.

(* ================================================================= *)
(** ** The world around the script *)

(** A [vkpymusic.Service].  The script reads the attributes [user_agent]
    and [_Service__token]; [None] is an attribute the object does not have
    (reading it raises [AttributeError]). *)
Record Service : Type := {
  user_agent : option string;
  _Service__token : option string
}.

(** [Service(user_agent, token)]. *)
Definition new_Service (ua tok : string) : Service :=
  {| user_agent := Some ua; _Service__token := Some tok |}.

(** What [service.get_user_info()] returns. *)
Record UserInfo : Type := {
  userid : Z;
  first_name : string;
  last_name : string
}.

(** What a script assigns to a [ConfigParser]: sections of options. *)
Definition ConfigDict : Type := list (string * list (string * string)).

(** The configuration file as [configparser] reports it.
    [Unreadable e]: [config.read] raises [e] for the file (a line before
    any section, a repeated option, bytes that are not UTF-8).
    [Parsed sections]: the sections that are [in config], each with its
    options as [config[section].get] sees them (those it inherits from
    [DEFAULT] included); an option holds the value [get] returns, or the
    exception the interpolation of the value raises (a [%] that is not
    followed by [%] or by a reference to an option). *)
Inductive ConfigFile : Type :=
| Unreadable (e : Exn)
| Parsed (sections : list (string * list (string * Result string))).

(** How [vk.auth()] goes: it ends (normally or with an exception), or it
    calls the two-factor handler and goes on from the code it gets. *)
Inductive AuthFlow : Type :=
| AuthDone (r : Result unit)
| AuthAsk (next : string -> AuthFlow).

(** The interactions with the outside, in the order they happen. *)
Inductive Event : Type :=
| Print (text : string)
| Input (prompt answer : string)
| Sleep (milliseconds : nat)
| OpenBrowser (url : string)
| WriteConfig (content : ConfigDict)
| GetUserInfo
| LoadCookies (path : string)
| VkAuth (login password : string)
| NewVkAudio
| AudioIter (owner_id : Z)
| CreatePlaylist (user_agent token : string) (owner_id : Z) (title : string)
| AddToPlaylist (user_agent token : string) (owner_id : Z) (playlist_id : Json)
                (audio_ids : list string).

Record World : Type := {
  trace : list Event;                 (* what has happened so far *)
  stdin : list string;                (* the lines [input] will read *)
  config_file : option ConfigFile     (* config_vk.ini; None: no such file *)
}.

(** What the script does not decide. *)
Record Env : Type := {
  parse_config : option Service;          (* Service.parse_config() *)
  KATE_user_agent : string;               (* vkaudiotoken's KATE.user_agent *)
  get_user_info : Result UserInfo;        (* service.get_user_info() *)
  path_exists : string -> bool;           (* Path(p).expanduser().exists() *)
  cookies_load : Result unit;             (* MozillaCookieJar.load *)
  auth : AuthFlow;                        (* vk.auth() *)
  VkAudio : Result unit;                  (* VkAudio(vk) *)
  get_iter : list Json * option Exn;      (* the items audio.get_iter yields,
                                             and the exception that ends the
                                             iteration, if one does *)
  createPlaylist : nat -> Result Json;    (* resp.json() of the k-th call of
                                             audio.createPlaylist, or the
                                             exception the request raises *)
  addToPlaylist : nat -> Result Json;     (* the same for audio.addToPlaylist *)
  config_write : ConfigDict -> Result ConfigFile
                                          (* config[...] = ... and
                                             config.write(f), for the values
                                             assigned: the exception raised
                                             before anything is written (the
                                             ValueError for a value with a
                                             [%] that the interpolation
                                             refuses), or the file as
                                             configparser reports it from
                                             then on *)
}.

Definition initial_world (lines : list string) (cfg : option ConfigFile) : World :=
  {| trace := []; stdin := lines; config_file := cfg |}.

(* ================================================================= *)
(** ** The monad: state and exceptions *)

Definition M (A : Type) : Type := World -> Result A * World.

Definition ret {A} (a : A) : M A := fun w => (Ok a, w).

Definition raise {A} (e : Exn) : M A := fun w => (Raise e, w).

Definition bind {A B} (m : M A) (k : A -> M B) : M B :=
  fun w => match m w with
           | (Ok a, w') => k a w'
           | (Raise e, w') => (Raise e, w')
           end.

Declare Scope py_scope.
Delimit Scope py_scope with py.
Notation "x <- m ;; k" := (bind m (fun x => k))
  (at level 61, m at next level, right associativity) : py_scope.
Notation "' pat <- m ;; k" := (bind m (fun x => match x with pat => k end))
  (at level 61, pat pattern, m at next level, right associativity) : py_scope.
Notation "m ;; k" := (bind m (fun _ => k))
  (at level 61, right associativity) : py_scope.
Open Scope py_scope.

(** A pure operation that can raise. *)
Definition lift {A} (r : Result A) : M A := fun w => (r, w).

(** [try: body except <class> as e: handler e], for the exceptions
    [caught] accepts. *)
Definition try_except {A} (body : M A) (caught : Exn -> bool) (handler : Exn -> M A) : M A :=
  fun w => match body w with
           | (Ok a, w') => (Ok a, w')
           | (Raise e, w') => if caught e then handler e w' else (Raise e, w')
           end.

(** A [for] loop over [xs] that updates the local variables [s]. *)
Fixpoint for_ {A S} (xs : list A) (body : A -> S -> M S) (s : S) : M S :=
  match xs with
  | [] => ret s
  | x :: rest => s' <- body x s ;; for_ rest body s'
  end.

Definition emit (ev : Event) : M unit :=
  fun w => (Ok tt, {| trace := trace w ++ [ev]; stdin := stdin w;
                      config_file := config_file w |}).

Definition print (text : string) : M unit := emit (Print text).

(** [time.sleep], in milliseconds. *)
Definition sleep (milliseconds : nat) : M unit := emit (Sleep milliseconds).

(** [input(prompt)]: the next line of the console. *)
Definition input (prompt : string) : M string :=
  fun w => match stdin w with
           | [] => (Raise (EOFError "EOF when reading a line"), w)
           | line :: rest =>
               (Ok line, {| trace := trace w ++ [Input prompt line]; stdin := rest;
                            config_file := config_file w |})
           end.

(** [config_path.exists()]. *)
Definition config_exists : M bool :=
  fun w => (Ok (match config_file w with Some _ => true | None => false end), w).

(** [config.read(config_path, encoding="utf-8")] on a new [ConfigParser]:
    a file that is not there is skipped. *)
Definition config_read : M (list (string * list (string * Result string))) :=
  fun w => match config_file w with
           | None => (Ok [], w)
           | Some (Unreadable e) => (Raise e, w)
           | Some (Parsed sections) => (Ok sections, w)
           end.

(** The API calls a trace holds. *)
Definition is_create (ev : Event) : bool :=
  match ev with CreatePlaylist _ _ _ _ => true | _ => false end.
Definition is_add (ev : Event) : bool :=
  match ev with AddToPlaylist _ _ _ _ _ => true | _ => false end.

Definition count_create (tr : list Event) : nat := length (filter is_create tr).
Definition count_add (tr : list Event) : nat := length (filter is_add tr).

(* ================================================================= *)
(** ** The script *)

Definition VK_API_VERSION : string := "5.95".
Definition BATCH_SIZE : nat := 50.
Definition PLAYLIST_MAX : nat := 1000.
Definition MIN_TRACKS : nat := 500.

Section Script.

Variable E : Env.

(** [config["VK"].get(option)]: [None] when the option is not there; the
    interpolation of the value can raise. *)
Definition section_get (section : list (string * Result string)) (option_ : string)
  : M (option string) :=
  match lookup option_ section with
  | None => ret None
  | Some (Ok value) => ret (Some value)
  | Some (Raise e) => raise e
  end.

(** The truth value of a string or [None]. *)
Definition is_truthy (v : option string) : bool :=
  match v with Some s => nonempty s | None => false end.

(** [config["VK"].get("token_for_audio") or config["VK"].get("token")]
    (lines 37 and 53): the second option is read only if the first gives
    nothing. *)
Definition config_token (vk : list (string * Result string)) : M (option string) :=
  a <- section_get vk "token_for_audio" ;;
  if is_truthy a then ret a else section_get vk "token".

(** [config["VK"].get("user_agent", "")] (lines 38 and 54). *)
Definition config_user_agent (vk : list (string * Result string)) : M string :=
  v <- section_get vk "user_agent" ;;
  ret (match v with Some s => s | None => "" end).

(** [write_config content]: [config = ConfigParser()], [config[name] =
    options] for the sections of [content], and [config.write(f)] on the
    file opened for writing (lines 191-196). *)
Definition write_config (content : ConfigDict) : M unit :=
  fun w => match config_write E content with
           | Ok file => (Ok tt, {| trace := trace w ++ [WriteConfig content];
                                   stdin := stdin w; config_file := Some file |})
           | Raise e => (Raise e, w)
           end.

(** Lines 30-41. *)
Definition _load_service_from_config : M (option Service) :=
  there <- config_exists ;;
  if negb there then ret None
  else
    config <- config_read ;;
    match lookup "VK" config with
    | None => ret None
    | Some vk =>
        token <- config_token vk ;;
        user_agent <- config_user_agent vk ;;
        match token with
        | Some tok =>
            if nonempty tok && nonempty user_agent
            then ret (Some (new_Service user_agent tok)) else ret None
        | None => ret None
        end
    end.

(** Lines 44-57. *)
Definition _get_credentials (service : Service) : M (string * string) :=
  match user_agent service, _Service__token service with
  | Some ua, Some tok => ret (ua, tok)
  | _, _ =>                                            (* AttributeError: pass *)
      config <- config_read ;;
      match lookup "VK" config with
      | Some vk =>
          token <- config_token vk ;;
          ua <- config_user_agent vk ;;
          match token with
          | Some tok =>
              if nonempty tok then ret (ua, tok)
              else raise (RuntimeError "Нет токена. Получите токен через браузер (см. ниже).")
          | None => raise (RuntimeError "Нет токена. Получите токен через браузер (см. ниже).")
          end
      | None => raise (RuntimeError "Нет токена. Получите токен через браузер (см. ниже).")
      end
  end.

(** The handler of lines 105-107; the flag it returns with the code is
    constant. *)
Definition two_factor_handler : M string :=
  code <- input "Введите код из SMS или приложения 2FA: " ;;
  ret (strip code).

Fixpoint run_auth (flow : AuthFlow) : M unit :=
  match flow with
  | AuthDone r => lift r
  | AuthAsk next => code <- two_factor_handler ;; run_auth (next code)
  end.

Definition is_None (v : Json) : bool :=
  match v with JNone => true | _ => false end.

(** [track.get(name) if isinstance(track, dict) else getattr(track, name, None)]:
    a JSON value that is not a dict has no such attribute. *)
Definition track_field (track : Json) (name : string) : Json :=
  match track with
  | JDict d => match lookup name d with Some v => v | None => JNone end
  | _ => JNone
  end.

(** The body of the loop of lines 127-133. *)
Definition collect_track (track : Json) (tracks : list (string * string))
  : M (list (string * string)) :=
  let oid := track_field track "owner_id" in
  let tid := track_field track "id" in
  let tracks := if negb (is_None oid) && negb (is_None tid)
                then (tracks ++ [(str oid, str tid)])%list else tracks in
  (if (length tracks mod 100 =? 0)%nat && match tracks with [] => false | _ => true end
   then print ("  Загружено: " ++ str_of_nat (length tracks) ++ " треков...")
   else ret tt) ;;
  ret tracks.

(** [VkApi(login=login or "", password=password or "", ...)] and
    [vk.auth()], lines 116-122. *)
Definition login_with_password (login password : option string) : M unit :=
  emit (VkAuth (match login with Some l => l | None => "" end)
               (match password with Some p => p | None => "" end)) ;;
  run_auth (auth E).

(** Lines 93-134. *)
Definition _fetch_all_via_vk_api (user_id : Z) (login password cookie_path kate_token : option string)
  : M (list (string * string)) :=
  (match cookie_path, kate_token with
   | Some path, Some tok =>
       if path_exists E path && nonempty tok then
         emit (LoadCookies path) ;; lift (cookies_load E)
       else login_with_password login password
   | _, _ => login_with_password login password
   end) ;;
  emit NewVkAudio ;; lift (VkAudio E) ;;
  print "Загрузка треков (время зависит от количества, прогресс каждые 100)..." ;;
  emit (AudioIter user_id) ;;
  tracks <- for_ (fst (get_iter E)) collect_track [] ;;
  match snd (get_iter E) with
  | Some e => raise e
  | None => ret tracks
  end.

Definition error_message (code msg : Json) : string :=
  "Ошибка: [" ++ str code ++ "] " ++ str msg.

(** Lines 149-151, shared by both API functions: an [error] member makes
    the call raise. *)
Definition raise_on_error (data : Json) : M unit :=
  has_error <- lift (contains "error" data) ;;
  if has_error then
    err <- lift (getitem data "error") ;;
    code <- lift (getitem err "error_code") ;;
    msg <- lift (get err "error_msg" (JStr "")) ;;
    raise (RuntimeError (error_message code msg))
  else ret tt.

(** The request of lines 145-149 and what [resp.json()] gives for it. *)
Definition request_createPlaylist (ua tok : string) (owner_id : Z) (title : string) : M Json :=
  fun w => (createPlaylist E (count_create (trace w)),
            {| trace := trace w ++ [CreatePlaylist ua tok owner_id title];
               stdin := stdin w; config_file := config_file w |}).

(** The request of lines 164-168. *)
Definition request_addToPlaylist (ua tok : string) (owner_id : Z) (playlist_id : Json)
    (audio_ids : list string) : M Json :=
  fun w => (addToPlaylist E (count_add (trace w)),
            {| trace := trace w ++ [AddToPlaylist ua tok owner_id playlist_id audio_ids];
               stdin := stdin w; config_file := config_file w |}).

(** Lines 137-152. *)
Definition create_playlist (service : Service) (owner_id : Z) (title : string) : M Json :=
  '(ua, tok) <- _get_credentials service ;;
  data <- request_createPlaylist ua tok owner_id title ;;
  raise_on_error data ;;
  lift (getitem data "response").

(** Lines 155-170. *)
Definition add_to_playlist (service : Service) (owner_id : Z) (playlist_id : Json)
    (audio_ids : list string) : M unit :=
  '(ua, tok) <- _get_credentials service ;;
  data <- request_addToPlaylist ua tok owner_id playlist_id audio_ids ;;
  raise_on_error data.

(** *** [main] *)

(** What lines 174-231 settle before the tracks are fetched. *)
Record Session : Type := {
  service : Service;
  user_id : Z;
  playlist_title : string;
  login : option string;
  password : option string;
  cookie_path : option string;
  kate_token : option string
}.

Definition auth_url : string :=
  "https://oauth.vk.com/authorize?" ++
  "client_id=2685278&display=page&" ++
  "redirect_uri=https://oauth.vk.com/blank.html&" ++
  "scope=audio,offline&response_type=token&v=5.199".

(** Lines 176-197: the service, from a configuration or from a token the
    user pastes.  [None]: the [return] of line 190. *)
Definition main_service : M (option Service) :=
  found <- match parse_config E with
           | Some s => ret (Some s)
           | None => _load_service_from_config
           end ;;
  match found with
  | Some s => ret (Some s)
  | None =>
      print "Токен Kate нужен для добавления в плейлист. Авторизуйтесь в браузере:" ;;
      emit (OpenBrowser auth_url) ;;
      print "Скопируйте access_token из адресной строки после входа." ;;
      line <- input "Токен: " ;;
      let token := strip line in
      if negb (nonempty token) then ret None
      else
        let s := new_Service (KATE_user_agent E) token in
        write_config [("VK", [("user_agent", KATE_user_agent E);
                              ("token_for_audio", token)])] ;;
        print ("Токен сохранён." ++ nl) ;;
        ret (Some s)
  end.

(** Lines 207-231: how to authenticate for the enumeration.  [None]: the
    [return] of line 222 or of line 231. *)
Definition main_auth_choice (svc : Service) (uid : Z) (title : string) : M (option Session) :=
  print (nl ++ "Для загрузки списка треков нужна авторизация:") ;;
  print "  — Логин и пароль, либо" ;;
  print "  — Cookies из браузера (если код 2FA не приходит, см. README)" ;;
  print "" ;;
  line <- input "Путь к cookies.txt (Enter = логин/пароль): " ;;
  let use_cookies := strip line in
  if negb (nonempty use_cookies) || negb (path_exists E use_cookies) then
    print "Введите логин и пароль:" ;;
    l <- input "Логин: " ;;
    p <- input "Пароль: " ;;
    if negb (nonempty (strip l)) || negb (nonempty (strip p)) then
      print "Логин и пароль обязательны." ;;
      ret None
    else
      ret (Some {| service := svc; user_id := uid; playlist_title := title;
                   login := Some (strip l); password := Some (strip p);
                   cookie_path := None; kate_token := None |})
  else
    l <- input "Логин (email или телефон): " ;;
    '(_, tok) <- _get_credentials svc ;;
    if negb (nonempty tok) then
      print "Для cookies нужен Kate-токен в config_vk.ini." ;;
      ret None
    else
      ret (Some {| service := svc; user_id := uid; playlist_title := title;
                   login := Some (str_or (strip l) "cookies"); password := None;
                   cookie_path := Some use_cookies; kate_token := Some tok |}).

(** Lines 174-201: the service and the account it belongs to.  [None]:
    [main] has returned. *)
Definition main_identify : M (option (Service * Z)) :=
  print ("=== Перенос всех аудиозаписей ВК в новый плейлист ===" ++ nl) ;;
  found <- main_service ;;
  match found with
  | None => ret None
  | Some svc =>
      emit GetUserInfo ;;
      user_info <- lift (get_user_info E) ;;
      let uid := userid user_info in
      print ("Пользователь: " ++ first_name user_info ++ " " ++ last_name user_info
             ++ " (id: " ++ str_of_Z uid ++ ")" ++ nl) ;;
      ret (Some (svc, uid))
  end.

Definition title_prompt : string := "Название нового плейлиста: ".

(** Lines 174-231.  [None]: [main] has returned. *)
Definition main_prepare : M (option Session) :=
  identified <- main_identify ;;
  match identified with
  | None => ret None
  | Some (svc, uid) =>
      line <- input title_prompt ;;
      let title := strip line in
      if negb (nonempty title) then ret None
      else main_auth_choice svc uid title
  end.

(** Lines 233-244.  [None]: the enumeration raised, and [main] returns. *)
Definition main_fetch (s : Session) : M (option (list (string * string))) :=
  try_except
    (all_tracks <- _fetch_all_via_vk_api (user_id s) (login s) (password s)
                                         (cookie_path s) (kate_token s) ;;
     ret (Some all_tracks))
    (fun _ => true)
    (fun e =>
       print (nl ++ "Ошибка: " ++ str_of_exn e) ;;
       print "Плейлист не создан." ;;
       ret None).

(** [playlist_resp.get("id") or playlist_resp.get("playlist_id")]. *)
Definition playlist_id_of (playlist_resp : Json) : M Json :=
  a <- lift (get playlist_resp "id" JNone) ;;
  if truthy a then ret a else lift (get playlist_resp "playlist_id" JNone).

(** The body of both batch loops (lines 268-281 and 295-308), which
    differ in the title they print: add the batch, once more after two
    seconds if the API refused it, and go on whatever the second answer. *)
Definition add_batch (svc : Service) (uid : Z) (playlist_id : Json) (batch : list string)
    (shown tracks_total : string) (total_added : nat) : M nat :=
  total_added <-
    try_except
      (add_to_playlist svc uid playlist_id batch ;;
       let total_added := total_added + length batch in
       print ("  Добавлено: " ++ str_of_nat total_added ++ "/" ++ tracks_total
              ++ " в «" ++ shown ++ "»") ;;
       ret total_added)
      is_RuntimeError
      (fun e =>
         try_except
           (sleep 2000 ;;
            add_to_playlist svc uid playlist_id batch ;;
            let total_added := total_added + length batch in
            print ("  Добавлено: " ++ str_of_nat total_added ++ "/" ++ tracks_total
                   ++ " (повтор)") ;;
            ret total_added)
           is_RuntimeError
           (fun _ =>
              print ("  Ошибка: " ++ str_of_exn e) ;;
              ret total_added)) ;;
  sleep 500 ;;
  ret total_added.

Definition composite_id (track : string * string) : string :=
  let '(o, t) := track in o ++ "_" ++ t.

(** A batch loop (lines 267-281 and 294-308): for each [i] of [starts],
    the batch [ids[i : i + BATCH_SIZE]] goes to the playlist. *)
Definition add_batches (svc : Service) (uid : Z) (playlist_id : Json) (ids : list string)
    (starts : list nat) (shown tracks_total : string) (total_added : nat) : M nat :=
  for_ starts
       (fun i total_added =>
          add_batch svc uid playlist_id (slice ids i (i + BATCH_SIZE))
                    shown tracks_total total_added)
       total_added.

(** The body of the loop over the further playlists (lines 285-308). *)
Definition overflow_part (svc : Service) (uid : Z) (playlist_title : string)
    (audio_ids : list string) (tracks_total : string) (part : nat)
    (counters : nat * nat) : M (nat * nat) :=
  let '(total_added, num_playlists) := counters in
  let start := part * PLAYLIST_MAX in
  let chunk := slice audio_ids start (start + PLAYLIST_MAX) in
  let title := playlist_title ++ " (" ++ str_of_nat (part + 1) ++ ")" in
  print (nl ++ "Создаю плейлист «" ++ title ++ "»...") ;;
  playlist_resp <- create_playlist svc uid title ;;
  playlist_id <- playlist_id_of playlist_resp ;;
  if negb (truthy playlist_id) then ret (total_added, num_playlists)   (* continue *)
  else
    let num_playlists := num_playlists + 1 in
    total_added <- add_batches svc uid playlist_id chunk
                               (range 0 (length chunk) BATCH_SIZE)
                               title tracks_total total_added ;;
    ret (total_added, num_playlists).

(** Lines 246-310. *)
Definition main_transfer (s : Session) (all_tracks : list (string * string)) : M unit :=
  let svc := service s in
  let uid := user_id s in
  let total := str_of_nat (length all_tracks) in
  if (length all_tracks <? MIN_TRACKS)%nat then
    print (nl ++ "Получено " ++ total ++ " треков (минимум "
           ++ str_of_nat MIN_TRACKS ++ " для продолжения).") ;;
    print "Официальный API ВК отдаёт только ~300. Используйте cookies (см. README)."
  else
    print (nl ++ "Всего треков: " ++ total) ;;
    let all_tracks := rev all_tracks in
    let audio_ids := map composite_id all_tracks in
    print (nl ++ "Создаю плейлист «" ++ playlist_title s ++ "»...") ;;
    playlist_resp <- create_playlist svc uid (playlist_title s) ;;
    playlist_id <- playlist_id_of playlist_resp ;;
    if negb (truthy playlist_id) then print "Ошибка создания плейлиста."
    else
      add_to_playlist svc uid playlist_id (slice audio_ids 0 BATCH_SIZE) ;;
      let total_added := BATCH_SIZE in
      print ("  Добавлено: " ++ str_of_nat total_added ++ "/" ++ total) ;;
      sleep 500 ;;
      total_added <-
        add_batches svc uid playlist_id audio_ids
                    (range BATCH_SIZE (Nat.min PLAYLIST_MAX (length audio_ids)) BATCH_SIZE)
                    (playlist_title s) total total_added ;;
      '(total_added, num_playlists) <-
        for_ (range 1 ((length audio_ids + PLAYLIST_MAX - 1) / PLAYLIST_MAX) 1)
             (overflow_part svc uid (playlist_title s) audio_ids total)
             (total_added, 1) ;;
      print (nl ++ "Готово! Перенесено " ++ str_of_nat total_added ++ " треков в "
             ++ str_of_nat num_playlists ++ " плейлист(ов).").

(** Lines 173-310. *)
Definition main : M unit :=
  prepared <- main_prepare ;;
  match prepared with
  | None => ret tt
  | Some s =>
      fetched <- main_fetch s ;;
      match fetched with
      | None => ret tt
      | Some all_tracks => main_transfer s all_tracks
      end
  end.

End Script.

(* ================================================================= *)
(** ** Reading a trace *)

(** An API call of the playlist service. *)
Definition is_call (ev : Event) : bool := is_create ev || is_add ev.

(** An interaction of the enumeration (lines 109-127). *)
Definition is_enumeration (ev : Event) : bool :=
  match ev with
  | LoadCookies _ | VkAuth _ _ | NewVkAudio | AudioIter _ => true
  | _ => false
  end.

(** The answer the user gave to the title prompt. *)
Definition is_title_answer (ev : Event) : bool :=
  match ev with
  | Input prompt _ => String.eqb prompt title_prompt
  | _ => false
  end.

(** The playlists a trace asks for, by title, in call order. *)
Definition created_titles (tr : list Event) : list string :=
  flat_map (fun ev => match ev with CreatePlaylist _ _ _ t => [t] | _ => [] end) tr.

(** The batches a trace submits, in call order, each with the playlist
    it is sent to. *)
Definition submitted_batches (tr : list Event) : list (Json * list string) :=
  flat_map (fun ev => match ev with AddToPlaylist _ _ _ p ids => [(p, ids)] | _ => [] end) tr.

(** The composite ids a trace submits, in call order. *)
Definition submitted_ids (tr : list Event) : list string :=
  concat (map snd (submitted_batches tr)).

(** The transfer as [main] reaches it: the session, the enumerated
    tracks and the world at line 246; [None] when [main] stops before. *)
Definition enumerated (E : Env) (w : World)
  : option (Session * list (string * string) * World) :=
  match main_prepare E w with
  | (Ok (Some s), w1) =>
      match main_fetch E s w1 with
      | (Ok (Some all_tracks), w2) => Some (s, all_tracks, w2)
      | _ => None
      end
  | _ => None
  end.

(** [only P m]: whatever the world, [m] leaves the trace it found in
    place and appends events that satisfy [P]. *)
Definition only {A} (P : Event -> bool) (m : M A) : Prop :=
  forall w, exists evs,
    trace (snd (m w)) = (trace w ++ evs)%list /\ forallb P evs = true.

(** Nothing but console and configuration traffic. *)
Definition is_quiet (ev : Event) : bool :=
  negb (is_title_answer ev || is_enumeration ev || is_call ev).

(** Neither the title prompt nor an API call. *)
Definition is_fetching (ev : Event) : bool :=
  negb (is_title_answer ev || is_call ev).

(** Neither the title prompt nor the enumeration. *)
Definition is_transferring (ev : Event) : bool :=
  negb (is_title_answer ev || is_enumeration ev).

(** Not the answer to the title prompt. *)
Definition not_title_answer (ev : Event) : bool := negb (is_title_answer ev).

(** What [main] does once it has a title (lines 207-310). *)
Definition main_from_title (E : Env) (svc : Service) (uid : Z) (title : string) : M unit :=
  prepared <- main_auth_choice E svc uid title ;;
  match prepared with
  | None => ret tt
  | Some s =>
      fetched <- main_fetch E s ;;
      match fetched with
      | None => ret tt
      | Some all_tracks => main_transfer E s all_tracks
      end
  end.

(** Not an API call of the playlist service. *)
Definition not_call (ev : Event) : bool := negb (is_call ev).

(** The world after one more event. *)
Definition push (w : World) (ev : Event) : World :=
  {| trace := trace w ++ [ev]; stdin := stdin w; config_file := config_file w |}.

(** The API calls of a trace, in call order. *)
Definition calls (tr : list Event) : list Event := filter is_call tr.

(** [advances w w' cs]: from [w] to [w'] the configuration file stays as
    it is and the API calls [cs] are made. *)
Definition advances (w w' : World) (cs : list Event) : Prop :=
  config_file w' = config_file w /\ calls (trace w') = (calls (trace w) ++ cs)%list.

(** What [_get_credentials] gives for a service, as a function of the
    configuration file. *)
Definition credentials (svc : Service) (cfg : option ConfigFile) : Result (string * string) :=
  fst (_get_credentials svc {| trace := []; stdin := []; config_file := cfg |}).

(** The playlist id [main] gets out of an answer to createPlaylist: the
    answer carries no [error], and its [response] holds a truthy [id] or
    else a truthy [playlist_id].  [None]: the call raises, or gives no id. *)
Definition playlist_of_reply (reply : Result Json) : option Json :=
  match reply with
  | Ok data =>
      match contains "error" data, getitem data "response" with
      | Ok false, Ok resp =>
          match get resp "id" JNone, get resp "playlist_id" JNone with
          | Ok a, Ok b => if truthy a then Some a else if truthy b then Some b else None
          | _, _ => None
          end
      | _, _ => None
      end
  | Raise _ => None
  end.

(** An answer to addToPlaylist that makes [add_to_playlist] return: it
    carries no [error]. *)
Definition accepted (reply : Result Json) : bool :=
  match reply with
  | Ok data => match contains "error" data with Ok false => true | _ => false end
  | Raise _ => false
  end.

(** The playlist id of the [k]-th createPlaylist call. *)
Definition playlist_at (E : Env) (k : nat) : Json :=
  match playlist_of_reply (createPlaylist E k) with Some p => p | None => JNone end.

(** Every call succeeds: the service has credentials, every createPlaylist
    call gives a playlist id, every addToPlaylist call is accepted. *)
Definition calls_succeed (E : Env) (svc : Service) (w : World) : Prop :=
  (exists c, credentials svc (config_file w) = Ok c) /\
  (forall k, playlist_of_reply (createPlaylist E k) <> None) /\
  (forall k, accepted (addToPlaylist E k) = true).

(** [ceil(a / b)]. *)
Definition ceil_div (a b : nat) : nat := (a + (b - 1)) / b.

(** The title of the playlist of the chunk [part]. *)
Definition title_of (title : string) (part : nat) : string :=
  match part with
  | 0 => title
  | _ => title ++ " (" ++ str_of_nat (part + 1) ++ ")"
  end.

(** [runs m w a cs]: from the world [w], [m] returns [a], and on the way
    the API calls [cs] are made and the configuration file stays as it is. *)
Definition runs {A} (m : M A) (w : World) (a : A) (cs : list Event) : Prop :=
  exists w', m w = (Ok a, w') /\ advances w w' cs.

(** The calls for the chunk [part], when its playlist is the one of the
    [k]-th createPlaylist call: the playlist is created, then the batches
    of 50 positions of the chunk are added in order. *)
Definition part_calls (E : Env) (ua tok : string) (uid : Z) (title : string)
    (ids : list string) (part k : nat) : list Event :=
  CreatePlaylist ua tok uid (title_of title part) ::
  map (fun i => AddToPlaylist ua tok uid (playlist_at E k) (slice ids i (i + BATCH_SIZE)))
      (range (part * PLAYLIST_MAX)
             (Nat.min (length ids) (part * PLAYLIST_MAX + PLAYLIST_MAX)) BATCH_SIZE).

(** The calls of a transfer in which every call succeeds, when [k0]
    playlists were created before. *)
Definition planned_calls (E : Env) (ua tok : string) (uid : Z) (title : string)
    (ids : list string) (k0 : nat) : list Event :=
  flat_map (fun part => part_calls E ua tok uid title ids part (k0 + part))
           (seq 0 (ceil_div (length ids) PLAYLIST_MAX)).

(** The number of ids in the batches of [xs] that start at [starts]. *)
Definition batch_total (xs : list string) (starts : list nat) : nat :=
  list_sum (map (fun i => length (slice xs i (i + BATCH_SIZE))) starts).

(** The answers the API documents: a JSON object that holds either a
    [response] or an [error] object with an [error_code] (and possibly an
    [error_msg]). *)
Definition documented_answer (fields : list (string * Json)) : Prop :=
  match lookup "error" fields with
  | Some err => exists code, getitem err "error_code" = Ok code
  | None => exists resp, lookup "response" fields = Some resp
  end.

(** The message of the error an answer holds. *)
Definition answer_error_message (err : Json) : option string :=
  match getitem err "error_code", get err "error_msg" (JStr "") with
  | Ok code, Ok msg => Some ("Ошибка: [" ++ str code ++ "] " ++ str msg)
  | _, _ => None
  end.

(** *** Sample runs *)

(** An account with [n] tracks, numbered in enumeration order. *)
Definition sample_tracks (n : nat) : list Json :=
  map (fun k => JDict [("owner_id", JInt 7); ("id", JInt (Z.of_nat k))]) (seq 0 n).

(** The [k]-th playlist gets the id [k + 1]. *)
Definition created (k : nat) : Result Json :=
  Ok (JDict [("response", JDict [("id", JInt (Z.pos (Pos.of_succ_nat k)))])]).

Definition added (k : nat) : Result Json := Ok (JDict [("response", JInt 1)]).

Definition flood_control : Result Json :=
  Ok (JDict [("error", JDict [("error_code", JInt 9); ("error_msg", JStr "Flood control")])]).

(** The file in which [configparser] reports the values of [content] the
    way they were given. *)
Definition stored (content : ConfigDict) : ConfigFile :=
  Parsed (map (fun section => (fst section,
                               map (fun o => (fst o, Ok (snd o))) (snd section)))
              content).

(** A configured service, login with a password, [n] tracks, and the
    given answers of the playlist API.  What is written to the
    configuration file is reported as it was given, as configparser does
    for values without a [%]. *)
Definition sample_env (n : nat) (create add : nat -> Result Json) : Env :=
  {| parse_config := Some (new_Service "KateMobileAndroid" "token");
     KATE_user_agent := "KateMobileAndroid";
     get_user_info := Ok {| userid := 7; first_name := "Ivan"; last_name := "Petrov" |};
     path_exists := fun _ => false;
     cookies_load := Ok tt;
     auth := AuthDone (Ok tt);
     VkAudio := Ok tt;
     get_iter := (sample_tracks n, None);
     createPlaylist := create;
     addToPlaylist := add;
     config_write := fun content => Ok (stored content) |}.

(** The user names the playlist, gives no cookie file, and logs in. *)
Definition sample_input : list string := ["Mix"; ""; "user"; "secret"].

Definition sample_world : World := initial_world sample_input None.

(** The [k]-th call is refused, every other call is answered by [usual]. *)
Definition refused_at (k0 : nat) (usual : nat -> Result Json) (k : nat) : Result Json :=
  if (k =? k0)%nat then flood_control else usual k.

(** An answer to createPlaylist that holds no id. *)
Definition no_id : Result Json := Ok (JDict [("response", JDict [])]).

(** [after m w Q]: the run of [m] from [w] ends with a result [r], has
    made the API calls [cs] and left the configuration file as it was, and
    [Q r cs] holds. *)
Definition after {A} (m : M A) (w : World) (Q : Result A -> list Event -> Prop) : Prop :=
  exists cs, advances w (snd (m w)) cs /\ Q (fst (m w)) cs.

(** A result that is not an exception. *)
Definition returned {A} (r : Result A) : Prop :=
  match r with Ok _ => True | Raise _ => False end.

(** [xs], where the elements that [retried] marks come twice in a row. *)
Fixpoint with_retries {A} (xs : list A) (retried : list bool) : list A :=
  match xs, retried with
  | x :: xs', b :: bs => ((if b then [x; x] else [x]) ++ with_retries xs' bs)%list
  | _, _ => []
  end.

(** [submits plan submitted complete]: what was submitted is an initial
    part of the plan, in order, each batch once or, when it was retried,
    twice in a row; it is the whole plan if [complete] holds. *)
Definition submits {A} (plan submitted : list A) (complete : Prop) : Prop :=
  exists done rest retried,
    plan = (done ++ rest)%list /\ length retried = length done /\
    submitted = with_retries done retried /\ (complete -> rest = []).

(** The [k]-th createPlaylist call gives a playlist id. *)
Definition is_created (E : Env) (k : nat) : bool :=
  match playlist_of_reply (createPlaylist E k) with Some _ => true | None => false end.

(** The batches of the chunk [part], for the playlist of the [k]-th
    createPlaylist call; none if that call gives no playlist. *)
Definition part_batches (E : Env) (ids : list string) (part k : nat)
  : list (Json * list string) :=
  if is_created E k then
    map (fun i => (playlist_at E k, slice ids i (i + BATCH_SIZE)))
        (range (part * PLAYLIST_MAX)
               (Nat.min (length ids) (part * PLAYLIST_MAX + PLAYLIST_MAX)) BATCH_SIZE)
  else [].


(** The planned batches chunk by chunk, when [k0] playlists were created
    before the transfer. *)
Definition batches_by_chunk (E : Env) (ids : list string) (k0 : nat)
  : list (Json * list string) :=
  if is_created E k0 then
    flat_map (fun part => part_batches E ids part (k0 + part))
             (seq 0 (ceil_div (length ids) PLAYLIST_MAX))
  else [].


(** *** Pacing of the requests *)

(** [paced hot evs] reads the events in order.  [hot] says that an
    addToPlaylist request was sent and no [time.sleep] of half a second or
    more has followed it yet.  The result is the state after the events,
    or [None] if an addToPlaylist request is sent while hot. *)
Fixpoint paced (hot : bool) (evs : list Event) : option bool :=
  match evs with
  | [] => Some hot
  | AddToPlaylist _ _ _ _ _ :: rest => if hot then None else paced true rest
  | Sleep ms :: rest => paced (if (500 <=? ms)%nat then false else hot) rest
  | _ :: rest => paced hot rest
  end.

(** [keeps_pace m w hot Q]: run from [w] in the state [hot], [m] appends
    events that are paced, and [Q] holds of its result and of the state it
    leaves. *)
Definition keeps_pace {A} (m : M A) (w : World) (hot : bool)
    (Q : Result A -> bool -> Prop) : Prop :=
  exists evs hot',
    trace (snd (m w)) = (trace w ++ evs)%list /\ paced hot evs = Some hot' /\
    Q (fst (m w)) hot'.

(** The state a computation has to leave when it returns: cold. *)
Definition cold_if_returned {A} (r : Result A) (hot : bool) : Prop :=
  match r with Ok _ => hot = false | Raise _ => True end.

(** What the transfer does with the outside: it prints, sleeps and calls
    the playlist service. *)
Definition is_transfer_event (ev : Event) : bool :=
  match ev with
  | Print _ | Sleep _ | CreatePlaylist _ _ _ _ | AddToPlaylist _ _ _ _ _ => true
  | _ => false
  end.

(** An item of the iterator that has both fields (line 130). *)
Definition has_both_fields (track : Json) : bool :=
  negb (is_None (track_field track "owner_id")) && negb (is_None (track_field track "id")).

(** The tracks the loop of lines 126-133 collects from the items the
    iterator yields: the items that have both fields, in order. *)
Definition track_pairs (items : list Json) : list (string * string) :=
  map (fun track => (str (track_field track "owner_id"), str (track_field track "id")))
      (filter has_both_fields items).

(** The progress line of line 133. *)
Definition progress_line (n : nat) : Event :=
  Print ("  Загружено: " ++ str_of_nat n ++ " треков...").


(** A write of the configuration file. *)
Definition is_write (ev : Event) : bool :=
  match ev with WriteConfig _ => true | _ => false end.

(** The configuration lines 193-196 write for a token. *)
Definition token_config (E : Env) (token : string) : ConfigDict :=
  [("VK", [("user_agent", KATE_user_agent E); ("token_for_audio", token)])].

(** The world after a sequence of events that neither read the console nor
    write the configuration file. *)
Definition pushes (w : World) (evs : list Event) : World :=
  {| trace := trace w ++ evs; stdin := stdin w; config_file := config_file w |}.

(** Not a write of the configuration file. *)
Definition not_write (ev : Event) : bool := negb (is_write ev).

(** [gives m Q]: what [m] returns, when it returns, satisfies [Q]. *)
Definition gives {A} (m : M A) (Q : A -> Prop) : Prop :=
  forall w a w', m w = (Ok a, w') -> Q a.

(** The two ways a session authenticates for the enumeration (lines
    213-231): with a login and a password, or with the cookies of a file
    that exists and the token of Kate. *)
Definition by_password (s : Session) : Prop :=
  exists l p, login s = Some l /\ password s = Some p /\
              nonempty l = true /\ nonempty p = true /\
              cookie_path s = None /\ kate_token s = None.

Definition by_cookies (E : Env) (s : Session) : Prop :=
  exists path tok, cookie_path s = Some path /\ kate_token s = Some tok /\
                   path_exists E path = true /\ nonempty tok = true.

(** The events of a run that authenticates with a login and a password:
    no cookies are loaded, and neither the login nor the password is
    empty. *)
Definition password_mode (ev : Event) : bool :=
  match ev with
  | LoadCookies _ => false
  | VkAuth l p => nonempty l && nonempty p
  | _ => true
  end.

(** The events of a run that authenticates with cookies: [vk.auth()] is
    not called, and the cookies come from a file that exists. *)
Definition cookie_mode (E : Env) (ev : Event) : bool :=
  match ev with
  | VkAuth _ _ => false
  | LoadCookies path => path_exists E path
  | _ => true
  end.

(** [steady c P m]: where the configuration file is [c], [m] leaves it as
    it is and appends events that satisfy [P]. *)
Definition steady {A} (c : option ConfigFile) (P : Event -> bool) (m : M A) : Prop :=
  forall w, config_file w = c ->
    config_file (snd (m w)) = c /\
    exists evs, trace (snd (m w)) = (trace w ++ evs)%list /\ forallb P evs = true.

(** An event that is no API call, or an API call with the user agent
    [ua] and the token [tok] for the owner [uid]. *)
Definition carries (ua tok : string) (uid : Z) (ev : Event) : bool :=
  match ev with
  | CreatePlaylist ua' tok' owner _ | AddToPlaylist ua' tok' owner _ _ =>
      String.eqb ua' ua && String.eqb tok' tok && (owner =? uid)%Z
  | _ => true
  end.

(** The environment [E], but [Service.parse_config] finds no service. *)
Definition no_service (E : Env) : Env :=
  {| parse_config := None;
     KATE_user_agent := KATE_user_agent E;
     get_user_info := get_user_info E;
     path_exists := path_exists E;
     cookies_load := cookies_load E;
     auth := auth E;
     VkAudio := VkAudio E;
     get_iter := get_iter E;
     createPlaylist := createPlaylist E;
     addToPlaylist := addToPlaylist E;
     config_write := config_write E |}.

(** The environment [E], but [configparser] refuses what the script
    assigns, as it does for a value with a lone [%]. *)
Definition refusing (E : Env) : Env :=
  {| parse_config := parse_config E;
     KATE_user_agent := KATE_user_agent E;
     get_user_info := get_user_info E;
     path_exists := path_exists E;
     cookies_load := cookies_load E;
     auth := auth E;
     VkAudio := VkAudio E;
     get_iter := get_iter E;
     createPlaylist := createPlaylist E;
     addToPlaylist := addToPlaylist E;
     config_write := fun _ =>
       Raise (OtherException "ValueError" "invalid interpolation syntax in 'a%b' at position 1") |}.

(** A configuration file whose token holds a lone [%]: reading the token
    raises. *)
Definition percent_file : ConfigFile :=
  Parsed [("VK", [("user_agent", Ok "Kate");
                  ("token_for_audio",
                   Raise (OtherException "InterpolationSyntaxError"
                            "'%' must be followed by '%' or '(', found: '%cd'"))])].

(* ================================================================= *)
(** * Proofs *)

(** ** The logic of appended events *)

Lemma only_ret {A} P (a : A) : only P (ret a).
Proof. intro w. exists []. simpl. now rewrite app_nil_r. Qed.

Lemma only_raise {A} P e : only P (@raise A e).
Proof. intro w. exists []. simpl. now rewrite app_nil_r. Qed.

Lemma only_lift {A} P (r : Result A) : only P (lift r).
Proof. intro w. exists []. simpl. now rewrite app_nil_r. Qed.

Lemma only_config_exists P : only P config_exists.
Proof. intro w. exists []. simpl. now rewrite app_nil_r. Qed.

Lemma only_config_read P : only P config_read.
Proof.
  intro w. exists []. unfold config_read.
  destruct (config_file w) as [[e|sections]|]; simpl; now rewrite app_nil_r.
Qed.

Lemma only_emit P ev : P ev = true -> only P (emit ev).
Proof. intros H w. exists [ev]. simpl. now rewrite H. Qed.

Lemma only_write_config E P c : P (WriteConfig c) = true -> only P (write_config E c).
Proof.
  intros H w. unfold write_config. destruct (config_write E c) as [file|e].
  - exists [WriteConfig c]. simpl. now rewrite H.
  - exists []. simpl. now rewrite app_nil_r.
Qed.

Lemma only_input P prompt :
  (forall answer, P (Input prompt answer) = true) -> only P (input prompt).
Proof.
  intros H w. unfold input. destruct (stdin w) as [|line rest].
  - exists []. simpl. now rewrite app_nil_r.
  - exists [Input prompt line]. simpl. now rewrite H.
Qed.

Lemma only_bind {A B} P (m : M A) (k : A -> M B) :
  only P m -> (forall a, only P (k a)) -> only P (bind m k).
Proof.
  intros Hm Hk w. unfold bind.
  destruct (Hm w) as [evs [Ht Hp]].
  destruct (m w) as [[a|e] w1]; simpl in Ht.
  - destruct (Hk a w1) as [evs' [Ht' Hp']].
    exists (evs ++ evs')%list. rewrite Ht', Ht, app_assoc, forallb_app, Hp, Hp'. auto.
  - exists evs. simpl. auto.
Qed.

Lemma only_try_except {A} P (body : M A) caught handler :
  only P body -> (forall e, only P (handler e)) -> only P (try_except body caught handler).
Proof.
  intros Hm Hk w. unfold try_except.
  destruct (Hm w) as [evs [Ht Hp]].
  destruct (body w) as [[a|e] w1]; simpl in Ht.
  - exists evs. simpl. auto.
  - destruct (caught e).
    + destruct (Hk e w1) as [evs' [Ht' Hp']].
      exists (evs ++ evs')%list. rewrite Ht', Ht, app_assoc, forallb_app, Hp, Hp'. auto.
    + exists evs. simpl. auto.
Qed.

Lemma only_for {A S} P (xs : list A) (body : A -> S -> M S) :
  (forall x s, only P (body x s)) -> forall s, only P (for_ xs body s).
Proof.
  intros Hb. induction xs as [|x rest IH]; intro s; simpl.
  - apply only_ret.
  - apply only_bind; auto.
Qed.

Lemma only_weaken {A} (P Q : Event -> bool) (m : M A) :
  (forall ev, P ev = true -> Q ev = true) -> only P m -> only Q m.
Proof.
  intros HPQ Hm w. destruct (Hm w) as [evs [Ht Hp]].
  exists evs. split; [assumption|].
  rewrite forallb_forall in *. auto.
Qed.

Lemma only_request_createPlaylist E P ua tok uid title :
  P (CreatePlaylist ua tok uid title) = true ->
  only P (request_createPlaylist E ua tok uid title).
Proof. intros H w. exists [CreatePlaylist ua tok uid title]. simpl. now rewrite H. Qed.

Lemma only_request_addToPlaylist E P ua tok uid pid ids :
  P (AddToPlaylist ua tok uid pid ids) = true ->
  only P (request_addToPlaylist E ua tok uid pid ids).
Proof. intros H w. exists [AddToPlaylist ua tok uid pid ids]. simpl. now rewrite H. Qed.

(** One rule of the logic, chosen by the shape of the computation; a
    function that has its own lemma in the database [frames] is not
    opened. *)
Create HintDb frames.

Ltac only_step :=
  first
    [ solve [auto 1 with frames nocore]
    | apply only_ret | apply only_raise | apply only_lift
    | apply only_config_exists | apply only_config_read
    | apply only_emit; reflexivity
    | apply only_write_config; reflexivity
    | apply only_input; intro; reflexivity
    | apply only_request_createPlaylist; reflexivity
    | apply only_request_addToPlaylist; reflexivity
    | apply only_bind; [|intros]
    | apply only_try_except; [|intros]
    | apply only_for; intros
    | match goal with
      | |- only _ (match ?x with _ => _ end) => destruct x
      | |- only _ (if ?b then _ else _) => destruct b
      end ].

Ltac only_auto := unfold print, sleep; repeat only_step.

Section Frames.

Variable E : Env.

Lemma only_get_credentials P svc : only P (_get_credentials svc).
Proof.
  unfold _get_credentials, config_token, config_user_agent, section_get. only_auto.
Qed.
Hint Resolve only_get_credentials : frames.

Lemma only_main_identify : only is_quiet (main_identify E).
Proof.
  unfold main_identify, main_service, _load_service_from_config, config_token,
    config_user_agent, section_get.
  only_auto.
Qed.

Lemma only_main_auth_choice svc uid title :
  only is_quiet (main_auth_choice E svc uid title).
Proof. unfold main_auth_choice. only_auto. Qed.

Lemma only_run_auth flow : only is_fetching (run_auth flow).
Proof.
  induction flow as [r|next IH]; simpl.
  - apply only_lift.
  - unfold two_factor_handler. only_auto.
Qed.
Hint Resolve only_run_auth : frames.

Lemma only_fetch uid l p c k : only is_fetching (_fetch_all_via_vk_api E uid l p c k).
Proof. unfold _fetch_all_via_vk_api, login_with_password, collect_track. only_auto. Qed.
Hint Resolve only_fetch : frames.

Lemma only_main_fetch s : only is_fetching (main_fetch E s).
Proof. unfold main_fetch. only_auto. Qed.

Lemma only_create_playlist svc uid title :
  only is_transferring (create_playlist E svc uid title).
Proof. unfold create_playlist, raise_on_error. only_auto. Qed.
Hint Resolve only_create_playlist : frames.

Lemma only_add_to_playlist svc uid pid ids :
  only is_transferring (add_to_playlist E svc uid pid ids).
Proof. unfold add_to_playlist, raise_on_error. only_auto. Qed.
Hint Resolve only_add_to_playlist : frames.

Lemma only_add_batch svc uid pid batch shown n total :
  only is_transferring (add_batch E svc uid pid batch shown n total).
Proof. unfold add_batch. only_auto. Qed.
Hint Resolve only_add_batch : frames.

Lemma only_main_transfer s all_tracks : only is_transferring (main_transfer E s all_tracks).
Proof.
  unfold main_transfer, overflow_part, add_batches, playlist_id_of. only_auto.
Qed.

End Frames.

(** ** Before the transfer *)

Lemma only_run {A} P (m : M A) w r w' :
  only P m -> m w = (r, w') ->
  exists evs, trace w' = (trace w ++ evs)%list /\ forallb P evs = true.
Proof. intros H Hrun. specialize (H w). rewrite Hrun in H. exact H. Qed.
Arguments only_run {A P m w r w'} _ _.

Lemma nonempty_false s : nonempty s = false <-> s = "".
Proof. destruct s; simpl; split; congruence. Qed.

Lemma forallb_weaken {A} (P Q : A -> bool) l :
  (forall x, P x = true -> Q x = true) -> forallb P l = true -> forallb Q l = true.
Proof. intros H. rewrite !forallb_forall. auto. Qed.

Lemma not_title_in P evs prompt answer :
  (forall ev, P ev = true -> is_title_answer ev = false) ->
  forallb P evs = true -> In (Input prompt answer) evs -> prompt <> title_prompt.
Proof.
  intros HP Hall Hin Heq. rewrite forallb_forall in Hall.
  apply Hall, HP in Hin. simpl in Hin. subst prompt.
  now rewrite String.eqb_refl in Hin.
Qed.

Lemma is_quiet_spec ev :
  is_quiet ev = true ->
  is_title_answer ev = false /\ is_enumeration ev = false /\ is_call ev = false.
Proof.
  unfold is_quiet. rewrite negb_true_iff, !orb_false_iff. tauto.
Qed.

Section AfterTitle.
Variable E : Env.

Lemma only_main_from_title svc uid title :
  only not_title_answer (main_from_title E svc uid title).
Proof.
  unfold main_from_title.
  apply only_bind.
  - eapply only_weaken; [|apply only_main_auth_choice].
    intros ev H. apply is_quiet_spec in H. unfold not_title_answer. now rewrite (proj1 H).
  - intros [s|]; [|apply only_ret].
    apply only_bind.
    + eapply only_weaken; [|apply only_main_fetch].
      unfold is_fetching, not_title_answer. intros ev H.
      rewrite negb_true_iff, orb_false_iff in H. now rewrite (proj1 H).
    + intros [tr|]; [|apply only_ret].
      eapply only_weaken; [|apply only_main_transfer].
      unfold is_transferring, not_title_answer. intros ev H.
      rewrite negb_true_iff, orb_false_iff in H. now rewrite (proj1 H).
Qed.

Lemma main_unfold w :
  main E w =
  match main_identify E w with
  | (Ok (Some (svc, uid)), w1) =>
      match input title_prompt w1 with
      | (Ok line, w2) =>
          if negb (nonempty (strip line)) then (Ok tt, w2)
          else main_from_title E svc uid (strip line) w2
      | (Raise e, w2) => (Raise e, w2)
      end
  | (Ok None, w1) => (Ok tt, w1)
  | (Raise e, w1) => (Raise e, w1)
  end.
Proof.
  unfold main, main_prepare, main_from_title, bind.
  destruct (main_identify E w) as [[[[svc uid]|]|e] w1]; try reflexivity.
  destruct (input title_prompt w1) as [[line|e] w2]; try reflexivity.
  destruct (negb (nonempty (strip line))); reflexivity.
Qed.

End AfterTitle.

(** C10.  If the answer to the title prompt is empty once stripped,
    [main] returns at that point: the answer is the last event of the run,
    and the run holds no interaction of the enumeration and no call of
    createPlaylist or addToPlaylist. *)
Theorem empty_title_returns_at_once E lines cfg r w' answer :
  main E (initial_world lines cfg) = (r, w') ->
  In (Input title_prompt answer) (trace w') ->
  strip answer = "" ->
  r = Ok tt /\
  (exists before, trace w' = (before ++ [Input title_prompt answer])%list) /\
  forallb (fun ev => negb (is_enumeration ev || is_call ev)) (trace w') = true.
Proof.
  intros Hrun Hin Hstrip. rewrite main_unfold in Hrun.
  destruct (main_identify E (initial_world lines cfg)) as [r1 w1] eqn:H1.
  destruct (only_run (only_main_identify E) H1) as [evs1 [Ht1 Hq1]].
  simpl in Ht1. rewrite <- Ht1 in Hq1. clear Ht1 evs1.
  assert (Hno : ~ In (Input title_prompt answer) (trace w1)).
  { intro Hc. eapply not_title_in; eauto. intros ev H. now apply is_quiet_spec in H. }
  assert (Hq : forallb (fun ev => negb (is_enumeration ev || is_call ev)) (trace w1) = true).
  { eapply forallb_weaken; [|exact Hq1]. intros ev H. apply is_quiet_spec in H.
    destruct H as [_ [-> ->]]. reflexivity. }
  destruct r1 as [[[svc uid]|]|e];
    [|injection Hrun as <- <-; contradiction|injection Hrun as <- <-; contradiction].
  unfold input in Hrun. destruct (stdin w1) as [|line rest].
  { injection Hrun as <- <-. contradiction. }
  destruct (nonempty (strip line)) eqn:Hne; simpl in Hrun.
  - exfalso.
    destruct (only_run (only_main_from_title E svc uid (strip line)) Hrun) as [evs2 [Ht2 Hq2]].
    rewrite Ht2 in Hin. simpl in Hin.
    apply in_app_or in Hin. destruct Hin as [Hin|Hin].
    + apply in_app_or in Hin. destruct Hin as [Hin|[Hin|[]]]; [contradiction|].
      injection Hin as ->. rewrite Hstrip in Hne. discriminate.
    + eapply (@not_title_in not_title_answer); eauto.
      unfold not_title_answer. intros ev H. now rewrite negb_true_iff in H.
  - injection Hrun as <- <-. simpl in *.
    apply in_app_or in Hin. destruct Hin as [Hin|[Hin|[]]]; [contradiction|].
    injection Hin as ->.
    split; [reflexivity|]. split; [now exists (trace w1)|].
    rewrite forallb_app, Hq. reflexivity.
Qed.

Lemma no_calls tr :
  forallb not_call tr = true -> created_titles tr = [] /\ submitted_batches tr = [].
Proof.
  induction tr as [|ev tr IH]; simpl; [auto|].
  rewrite andb_true_iff. intros [Hev Htr]. destruct (IH Htr) as [-> ->].
  destruct ev; simpl; auto; discriminate.
Qed.

Lemma only_main_prepare E : only not_call (main_prepare E).
Proof.
  assert (Hq : forall ev, is_quiet ev = true -> not_call ev = true).
  { intros ev H. apply is_quiet_spec in H. unfold not_call.
    now rewrite (proj2 (proj2 H)). }
  unfold main_prepare. apply only_bind.
  - eapply only_weaken; [exact Hq|apply only_main_identify].
  - intros [[svc uid]|]; [|apply only_ret].
    apply only_bind; [apply only_input; reflexivity|].
    intro line. destruct (negb (nonempty (strip line))); [apply only_ret|].
    eapply only_weaken; [exact Hq|apply only_main_auth_choice].
Qed.

Lemma is_fetching_not_call ev : is_fetching ev = true -> not_call ev = true.
Proof.
  unfold is_fetching, not_call. rewrite !negb_true_iff, orb_false_iff. tauto.
Qed.

Lemma enumerated_main E w s all_tracks w2 :
  enumerated E w = Some (s, all_tracks, w2) ->
  main E w = main_transfer E s all_tracks w2.
Proof.
  unfold enumerated, main, bind.
  destruct (main_prepare E w) as [[[s'|]|e] w1]; try discriminate.
  destruct (main_fetch E s' w1) as [[[t|]|e] w2']; try discriminate.
  now intros [= -> -> ->].
Qed.

Lemma enumerated_no_calls E lines cfg s all_tracks w2 :
  enumerated E (initial_world lines cfg) = Some (s, all_tracks, w2) ->
  forallb not_call (trace w2) = true.
Proof.
  unfold enumerated.
  destruct (main_prepare E (initial_world lines cfg)) as [[[s'|]|e] w1] eqn:H1;
    try discriminate.
  destruct (main_fetch E s' w1) as [[[t|]|e] w2'] eqn:H2; try discriminate.
  intros [= -> -> ->].
  destruct (only_run (only_main_prepare E) H1) as [evs1 [Ht1 Hq1]].
  destruct (only_run (only_main_fetch E s) H2) as [evs2 [Ht2 Hq2]].
  rewrite Ht2, Ht1. simpl. rewrite forallb_app, Hq1. simpl.
  eapply forallb_weaken; [apply is_fetching_not_call|exact Hq2].
Qed.

(** C6.  If the enumeration raises an exception, [main] prints the error
    and that no playlist was made, and returns: the run ends there and
    holds no createPlaylist call and no addToPlaylist call. *)
Theorem enumeration_failure_aborts E lines cfg s w1 e w2 :
  main_prepare E (initial_world lines cfg) = (Ok (Some s), w1) ->
  _fetch_all_via_vk_api E (user_id s) (login s) (password s) (cookie_path s)
                        (kate_token s) w1 = (Raise e, w2) ->
  exists w3,
    main E (initial_world lines cfg) = (Ok tt, w3) /\
    trace w3 = (trace w2 ++ [Print (nl ++ "Ошибка: " ++ str_of_exn e);
                             Print "Плейлист не создан."])%list /\
    created_titles (trace w3) = [] /\ submitted_batches (trace w3) = [].
Proof.
  intros H1 H2.
  destruct (only_run (only_main_prepare E) H1) as [evs1 [Ht1 Hq1]].
  destruct (only_run (only_fetch E _ _ _ _ _) H2) as [evs2 [Ht2 Hq2]].
  eexists. split; [|split].
  - unfold main, bind. rewrite H1. unfold main_fetch, try_except, bind. rewrite H2.
    simpl. reflexivity.
  - simpl. rewrite <- app_assoc. reflexivity.
  - assert (Hw2 : forallb not_call (trace w2) = true).
    { rewrite Ht2, Ht1. simpl. rewrite forallb_app, Hq1. simpl.
      eapply forallb_weaken; [apply is_fetching_not_call|exact Hq2]. }
    apply no_calls. simpl trace. rewrite !forallb_app, Hw2. reflexivity.
Qed.

(** C2.  When fewer than 500 tracks were enumerated (none at all
    included), [main] prints its two lines of guidance and returns: the
    run holds no createPlaylist call and no addToPlaylist call. *)
Theorem too_few_tracks_no_playlist E lines cfg s all_tracks w2 :
  enumerated E (initial_world lines cfg) = Some (s, all_tracks, w2) ->
  length all_tracks < 500 ->
  exists w3 line1 line2,
    main E (initial_world lines cfg) = (Ok tt, w3) /\
    trace w3 = (trace w2 ++ [Print line1; Print line2])%list /\
    created_titles (trace w3) = [] /\ submitted_batches (trace w3) = [].
Proof.
  intros Henum Hlen.
  pose proof (enumerated_no_calls _ _ _ Henum) as Hq.
  rewrite (enumerated_main _ _ Henum).
  unfold main_transfer.
  replace (length all_tracks <? MIN_TRACKS)%nat with true
    by (symmetry; apply Nat.ltb_lt; exact Hlen).
  eexists. eexists. eexists. split; [reflexivity|]. simpl. split.
  - rewrite <- app_assoc. reflexivity.
  - apply no_calls. rewrite !forallb_app, Hq. reflexivity.
Qed.

(** ** Slices and ranges *)

(** [lia] reads divisions by a constant. *)
Ltac Zify.zify_post_hook ::= Z.to_euclidean_division_equations.

Lemma length_slice {A} (l : list A) i j :
  length (slice l i j) = Nat.min (j - i) (length l - i).
Proof. unfold slice. now rewrite length_firstn, length_skipn. Qed.

Lemma slice_slice {A} (l : list A) a c j b :
  j + b <= c -> slice (slice l a (a + c)) j (j + b) = slice l (a + j) (a + j + b).
Proof.
  intro H. unfold slice.
  replace (a + c - a) with c by lia. replace (j + b - j) with b by lia.
  replace (a + j + b - (a + j)) with b by lia.
  rewrite skipn_firstn_comm, firstn_firstn, skipn_skipn.
  f_equal; [lia|]. f_equal. lia.
Qed.

Lemma slice_all {A} (l : list A) j : length l <= j -> slice l 0 j = l.
Proof. intro H. unfold slice. simpl. apply firstn_all2. lia. Qed.

Lemma firstn_add {A} (l : list A) x y :
  (firstn x l ++ firstn y (skipn x l))%list = firstn (x + y) l.
Proof.
  revert l. induction x as [|x IH]; intro l; [reflexivity|].
  destruct l as [|z l]; simpl.
  - now rewrite firstn_nil.
  - f_equal. apply IH.
Qed.

Lemma slice_app {A} (l : list A) a b c :
  a <= b -> b <= c -> (slice l a b ++ slice l b c)%list = slice l a c.
Proof.
  intros Hab Hbc. unfold slice.
  replace (skipn b l) with (skipn (b - a) (skipn a l))
    by (rewrite skipn_skipn; f_equal; lia).
  rewrite firstn_add. f_equal. lia.
Qed.

(** [ceil_div a b] is the least [q] with [a <= q * b]. *)
Lemma ceil_div_least a b q : 0 < b -> (ceil_div a b <= q <-> a <= q * b).
Proof.
  intro Hb. unfold ceil_div.
  pose proof (Nat.div_mod_eq (a + (b - 1)) b) as Hdiv.
  pose proof (Nat.mod_upper_bound (a + (b - 1)) b) as Hmod.
  split; intro H; nia.
Qed.

Lemma range_length a b s : length (range a b s) = (b - a + (s - 1)) / s.
Proof. unfold range. now rewrite length_map, length_seq. Qed.

Lemma range_In a b s i :
  0 < s -> In i (range a b s) -> exists k, i = a + k * s /\ i < b.
Proof.
  intros Hs Hin. unfold range in Hin. apply in_map_iff in Hin.
  destruct Hin as [k [<- Hk]]. apply in_seq in Hk. exists k. split; [reflexivity|].
  destruct Hk as [_ Hk]. simpl in Hk.
  assert (k * s + s <= b - a + (s - 1)); [|lia].
  pose proof (Nat.Div0.mul_div_le (b - a + (s - 1)) s). nia.
Qed.

Lemma range_step a b s :
  0 < s -> a < b -> range a b s = a :: range (a + s) b s.
Proof.
  intros Hs Hab. unfold range.
  replace ((b - a + (s - 1)) / s) with (S ((b - (a + s) + (s - 1)) / s)).
  - rewrite <- cons_seq, <- seq_shift, map_cons, map_map. f_equal; [lia|].
    apply map_ext. intro k. lia.
  - destruct (Nat.le_gt_cases (a + s) b) as [Hle|Hgt].
    + replace (b - a + (s - 1)) with ((b - (a + s) + (s - 1)) + 1 * s) by lia.
      rewrite Nat.div_add by lia. lia.
    + replace (b - (a + s)) with 0 by lia.
      rewrite (Nat.div_small (0 + (s - 1)) s) by lia.
      apply Nat.div_unique with (r := b - a - 1); lia.
Qed.

Lemma range_shift a n :
  range a (Nat.min n (a + 1000)) 50 =
  map (fun j => a + j) (range 0 (Nat.min 1000 (n - a)) 50).
Proof.
  unfold range. rewrite map_map.
  replace (Nat.min n (a + 1000) - a) with (Nat.min 1000 (n - a) - 0) by lia.
  apply map_ext. intro k. lia.
Qed.

Lemma map_seq_from {A} (f : nat -> A) a m :
  map f (seq a m) = map (fun k => f (a + k)) (seq 0 m).
Proof.
  revert a. induction m as [|m IH]; intro a; [reflexivity|].
  cbn [seq map]. rewrite Nat.add_0_r. f_equal.
  rewrite IH, <- seq_shift, map_map. apply map_ext. intro k. f_equal. lia.
Qed.

(** The chunks of 1000 positions cut the batch positions [0, 50, 100, ...]
    into consecutive runs. *)
Lemma range_by_chunks n :
  flat_map (fun part => range (part * 1000) (Nat.min n (part * 1000 + 1000)) 50)
           (seq 0 (ceil_div n 1000))
  = range 0 n 50.
Proof.
  assert (H : forall P,
             flat_map (fun part => range (part * 1000) (Nat.min n (part * 1000 + 1000)) 50)
                      (seq 0 P)
             = map (fun k => 0 + k * 50) (seq 0 (Nat.min ((n + 49) / 50) (20 * P)))).
  { induction P as [|P IH].
    - now rewrite Nat.mul_0_r, Nat.min_0_r.
    - rewrite seq_S, flat_map_app, IH. cbn [flat_map]. rewrite app_nil_r.
      unfold range.
      destruct (Nat.le_gt_cases ((n + 49) / 50) (20 * P)) as [Hle|Hgt].
      + replace ((Nat.min n ((0 + P) * 1000 + 1000) - (0 + P) * 1000 + (50 - 1)) / 50)
          with 0 by lia.
        cbn [seq map]. rewrite app_nil_r. do 2 f_equal. lia.
      + replace (Nat.min ((n + 49) / 50) (20 * S P))
          with (Nat.min ((n + 49) / 50) (20 * P)
                + (Nat.min n ((0 + P) * 1000 + 1000) - (0 + P) * 1000 + (50 - 1)) / 50)
          by lia.
        rewrite seq_app, map_app. f_equal.
        rewrite (map_seq_from _ (0 + Nat.min ((n + 49) / 50) (20 * P))).
        apply map_ext. intro k. lia. }
  rewrite H. unfold range, ceil_div. do 2 f_equal. lia.
Qed.

Lemma concat_slices {A} (l : list A) b k : forall a,
  concat (map (fun i => slice l i (i + b)) (map (fun q => a + q * b) (seq 0 k)))
  = slice l a (a + k * b).
Proof.
  induction k as [|k IH]; intro a.
  - unfold slice. cbn [seq map concat]. now replace (a + 0 * b - a) with 0 by lia.
  - rewrite <- cons_seq, <- seq_shift. cbn [map concat].
    rewrite (map_map S).
    rewrite (map_ext (fun q => a + S q * b) (fun q => (a + b) + q * b))
      by (intro q; cbn [Nat.mul]; lia).
    rewrite IH. replace (a + 0 * b) with a by lia.
    rewrite slice_app by lia. f_equal. cbn [Nat.mul]. lia.
Qed.


Lemma range_from_1 P : range 1 P 1 = seq 1 (P - 1).
Proof.
  unfold range. replace (P - 1 + (1 - 1)) with (P - 1) by lia.
  rewrite Nat.div_1_r, <- seq_shift. apply map_ext. intro k. lia.
Qed.

(** ** The transfer *)

Lemma calls_app tr tr' : calls (tr ++ tr') = (calls tr ++ calls tr')%list.
Proof. apply filter_app. Qed.

Lemma count_create_calls tr : count_create (calls tr) = count_create tr.
Proof.
  unfold count_create, calls. induction tr as [|ev tr IH]; [reflexivity|].
  destruct ev; simpl; auto.
Qed.

Lemma count_add_calls tr : count_add (calls tr) = count_add tr.
Proof.
  unfold count_add, calls. induction tr as [|ev tr IH]; [reflexivity|].
  destruct ev; simpl; auto.
Qed.

Lemma count_create_app tr tr' : count_create (tr ++ tr') = count_create tr + count_create tr'.
Proof. unfold count_create. now rewrite filter_app, length_app. Qed.

Lemma count_add_app tr tr' : count_add (tr ++ tr') = count_add tr + count_add tr'.
Proof. unfold count_add. now rewrite filter_app, length_app. Qed.

Lemma advances_refl w : advances w w [].
Proof. split; [reflexivity|now rewrite app_nil_r]. Qed.

Lemma advances_trans w1 w2 w3 cs cs' :
  advances w1 w2 cs -> advances w2 w3 cs' -> advances w1 w3 (cs ++ cs').
Proof.
  intros [Hc1 Ht1] [Hc2 Ht2]. split; [congruence|].
  now rewrite Ht2, Ht1, app_assoc.
Qed.
Arguments advances_trans {w1 w2 w3 cs cs'} _ _.

Lemma advances_push w ev :
  advances w (push w ev) (if is_call ev then [ev] else []).
Proof.
  split; [reflexivity|]. simpl. rewrite calls_app. simpl. now destruct (is_call ev).
Qed.

Lemma advances_count_create w w' cs :
  advances w w' cs -> count_create (trace w') = count_create (trace w) + count_create cs.
Proof.
  intros [_ H]. rewrite <- (count_create_calls (trace w')), H, count_create_app.
  now rewrite count_create_calls.
Qed.

Lemma advances_count_add w w' cs :
  advances w w' cs -> count_add (trace w') = count_add (trace w) + count_add cs.
Proof.
  intros [_ H]. rewrite <- (count_add_calls (trace w')), H, count_add_app.
  now rewrite count_add_calls.
Qed.

Lemma bind_ok {A B} (m : M A) (k : A -> M B) w a w1 :
  m w = (Ok a, w1) -> bind m k w = k a w1.
Proof. intro H. unfold bind. now rewrite H. Qed.
Arguments bind_ok {A B m} k {w a w1} _.

Lemma bind_raise {A B} (m : M A) (k : A -> M B) w e w1 :
  m w = (Raise e, w1) -> bind m k w = (Raise e, w1).
Proof. intro H. unfold bind. now rewrite H. Qed.

Arguments bind_raise {A B m} k {w e w1} _.

Lemma get_credentials_reads svc w w0 :
  config_file w0 = config_file w ->
  _get_credentials svc w = (fst (_get_credentials svc w0), w).
Proof.
  intro H.
  unfold _get_credentials, config_token, config_user_agent, section_get,
    bind, config_read, ret, raise.
  destruct (user_agent svc), (_Service__token svc); try reflexivity;
    (rewrite H; destruct (config_file w) as [[e|sections]|]; try reflexivity;
     destruct (lookup "VK" sections) as [vk|]; try reflexivity;
     repeat match goal with
            | |- context [lookup ?k vk] => destruct (lookup k vk) as [[?|?]|]
            | |- context [is_truthy ?v] => destruct (is_truthy v)
            | |- context [nonempty ?v] => destruct (nonempty v)
            end;
     reflexivity).
Qed.

Lemma get_credentials_run svc w :
  _get_credentials svc w = (credentials svc (config_file w), w).
Proof. unfold credentials. apply get_credentials_reads. reflexivity. Qed.

Lemma get_credentials_ok svc w c :
  credentials svc (config_file w) = Ok c -> _get_credentials svc w = (Ok c, w).
Proof. intro H. now rewrite get_credentials_run, H. Qed.

Section Accepted.

Variable E : Env.
Variables (svc : Service) (uid : Z) (ua tok : string).

Lemma add_to_playlist_accepted pid ids w :
  credentials svc (config_file w) = Ok (ua, tok) ->
  accepted (addToPlaylist E (count_add (trace w))) = true ->
  add_to_playlist E svc uid pid ids w = (Ok tt, push w (AddToPlaylist ua tok uid pid ids)).
Proof.
  intros Hc Ha. unfold add_to_playlist.
  rewrite (bind_ok _ (get_credentials_ok _ _ Hc)).
  unfold bind, request_addToPlaylist, raise_on_error, bind, lift, accepted in *.
  destruct (addToPlaylist E (count_add (trace w))) as [data|e]; [|discriminate].
  destruct (contains "error" data) as [[|]|e]; try discriminate. reflexivity.
Qed.

Lemma create_playlist_gives title w pid :
  credentials svc (config_file w) = Ok (ua, tok) ->
  playlist_of_reply (createPlaylist E (count_create (trace w))) = Some pid ->
  truthy pid = true /\
  exists resp,
    create_playlist E svc uid title w = (Ok resp, push w (CreatePlaylist ua tok uid title)) /\
    forall w', playlist_id_of resp w' = (Ok pid, w').
Proof.
  intros Hc Hp. unfold create_playlist.
  rewrite (bind_ok _ (get_credentials_ok _ _ Hc)).
  unfold bind, request_createPlaylist, raise_on_error, bind, lift, playlist_of_reply in *.
  destruct (createPlaylist E (count_create (trace w))) as [data|e]; [|discriminate].
  destruct (contains "error" data) as [[|]|e]; try discriminate.
  destruct (getitem data "response") as [resp|e]; [|discriminate].
  destruct (get resp "id" JNone) as [a|e] eqn:Ha; [|discriminate].
  destruct (get resp "playlist_id" JNone) as [b|e] eqn:Hb; [|discriminate].
  assert (truthy pid = true).
  { destruct (truthy a) eqn:Hta; [congruence|].
    destruct (truthy b) eqn:Htb; [congruence|discriminate]. }
  split; [assumption|]. exists resp. split; [reflexivity|].
  intro w'. unfold playlist_id_of, bind, lift, ret. rewrite Ha.
  destruct (truthy a); [congruence|]. rewrite Hb.
  destruct (truthy b); [congruence|discriminate].
Qed.

End Accepted.

(** *** Runs that make calls *)

Lemma runs_ret {A} (a : A) w : runs (ret a) w a [].
Proof. exists w. split; [reflexivity|apply advances_refl]. Qed.

Lemma runs_emit ev w : runs (emit ev) w tt (if is_call ev then [ev] else []).
Proof. exists (push w ev). split; [reflexivity|apply advances_push]. Qed.

Lemma runs_bind {A B} (m : M A) (k : A -> M B) w a cs b cs' :
  runs m w a cs ->
  (forall w1, advances w w1 cs -> runs (k a) w1 b cs') ->
  runs (bind m k) w b (cs ++ cs').
Proof.
  intros [w1 [Hm Ha]] Hk. destruct (Hk w1 Ha) as [w' [Hk' Ha']].
  exists w'. split; [now rewrite (bind_ok _ Hm)|exact (advances_trans Ha Ha')].
Qed.

Arguments runs_bind {A B m k w a cs b cs'} _ _.

Lemma runs_bind_pure {A B} (m : M A) (k : A -> M B) w a b cs :
  (forall w', m w' = (Ok a, w')) -> runs (k a) w b cs -> runs (bind m k) w b cs.
Proof.
  intros Hm [w' [Hk Ha]]. exists w'. split; [|exact Ha].
  now rewrite (bind_ok _ (Hm w)).
Qed.

Arguments runs_bind_pure {A B m k w a b cs} _ _.

Lemma runs_bind_any {A B} (m : M A) (k : A -> M B) w cs b cs' :
  (exists a, runs m w a cs) ->
  (forall a w1, advances w w1 cs -> runs (k a) w1 b cs') ->
  runs (bind m k) w b (cs ++ cs').
Proof. intros [a Hm] Hk. exact (runs_bind Hm (Hk a)). Qed.
Arguments runs_bind_any {A B m k w cs b cs'} _ _.

Lemma runs_bind_some {A B} (m : M A) (k : A -> M B) w a cs cs' :
  runs m w a cs ->
  (forall w1, advances w w1 cs -> exists b, runs (k a) w1 b cs') ->
  exists b, runs (bind m k) w b (cs ++ cs').
Proof.
  intros [w1 [Hm Ha]] Hk. destruct (Hk w1 Ha) as [b [w' [Hk' Ha']]].
  exists b, w'. split; [now rewrite (bind_ok _ Hm)|exact (advances_trans Ha Ha')].
Qed.
Arguments runs_bind_some {A B m k w a cs cs'} _ _.

Lemma runs_calls {A} (m : M A) w a cs cs' : runs m w a cs -> cs = cs' -> runs m w a cs'.
Proof. now intros H <-. Qed.
Arguments runs_calls {A m w a cs cs'} _ _.

Lemma count_create_adds ua tok uid pid (f : nat -> list string) xs :
  count_create (map (fun i => AddToPlaylist ua tok uid pid (f i)) xs) = 0.
Proof. unfold count_create. induction xs; simpl; auto. Qed.

Section Succeeds.

Variable E : Env.
Variables (svc : Service) (uid : Z) (ua tok : string).
Variables (title : string) (ids : list string) (shown_total : string).

Hypothesis creates_succeed : forall k, playlist_of_reply (createPlaylist E k) <> None.
Hypothesis adds_accepted : forall k, accepted (addToPlaylist E k) = true.

Let ready (w : World) : Prop := credentials svc (config_file w) = Ok (ua, tok).

Lemma ready_advances w w' cs : ready w -> advances w w' cs -> ready w'.
Proof. unfold ready. intros H [Hc _]. now rewrite Hc. Qed.

Lemma runs_add_to_playlist pid batch w :
  ready w ->
  runs (add_to_playlist E svc uid pid batch) w tt [AddToPlaylist ua tok uid pid batch].
Proof.
  intro Hr. exists (push w (AddToPlaylist ua tok uid pid batch)).
  split; [now apply add_to_playlist_accepted|].
  exact (advances_push w (AddToPlaylist ua tok uid pid batch)).
Qed.

Lemma runs_add_batch pid batch shown total w :
  ready w ->
  runs (add_batch E svc uid pid batch shown shown_total total) w (total + length batch)
       [AddToPlaylist ua tok uid pid batch].
Proof.
  intro Hr. eexists. split.
  - unfold add_batch, try_except, bind.
    rewrite (add_to_playlist_accepted E svc uid pid batch w Hr (adds_accepted _)).
    reflexivity.
  - split; [reflexivity|]. simpl. rewrite !calls_app. simpl. now rewrite !app_nil_r.
Qed.

Lemma runs_add_batches pid xs shown starts : forall total w,
  ready w ->
  runs (add_batches E svc uid pid xs starts shown shown_total total) w
       (total + batch_total xs starts)
       (map (fun i => AddToPlaylist ua tok uid pid (slice xs i (i + BATCH_SIZE))) starts).
Proof.
  unfold add_batches, batch_total.
  induction starts as [|i rest IH]; intros total w Hr; cbn [for_ map list_sum fold_right].
  - rewrite Nat.add_0_r. apply runs_ret.
  - rewrite Nat.add_assoc.
    refine (runs_bind (cs := [_]) (cs' := map _ rest)
                      (runs_add_batch pid _ shown total Hr) _).
    intros w1 Hadv. apply IH. exact (ready_advances Hr Hadv).
Qed.

Lemma runs_create_playlist t w :
  ready w ->
  exists resp,
    runs (create_playlist E svc uid t) w resp [CreatePlaylist ua tok uid t] /\
    truthy (playlist_at E (count_create (trace w))) = true /\
    forall w', playlist_id_of resp w' = (Ok (playlist_at E (count_create (trace w))), w').
Proof.
  intro Hr. unfold playlist_at.
  destruct (playlist_of_reply (createPlaylist E (count_create (trace w)))) as [pid|] eqn:Hp;
    [|now apply creates_succeed in Hp].
  destruct (create_playlist_gives E svc uid t w Hr Hp) as [Ht [resp [Hrun Hid]]].
  exists resp. split; [|split; assumption].
  eexists. split; [exact Hrun|].
  exact (advances_push w (CreatePlaylist ua tok uid t)).
Qed.

Lemma chunk_batches pid part :
  map (fun j => AddToPlaylist ua tok uid pid
                  (slice (slice ids (part * PLAYLIST_MAX) (part * PLAYLIST_MAX + PLAYLIST_MAX))
                         j (j + BATCH_SIZE)))
      (range 0 (length (slice ids (part * PLAYLIST_MAX) (part * PLAYLIST_MAX + PLAYLIST_MAX)))
             BATCH_SIZE)
  = map (fun i => AddToPlaylist ua tok uid pid (slice ids i (i + BATCH_SIZE)))
        (range (part * PLAYLIST_MAX)
               (Nat.min (length ids) (part * PLAYLIST_MAX + PLAYLIST_MAX)) BATCH_SIZE).
Proof.
  unfold PLAYLIST_MAX, BATCH_SIZE.
  rewrite range_shift, map_map, length_slice.
  replace (part * 1000 + 1000 - part * 1000) with 1000 by lia.
  apply map_ext_in. intros j Hj. apply range_In in Hj; [|lia].
  destruct Hj as [k [-> Hk]]. f_equal. apply slice_slice. lia.
Qed.

Lemma runs_overflow_part part total np w :
  ready w -> 1 <= part ->
  runs (overflow_part E svc uid title ids shown_total part (total, np)) w
       (total + batch_total (slice ids (part * PLAYLIST_MAX) (part * PLAYLIST_MAX + PLAYLIST_MAX))
                            (range 0 (length (slice ids (part * PLAYLIST_MAX)
                                                    (part * PLAYLIST_MAX + PLAYLIST_MAX)))
                                   BATCH_SIZE),
        np + 1)
       (part_calls E ua tok uid title ids part (count_create (trace w))).
Proof.
  intros Hr Hpart. unfold overflow_part.
  set (t := title ++ " (" ++ str_of_nat (part + 1) ++ ")").
  assert (Ht : title_of title part = t) by (destruct part; [lia|reflexivity]).
  set (chunk := slice ids (part * PLAYLIST_MAX) (part * PLAYLIST_MAX + PLAYLIST_MAX)).
  unfold part_calls. rewrite Ht, <- (chunk_batches _ part). fold chunk.
  eapply runs_calls.
  - eapply runs_bind; [apply (runs_emit (Print _))|]. intros w1 Hw1.
    assert (Hr1 : ready w1) by exact (ready_advances Hr Hw1).
    destruct (runs_create_playlist t Hr1) as [resp [Hcreate [Htruthy Hid]]].
    rewrite (advances_count_create Hw1), Nat.add_0_r in Htruthy, Hid.
    eapply runs_bind; [exact Hcreate|]. intros w2 Hw2.
    apply (runs_bind_pure Hid). rewrite Htruthy. cbn [negb].
    eapply runs_bind; [apply runs_add_batches; exact (ready_advances Hr1 Hw2)|].
    intros w3 Hw3. apply runs_ret.
  - cbn [is_call is_create is_add orb app]. now rewrite app_nil_r.
Qed.

Lemma count_create_part_calls part k :
  count_create (part_calls E ua tok uid title ids part k) = 1.
Proof.
  unfold part_calls, count_create. cbn [filter is_create length].
  f_equal. apply count_create_adds.
Qed.

Lemma runs_overflow_loop k0 m : forall a counters w,
  ready w -> 1 <= a -> count_create (trace w) = k0 + a ->
  exists counters',
    runs (for_ (seq a m) (overflow_part E svc uid title ids shown_total) counters) w counters'
         (flat_map (fun part => part_calls E ua tok uid title ids part (k0 + part)) (seq a m)).
Proof.
  induction m as [|m IH]; intros a [total np] w Hr Ha Hk; cbn [seq for_ flat_map].
  - eexists. apply runs_ret.
  - pose proof (runs_overflow_part total np Hr Ha) as Hpart. rewrite Hk in Hpart.
    apply (runs_bind_some Hpart). intros w1 Hw1.
    apply IH; [exact (ready_advances Hr Hw1)|lia|].
    rewrite (advances_count_create Hw1), count_create_part_calls. lia.
Qed.

End Succeeds.

Lemma planned_calls_unfold E ua tok uid title ids k0 :
  1 <= length ids ->
  planned_calls E ua tok uid title ids k0 =
  ((CreatePlaylist ua tok uid title
   :: AddToPlaylist ua tok uid (playlist_at E k0) (slice ids 0 BATCH_SIZE)
   :: map (fun i => AddToPlaylist ua tok uid (playlist_at E k0) (slice ids i (i + BATCH_SIZE)))
          (range BATCH_SIZE (Nat.min PLAYLIST_MAX (length ids)) BATCH_SIZE))
  ++ flat_map (fun part => part_calls E ua tok uid title ids part (k0 + part))
              (range 1 ((length ids + PLAYLIST_MAX - 1) / PLAYLIST_MAX) 1))%list.
Proof.
  intro Hn. unfold planned_calls, ceil_div, PLAYLIST_MAX, BATCH_SIZE.
  rewrite range_from_1.
  replace ((length ids + (1000 - 1)) / 1000) with (S ((length ids + 1000 - 1) / 1000 - 1)) by lia.
  rewrite <- cons_seq. cbn [flat_map]. f_equal.
  unfold part_calls at 1, PLAYLIST_MAX, BATCH_SIZE. cbn [title_of].
  rewrite Nat.add_0_r, Nat.mul_0_l, Nat.add_0_l, (Nat.min_comm (length ids)).
  rewrite (range_step (a := 0)) by lia. reflexivity.
Qed.

(** The transfer when every call succeeds. *)
Lemma main_transfer_succeeds E s all_tracks ua tok w :
  500 <= length all_tracks ->
  credentials (service s) (config_file w) = Ok (ua, tok) ->
  (forall k, playlist_of_reply (createPlaylist E k) <> None) ->
  (forall k, accepted (addToPlaylist E k) = true) ->
  runs (main_transfer E s all_tracks) w tt
       (planned_calls E ua tok (user_id s) (playlist_title s)
                      (map composite_id (rev all_tracks)) (count_create (trace w))).
Proof.
  intros Hlen Hr Hcreate Hadd. unfold main_transfer.
  replace (length all_tracks <? MIN_TRACKS)%nat with false
    by (symmetry; apply Nat.ltb_ge; exact Hlen).
  set (ids := map composite_id (rev all_tracks)).
  assert (Hids : length ids = length all_tracks)
    by (unfold ids; now rewrite length_map, length_rev).
  rewrite planned_calls_unfold by lia.
  rewrite !range_from_1.
  eapply runs_calls.
  - eapply runs_bind; [apply (runs_emit (Print _))|]. intros w1 Hw1.
    eapply runs_bind; [apply (runs_emit (Print _))|]. intros w2 Hw2.
    pose proof (advances_trans Hw1 Hw2) as Hw12. cbn [is_call is_create is_add orb app] in Hw12.
    assert (Hr2 : credentials (service s) (config_file w2) = Ok (ua, tok))
      by exact (@ready_advances _ _ _ _ _ _ Hr Hw12).
    edestruct runs_create_playlist as [resp [Hc [Htruthy Hid]]]; [exact Hcreate|exact Hr2|].
    rewrite (advances_count_create Hw12), Nat.add_0_r in Htruthy, Hid.
    eapply runs_bind; [exact Hc|]. intros w3 Hw3.
    apply (runs_bind_pure Hid). rewrite Htruthy. cbn [negb].
    assert (Hr3 : credentials (service s) (config_file w3) = Ok (ua, tok))
      by exact (@ready_advances _ _ _ _ _ _ Hr2 Hw3).
    eapply runs_bind; [eapply runs_add_to_playlist; [exact Hadd|exact Hr3]|]. intros w4 Hw4.
    eapply runs_bind; [apply (runs_emit (Print _))|]. intros w5 Hw5.
    eapply runs_bind; [apply (runs_emit (Sleep _))|]. intros w6 Hw6.
    pose proof (advances_trans (advances_trans Hw4 Hw5) Hw6) as Hw46.
    assert (Hr6 : credentials (service s) (config_file w6) = Ok (ua, tok))
      by exact (@ready_advances _ _ _ _ _ _ Hr3 Hw46).
    eapply runs_bind; [eapply runs_add_batches; [exact Hadd|exact Hr6]|]. intros w7 Hw7.
    assert (Hr7 : credentials (service s) (config_file w7) = Ok (ua, tok))
      by exact (@ready_advances _ _ _ _ _ _ Hr6 Hw7).
    eapply runs_bind_any.
    + eapply runs_overflow_loop with (k0 := count_create (trace w));
        [exact Hcreate|exact Hadd|exact Hr7|lia|].
      rewrite (advances_count_create Hw7), (advances_count_create Hw46),
        (advances_count_create Hw3), (advances_count_create Hw12).
      cbn [is_call is_create is_add orb app]. rewrite count_create_adds.
      unfold count_create. cbn [filter is_create length]. lia.
    + intros [total np] w8 Hw8.
      exact (runs_calls (cs' := []) (runs_emit (Print _) w8) eq_refl).
  - cbn [is_call is_create is_add orb app]. rewrite !app_nil_r. reflexivity.
Qed.

(** *** What the planned calls hold *)

Lemma submitted_batches_app tr tr' :
  submitted_batches (tr ++ tr') = (submitted_batches tr ++ submitted_batches tr')%list.
Proof. apply flat_map_app. Qed.

Lemma created_titles_app tr tr' :
  created_titles (tr ++ tr') = (created_titles tr ++ created_titles tr')%list.
Proof. apply flat_map_app. Qed.

Lemma submitted_batches_calls tr : submitted_batches (calls tr) = submitted_batches tr.
Proof.
  induction tr as [|ev tr IH]; [reflexivity|].
  destruct ev; simpl; try exact IH. now rewrite IH.
Qed.

Lemma created_titles_calls tr : created_titles (calls tr) = created_titles tr.
Proof.
  induction tr as [|ev tr IH]; [reflexivity|].
  destruct ev; simpl; try exact IH. now rewrite IH.
Qed.

Lemma submitted_batches_adds ua tok uid pid (f : nat -> list string) xs :
  submitted_batches (map (fun i => AddToPlaylist ua tok uid pid (f i)) xs)
  = map (fun i => (pid, f i)) xs.
Proof. induction xs as [|x xs IH]; [reflexivity|]. simpl. now rewrite IH. Qed.

Lemma created_titles_adds ua tok uid pid (f : nat -> list string) xs :
  created_titles (map (fun i => AddToPlaylist ua tok uid pid (f i)) xs) = [].
Proof. induction xs as [|x xs IH]; [reflexivity|]. simpl. exact IH. Qed.

Lemma map_flat_map {A B C} (g : B -> C) (f : A -> list B) l :
  map g (flat_map f l) = flat_map (fun x => map g (f x)) l.
Proof. induction l as [|x l IH]; [reflexivity|]. simpl. now rewrite map_app, IH. Qed.

Lemma flat_map_ext_in {A B} (f g : A -> list B) l :
  (forall x, In x l -> f x = g x) -> flat_map f l = flat_map g l.
Proof.
  induction l as [|x l IH]; intro H; [reflexivity|]. simpl.
  rewrite (H x) by now left. rewrite IH; [reflexivity|].
  intros y Hy. apply H. now right.
Qed.

Section Planned.

Variable E : Env.
Variables (ua tok : string) (uid : Z) (title : string) (ids : list string) (k0 : nat).

Lemma submitted_batches_planned :
  submitted_batches (planned_calls E ua tok uid title ids k0)
  = map (fun i => (playlist_at E (k0 + i / PLAYLIST_MAX), slice ids i (i + BATCH_SIZE)))
        (range 0 (length ids) BATCH_SIZE).
Proof.
  unfold planned_calls, PLAYLIST_MAX, BATCH_SIZE.
  rewrite <- range_by_chunks, map_flat_map.
  induction (seq 0 (ceil_div (length ids) 1000)) as [|part parts IH]; [reflexivity|].
  cbn [flat_map]. rewrite submitted_batches_app, IH. f_equal.
  unfold part_calls, PLAYLIST_MAX, BATCH_SIZE.
  change (submitted_batches (?c :: ?l)) with (submitted_batches l).
  rewrite submitted_batches_adds. apply map_ext_in. intros i Hi.
  apply range_In in Hi; [|lia]. destruct Hi as [k [-> Hk]].
  do 3 f_equal. lia.
Qed.

Lemma created_titles_planned :
  created_titles (planned_calls E ua tok uid title ids k0)
  = map (title_of title) (seq 0 (ceil_div (length ids) PLAYLIST_MAX)).
Proof.
  unfold planned_calls.
  induction (seq 0 (ceil_div (length ids) PLAYLIST_MAX)) as [|part parts IH]; [reflexivity|].
  cbn [flat_map map]. rewrite created_titles_app, IH. unfold part_calls.
  cbn [created_titles flat_map app]. now rewrite created_titles_adds.
Qed.

Lemma submitted_ids_planned :
  concat (map snd (submitted_batches (planned_calls E ua tok uid title ids k0))) = ids.
Proof.
  rewrite submitted_batches_planned, map_map. cbn [snd]. unfold BATCH_SIZE, range.
  rewrite concat_slices. apply slice_all. lia.
Qed.

End Planned.

(** The whole run when every call succeeds: the calls are the planned ones. *)
Lemma main_succeeds E lines cfg s all_tracks w2 :
  enumerated E (initial_world lines cfg) = Some (s, all_tracks, w2) ->
  500 <= length all_tracks ->
  calls_succeed E (service s) w2 ->
  exists ua tok w3,
    main E (initial_world lines cfg) = (Ok tt, w3) /\
    calls (trace w3) = planned_calls E ua tok (user_id s) (playlist_title s)
                                     (map composite_id (rev all_tracks)) 0.
Proof.
  intros Henum Hlen [[[ua tok] Hc] [Hcreate Hadd]].
  pose proof (enumerated_no_calls _ _ _ Henum) as Hq.
  assert (Hcalls : calls (trace w2) = []).
  { unfold calls. induction (trace w2) as [|ev tr IH]; [reflexivity|].
    simpl in Hq. apply andb_true_iff in Hq. destruct Hq as [Hev Htr].
    unfold not_call in Hev. apply negb_true_iff in Hev. simpl. rewrite Hev. auto. }
  destruct (main_transfer_succeeds E s all_tracks w2 Hlen Hc Hcreate Hadd)
    as [w3 [Hrun [_ Hadv]]].
  exists ua, tok, w3. rewrite (enumerated_main _ _ Henum). split; [exact Hrun|].
  rewrite Hadv, Hcalls. cbn [app]. do 2 f_equal.
  rewrite <- count_create_calls, Hcalls. reflexivity.
Qed.

(** C1.  When at least 500 tracks were enumerated and every createPlaylist
    and addToPlaylist call succeeds, the run makes [ceil(total / 50)]
    addToPlaylist calls and [ceil(total / 1000)] createPlaylist calls. *)
Theorem transfer_call_counts E lines cfg s all_tracks w2 :
  enumerated E (initial_world lines cfg) = Some (s, all_tracks, w2) ->
  500 <= length all_tracks ->
  calls_succeed E (service s) w2 ->
  exists w3,
    main E (initial_world lines cfg) = (Ok tt, w3) /\
    length (submitted_batches (trace w3)) = ceil_div (length all_tracks) 50 /\
    length (created_titles (trace w3)) = ceil_div (length all_tracks) 1000.
Proof.
  intros Henum Hlen Hok.
  destruct (main_succeeds _ _ Henum Hlen Hok) as [ua [tok [w3 [Hrun Hcalls]]]].
  exists w3. split; [exact Hrun|].
  rewrite <- submitted_batches_calls, <- created_titles_calls, Hcalls.
  rewrite submitted_batches_planned, created_titles_planned.
  rewrite ?length_map, ?range_length, ?length_seq, ?length_map, ?length_rev.
  unfold ceil_div, BATCH_SIZE, PLAYLIST_MAX. split; [|reflexivity].
  now rewrite Nat.sub_0_r.
Qed.

(** C3, amended.  When at least 500 tracks were enumerated and every
    createPlaylist and addToPlaylist call succeeds, the composite ids of
    all addToPlaylist calls, in call order, are the enumerated pairs in
    reverse order, each as [owner_id ++ "_" ++ track_id]. *)
Theorem submitted_in_reverse_order E lines cfg s all_tracks w2 :
  enumerated E (initial_world lines cfg) = Some (s, all_tracks, w2) ->
  500 <= length all_tracks ->
  calls_succeed E (service s) w2 ->
  exists w3,
    main E (initial_world lines cfg) = (Ok tt, w3) /\
    submitted_ids (trace w3)
    = map (fun track => fst track ++ "_" ++ snd track) (rev all_tracks).
Proof.
  intros Henum Hlen Hok.
  destruct (main_succeeds _ _ Henum Hlen Hok) as [ua [tok [w3 [Hrun Hcalls]]]].
  exists w3. split; [exact Hrun|].
  unfold submitted_ids. rewrite <- submitted_batches_calls, Hcalls, submitted_ids_planned.
  apply map_ext. now intros [o t].
Qed.

Lemma concat_range_slices {A} (l : list A) a b :
  concat (map (fun i => slice l i (i + 50)) (range a b 50))
  = slice l a (a + (b - a + 49) / 50 * 50).
Proof. unfold range. apply concat_slices. Qed.

(** C7.  With exactly 1200 tracks enumerated and every call succeeding,
    the calls are: createPlaylist with the user's title, the batches that
    make up positions 0 to 999 of the reversed id list added to the
    playlist it returned, createPlaylist with the title followed by
    [" (2)"], and the batches that make up positions 1000 to 1199 added to
    that second playlist.  The id list holds, for each enumerated pair,
    [owner_id ++ "_" ++ track_id]. *)
Theorem two_playlists_for_1200 E lines cfg s all_tracks w2 :
  enumerated E (initial_world lines cfg) = Some (s, all_tracks, w2) ->
  length all_tracks = 1200 ->
  calls_succeed E (service s) w2 ->
  exists w3 ua tok first second batches1 batches2,
    main E (initial_world lines cfg) = (Ok tt, w3) /\
    playlist_of_reply (createPlaylist E 0) = Some first /\
    playlist_of_reply (createPlaylist E 1) = Some second /\
    calls (trace w3) =
      (CreatePlaylist ua tok (user_id s) (playlist_title s)
         :: map (AddToPlaylist ua tok (user_id s) first) batches1
       ++ CreatePlaylist ua tok (user_id s) (playlist_title s ++ " (2)")
         :: map (AddToPlaylist ua tok (user_id s) second) batches2)%list /\
    concat batches1
    = slice (map (fun track => fst track ++ "_" ++ snd track) (rev all_tracks)) 0 1000 /\
    concat batches2
    = slice (map (fun track => fst track ++ "_" ++ snd track) (rev all_tracks)) 1000 1200.
Proof.
  intros Henum Hlen Hok.
  assert (Hfmt : map (fun track => fst track ++ "_" ++ snd track) (rev all_tracks)
                 = map composite_id (rev all_tracks))
    by (apply map_ext; now intros [o t]).
  rewrite Hfmt. clear Hfmt.
  assert (H500 : 500 <= length all_tracks) by lia.
  destruct (main_succeeds _ _ Henum H500 Hok) as [ua [tok [w3 [Hrun Hcalls]]]].
  destruct Hok as [_ [Hcreate _]].
  set (ids := map composite_id (rev all_tracks)) in *.
  assert (Hids : length ids = 1200)
    by (unfold ids; now rewrite length_map, length_rev).
  destruct (playlist_of_reply (createPlaylist E 0)) as [first|] eqn:H0;
    [|now apply Hcreate in H0].
  destruct (playlist_of_reply (createPlaylist E 1)) as [second|] eqn:H1;
    [|now apply Hcreate in H1].
  exists w3, ua, tok, first, second,
    (map (fun i => slice ids i (i + 50)) (range 0 1000 50)),
    (map (fun i => slice ids i (i + 50)) (range 1000 1200 50)).
  split; [exact Hrun|]. split; [reflexivity|]. split; [reflexivity|]. split.
  - rewrite Hcalls. unfold planned_calls, part_calls, playlist_at. rewrite Hids.
    change (ceil_div 1200 PLAYLIST_MAX) with 2. cbn [seq flat_map app].
    rewrite app_nil_r. cbn [Nat.add]. rewrite H0, H1.
    change (Nat.min 1200 (0 * PLAYLIST_MAX + PLAYLIST_MAX)) with 1000.
    change (Nat.min 1200 (1 * PLAYLIST_MAX + PLAYLIST_MAX)) with 1200.
    change (0 * PLAYLIST_MAX) with 0. change (1 * PLAYLIST_MAX) with 1000.
    rewrite !map_map. reflexivity.
  - split; rewrite concat_range_slices; reflexivity.
Qed.

(** ** The two API functions *)

Lemma raise_on_error_spec fields w :
  documented_answer fields ->
  raise_on_error (JDict fields) w =
  match lookup "error" fields with
  | Some err =>
      match answer_error_message err with
      | Some m => (Raise (RuntimeError m), w)
      | None => (Ok tt, w)
      end
  | None => (Ok tt, w)
  end /\
  (forall err, lookup "error" fields = Some err -> answer_error_message err <> None).
Proof.
  intro Hdoc. unfold documented_answer in Hdoc.
  unfold raise_on_error, bind, lift, answer_error_message. cbn [contains].
  destruct (lookup "error" fields) as [err|] eqn:Herr;
    [|split; [reflexivity|discriminate]].
  destruct Hdoc as [code Hcode].
  destruct err as [| | | | |efields]; try (cbn in Hcode; discriminate).
  cbn [getitem get] in *. rewrite Herr. cbn [getitem get].
  destruct (lookup "error_code" efields) as [c|] eqn:Hlookup; [|discriminate].
  split; [reflexivity|]. intros err [= <-]. cbn [getitem get]. rewrite Hlookup.
  discriminate.
Qed.

(** C8.  For an answer of the documented shape, [create_playlist] and
    [add_to_playlist] raise a [RuntimeError] exactly when the answer holds
    an [error]; the message of that error is made of its [error_code] and
    its [error_msg]; without an [error], [create_playlist] returns the
    [response] and [add_to_playlist] returns. *)
Theorem api_error_is_runtime_error E svc uid title pid ids w c fields :
  credentials svc (config_file w) = Ok c ->
  documented_answer fields ->
  (createPlaylist E (count_create (trace w)) = Ok (JDict fields) ->
   ((exists m, fst (create_playlist E svc uid title w) = Raise (RuntimeError m))
    <-> lookup "error" fields <> None) /\
   match lookup "error" fields with
   | Some err =>
       exists m, answer_error_message err = Some m /\
                 fst (create_playlist E svc uid title w) = Raise (RuntimeError m)
   | None =>
       exists resp, lookup "response" fields = Some resp /\
                    fst (create_playlist E svc uid title w) = Ok resp
   end) /\
  (addToPlaylist E (count_add (trace w)) = Ok (JDict fields) ->
   ((exists m, fst (add_to_playlist E svc uid pid ids w) = Raise (RuntimeError m))
    <-> lookup "error" fields <> None) /\
   match lookup "error" fields with
   | Some err =>
       exists m, answer_error_message err = Some m /\
                 fst (add_to_playlist E svc uid pid ids w) = Raise (RuntimeError m)
   | None => fst (add_to_playlist E svc uid pid ids w) = Ok tt
   end).
Proof.
  intros Hc Hdoc. destruct c as [ua tok].
  split; intro Hreply.
  - assert (Hrun : create_playlist E svc uid title w =
                   bind (raise_on_error (JDict fields))
                        (fun _ => lift (getitem (JDict fields) "response"))
                        (push w (CreatePlaylist ua tok uid title))).
    { unfold create_playlist. rewrite (bind_ok _ (get_credentials_ok _ _ Hc)).
      unfold bind at 1, request_createPlaylist. now rewrite Hreply. }
    rewrite Hrun. unfold bind.
    destruct (@raise_on_error_spec fields (push w (CreatePlaylist ua tok uid title)) Hdoc)
      as [-> Hmsg].
    unfold documented_answer in Hdoc.
    destruct (lookup "error" fields) as [err|] eqn:Herr.
    + destruct (answer_error_message err) as [m|] eqn:Hm; [|now elim (Hmsg err)].
      split; [|now exists m]. split; [discriminate|]. intros _. now exists m.
    + destruct Hdoc as [resp Hresp]. cbn [lift getitem fst]. rewrite Hresp.
      split; [|now exists resp]. split; [|congruence]. intros [m Hm]. discriminate.
  - assert (Hrun : add_to_playlist E svc uid pid ids w =
                   raise_on_error (JDict fields)
                                  (push w (AddToPlaylist ua tok uid pid ids))).
    { unfold add_to_playlist. rewrite (bind_ok _ (get_credentials_ok _ _ Hc)).
      unfold bind, request_addToPlaylist. rewrite Hreply.
      now destruct (raise_on_error _ _) as [[[]|] ?]. }
    rewrite Hrun.
    destruct (@raise_on_error_spec fields (push w (AddToPlaylist ua tok uid pid ids)) Hdoc)
      as [-> Hmsg].
    destruct (lookup "error" fields) as [err|] eqn:Herr.
    + destruct (answer_error_message err) as [m|] eqn:Hm; [|now elim (Hmsg err)].
      split; [|now exists m]. split; [discriminate|]. intros _. now exists m.
    + split; [|reflexivity]. split; [|congruence]. intros [m Hm]. discriminate.
Qed.

(** ** The transfer, whatever the API answers *)

Lemma after_ret {A} (a : A) w (Q : Result A -> list Event -> Prop) :
  Q (Ok a) [] -> after (ret a) w Q.
Proof. intro H. exists []. split; [apply advances_refl|exact H]. Qed.

Lemma after_raise {A} e w (Q : Result A -> list Event -> Prop) :
  Q (Raise e) [] -> after (raise e) w Q.
Proof. intro H. exists []. split; [apply advances_refl|exact H]. Qed.

Lemma after_emit ev w (Q : Result unit -> list Event -> Prop) :
  Q (Ok tt) (if is_call ev then [ev] else []) -> after (emit ev) w Q.
Proof. intro H. eexists. split; [apply advances_push|exact H]. Qed.

Lemma after_pure {A} (m : M A) r w (Q : Result A -> list Event -> Prop) :
  m w = (r, w) -> Q r [] -> after m w Q.
Proof. intros Hm H. exists []. rewrite Hm. split; [apply advances_refl|exact H]. Qed.
Arguments after_pure {A m r w Q} _ _.

Lemma after_bind {A B} (m : M A) (k : A -> M B) w (Q : Result B -> list Event -> Prop) :
  after m w (fun r cs =>
               match r with
               | Ok a => forall w1, advances w w1 cs ->
                                    after (k a) w1 (fun r' cs' => Q r' (cs ++ cs')%list)
               | Raise e => Q (Raise e) cs
               end) ->
  after (bind m k) w Q.
Proof.
  intros [cs [Hadv H]]. unfold after, bind.
  destruct (m w) as [[a|e] w1]; cbn [fst snd] in *.
  - destruct (H w1 Hadv) as [cs' [Hadv' H']].
    exists (cs ++ cs')%list. split; [exact (advances_trans Hadv Hadv')|exact H'].
  - exists cs. split; assumption.
Qed.

Lemma after_try_except {A} (body : M A) (caught : Exn -> bool) (handler : Exn -> M A) w
    (Q : Result A -> list Event -> Prop) :
  after body w (fun r cs =>
                  match r with
                  | Ok a => Q (Ok a) cs
                  | Raise e =>
                      if caught e
                      then forall w1, advances w w1 cs ->
                                      after (handler e) w1 (fun r' cs' => Q r' (cs ++ cs')%list)
                      else Q (Raise e) cs
                  end) ->
  after (try_except body caught handler) w Q.
Proof.
  intros [cs [Hadv H]]. unfold after, try_except.
  destruct (body w) as [[a|e] w1]; cbn [fst snd] in *.
  - exists cs. split; assumption.
  - destruct (caught e).
    + destruct (H w1 Hadv) as [cs' [Hadv' H']].
      exists (cs ++ cs')%list. split; [exact (advances_trans Hadv Hadv')|exact H'].
    + exists cs. split; assumption.
Qed.

Lemma after_weaken {A} (m : M A) w (Q Q' : Result A -> list Event -> Prop) :
  after m w Q -> (forall r cs, Q r cs -> Q' r cs) -> after m w Q'.
Proof. intros [cs [Hadv H]] HQ. exists cs. split; [exact Hadv|auto]. Qed.

(** *** Plans and what was submitted *)

Lemma with_retries_app {A} (d1 d2 : list A) f1 f2 :
  length f1 = length d1 ->
  with_retries (d1 ++ d2) (f1 ++ f2) = (with_retries d1 f1 ++ with_retries d2 f2)%list.
Proof.
  revert f1. induction d1 as [|x d1 IH]; intros [|b f1] H; try discriminate; [reflexivity|].
  cbn [app with_retries]. rewrite IH by (simpl in H; lia).
  now rewrite app_assoc.
Qed.

Lemma submits_nil {A} (c : Prop) : submits (@nil A) [] c.
Proof. exists [], [], []. auto. Qed.

Lemma submits_nothing {A} (plan : list A) (c : Prop) : ~ c -> submits plan [] c.
Proof. intro H. exists [], plan, []. repeat split; auto. intro. contradiction. Qed.

Lemma submits_once {A} (x : A) (c : Prop) : submits [x] [x] c.
Proof. exists [x], [], [false]. auto. Qed.

Lemma submits_twice {A} (x : A) (c : Prop) : submits [x] [x; x] c.
Proof. exists [x], [], [true]. auto. Qed.

Lemma submits_app {A} (p1 s1 p2 s2 : list A) (c : Prop) :
  submits p1 s1 True -> submits p2 s2 c -> submits (p1 ++ p2) (s1 ++ s2) c.
Proof.
  intros [d1 [r1 [f1 [-> [Hf1 [-> Hc1]]]]]] [d2 [r2 [f2 [-> [Hf2 [-> Hc2]]]]]].
  rewrite (Hc1 I), app_nil_r.
  exists (d1 ++ d2)%list, r2, (f1 ++ f2)%list.
  split; [now rewrite app_assoc|]. split; [now rewrite !length_app, Hf1, Hf2|].
  split; [now rewrite with_retries_app|exact Hc2].
Qed.

Lemma submits_cut {A} (p1 s1 p2 : list A) (c1 c : Prop) :
  submits p1 s1 c1 -> ~ c -> submits (p1 ++ p2) s1 c.
Proof.
  intros [d1 [r1 [f1 [-> [Hf1 [-> _]]]]]] Hc.
  exists d1, (r1 ++ p2)%list, f1. split; [now rewrite app_assoc|].
  repeat split; auto. intro. contradiction.
Qed.


Lemma raise_on_error_pure data : exists r, forall w, raise_on_error data w = (r, w).
Proof.
  unfold raise_on_error, bind, lift, raise, ret.
  destruct (contains "error" data) as [[|]|e]; try (eexists; intro; reflexivity).
  destruct (getitem data "error") as [err|e]; try (eexists; intro; reflexivity).
  destruct (getitem err "error_code") as [code|e]; try (eexists; intro; reflexivity).
  destruct (get err "error_msg" (JStr "")) as [msg|e]; eexists; intro; reflexivity.
Qed.

Lemma playlist_id_of_pure resp : exists r, forall w, playlist_id_of resp w = (r, w).
Proof.
  unfold playlist_id_of, bind, lift, ret.
  destruct (get resp "id" JNone) as [a|e]; try (eexists; intro; reflexivity).
  destruct (truthy a); eexists; intro; reflexivity.
Qed.

Section Any.

Variable E : Env.
Variables (svc : Service) (uid : Z) (ua tok : string).
Variables (title : string) (ids : list string) (shown_total : string).

Let ready (w : World) : Prop := credentials svc (config_file w) = Ok (ua, tok).

Lemma ready_after w w1 cs : ready w -> advances w w1 cs -> ready w1.
Proof. unfold ready. intros H [Hc _]. now rewrite Hc. Qed.
Arguments ready_after {w w1 cs} _ _.

Lemma add_to_playlist_any pid batch w :
  ready w ->
  exists r, add_to_playlist E svc uid pid batch w
            = (r, push w (AddToPlaylist ua tok uid pid batch)).
Proof.
  intro Hr. unfold add_to_playlist.
  rewrite (bind_ok _ (get_credentials_ok _ _ Hr)).
  unfold bind, request_addToPlaylist.
  destruct (addToPlaylist E (count_add (trace w))) as [data|e]; [|eexists; reflexivity].
  destruct (raise_on_error_pure data) as [r Hpure]. rewrite Hpure.
  exists r. now destruct r as [[]|e].
Qed.

Lemma after_add_to_playlist pid batch w (Q : Result unit -> list Event -> Prop) :
  ready w ->
  (forall r, Q r [AddToPlaylist ua tok uid pid batch]) ->
  after (add_to_playlist E svc uid pid batch) w Q.
Proof.
  intros Hr HQ. destruct (add_to_playlist_any pid batch Hr) as [r Hrun].
  eexists. rewrite Hrun. split; [|apply HQ].
  exact (advances_push w (AddToPlaylist ua tok uid pid batch)).
Qed.

(** One batch: the call is made once, or twice when the first answer was a
    [RuntimeError]; no playlist is created on the way. *)
Lemma after_add_batch pid batch shown total w :
  ready w ->
  after (add_batch E svc uid pid batch shown shown_total total) w
        (fun r cs => count_create cs = 0 /\
                     forall c : Prop, submits [(pid, batch)] (submitted_batches cs) c).
Proof.
  intro Hr. unfold add_batch.
  assert (Hready : forall w1 cs, advances w w1 cs -> ready w1)
    by (intros w1 cs H; exact (ready_after Hr H)).
  apply after_bind, after_try_except, after_bind.
  apply after_add_to_playlist; [exact Hr|]. intros [[]|e].
  - intros w1 Hw1. apply after_bind, after_emit. intros w2 Hw2. apply after_ret.
    intros w3 Hw3. apply after_bind, after_emit. intros w4 Hw4. apply after_ret.
    split; [reflexivity|]. intro c. apply submits_once.
  - destruct (is_RuntimeError e); [|split; [reflexivity|intro c; apply submits_once]].
    intros w1 Hw1. apply after_try_except, after_bind, after_emit.
    intros w2 Hw2. apply after_bind, after_add_to_playlist.
    { exact (ready_after (Hready _ _ Hw1) Hw2). }
    intros [[]|e2].
    + intros w3 Hw3. apply after_bind, after_emit. intros w4 Hw4. apply after_ret.
      intros w5 Hw5. apply after_bind, after_emit. intros w6 Hw6. apply after_ret.
      split; [reflexivity|]. intro c. apply submits_twice.
    + destruct (is_RuntimeError e2).
      * intros w3 Hw3. apply after_bind, after_emit. intros w4 Hw4. apply after_ret.
        intros w5 Hw5. apply after_bind, after_emit. intros w6 Hw6. apply after_ret.
        split; [reflexivity|]. intro c. apply submits_twice.
      * split; [reflexivity|]. intro c. apply submits_twice.
Qed.

Lemma after_add_batches pid xs shown starts : forall total w,
  ready w ->
  after (add_batches E svc uid pid xs starts shown shown_total total) w
        (fun r cs => count_create cs = 0 /\
                     submits (map (fun i => (pid, slice xs i (i + BATCH_SIZE))) starts)
                             (submitted_batches cs) (returned r)).
Proof.
  unfold add_batches.
  induction starts as [|i rest IH]; intros total w Hr; cbn [for_ map].
  - apply after_ret. split; [reflexivity|apply submits_nil].
  - apply after_bind. eapply after_weaken; [apply after_add_batch; exact Hr|].
    intros [total'|e] cs [Hcount Hsub].
    + intros w1 Hw1. eapply after_weaken; [apply IH; exact (ready_after Hr Hw1)|].
      intros r' cs' [Hcount' Hsub']. rewrite count_create_app, submitted_batches_app.
      split; [lia|]. exact (@submits_app _ [_] _ (map _ rest) _ _ (Hsub True) Hsub').
    + split; [exact Hcount|].
      exact (@submits_cut _ [_] _ (map _ rest) True _ (Hsub True) (fun H => H)).
Qed.

(** What [create_playlist] and the reading of the playlist id do with the
    answer of the API. *)
Lemma create_playlist_any t w :
  ready w ->
  exists r,
    create_playlist E svc uid t w = (r, push w (CreatePlaylist ua tok uid t)) /\
    match playlist_of_reply (createPlaylist E (count_create (trace w))) with
    | Some pid =>
        truthy pid = true /\
        exists resp, r = Ok resp /\ forall w', playlist_id_of resp w' = (Ok pid, w')
    | None =>
        match r with
        | Raise _ => True
        | Ok resp =>
            exists r2, (forall w', playlist_id_of resp w' = (r2, w')) /\
                       match r2 with Ok pid => truthy pid = false | Raise _ => True end
        end
    end.
Proof.
  intro Hr.
  destruct (playlist_of_reply (createPlaylist E (count_create (trace w)))) as [pid|] eqn:Hp.
  - destruct (create_playlist_gives E svc uid t w Hr Hp) as [Ht [resp [Hrun Hid]]].
    exists (Ok resp). split; [exact Hrun|]. split; [exact Ht|]. now exists resp.
  - unfold create_playlist. rewrite (bind_ok _ (get_credentials_ok _ _ Hr)).
    unfold bind at 1, request_createPlaylist. unfold playlist_of_reply in Hp.
    destruct (createPlaylist E (count_create (trace w))) as [data|e];
      [|exists (Raise e); split; [reflexivity|exact I]].
    unfold bind, raise_on_error, bind, lift, raise, ret.
    destruct (contains "error" data) as [[|]|e].
    + destruct (getitem data "error") as [err|e]; [|eexists; split; [reflexivity|exact I]].
      destruct (getitem err "error_code") as [code|e];
        [|eexists; split; [reflexivity|exact I]].
      destruct (get err "error_msg" (JStr "")) as [msg|e];
        eexists; (split; [reflexivity|exact I]).
    + destruct (getitem data "response") as [resp|e];
        [|eexists; split; [reflexivity|exact I]].
      exists (Ok resp). split; [reflexivity|].
      unfold playlist_id_of, bind, lift, ret.
      destruct (get resp "id" JNone) as [a|e] eqn:Ha.
      * destruct (get resp "playlist_id" JNone) as [b|e] eqn:Hb.
        -- destruct (truthy a) eqn:Hta; [discriminate|].
           destruct (truthy b) eqn:Htb; [discriminate|].
           exists (Ok b). split; [reflexivity|exact Htb].
        -- destruct resp; discriminate.
      * eexists. split; [reflexivity|exact I].
    + eexists. split; [reflexivity|exact I].
Qed.

Lemma chunk_slices {X} (g : list string -> X) part :
  map (fun j => g (slice (slice ids (part * PLAYLIST_MAX) (part * PLAYLIST_MAX + PLAYLIST_MAX))
                         j (j + BATCH_SIZE)))
      (range 0 (length (slice ids (part * PLAYLIST_MAX) (part * PLAYLIST_MAX + PLAYLIST_MAX)))
             BATCH_SIZE)
  = map (fun i => g (slice ids i (i + BATCH_SIZE)))
        (range (part * PLAYLIST_MAX)
               (Nat.min (length ids) (part * PLAYLIST_MAX + PLAYLIST_MAX)) BATCH_SIZE).
Proof.
  unfold PLAYLIST_MAX, BATCH_SIZE.
  rewrite range_shift, map_map, length_slice.
  replace (part * 1000 + 1000 - part * 1000) with 1000 by lia.
  apply map_ext_in. intros j Hj. apply range_In in Hj; [|lia].
  destruct Hj as [k [-> Hk]]. f_equal. apply slice_slice. lia.
Qed.

Lemma is_created_spec k :
  match playlist_of_reply (createPlaylist E k) with
  | Some pid => is_created E k = true /\ playlist_at E k = pid
  | None => is_created E k = false
  end.
Proof.
  unfold is_created, playlist_at.
  now destruct (playlist_of_reply (createPlaylist E k)).
Qed.

(** One further playlist: when [overflow_part] returns, it has made one
    createPlaylist call; the batches of the chunk are submitted if that
    call gave a playlist, and nothing is submitted if it did not. *)
Lemma after_overflow_part part counters w :
  ready w ->
  after (overflow_part E svc uid title ids shown_total part counters) w
        (fun r cs => (returned r -> count_create cs = 1) /\
                     submits (part_batches E ids part (count_create (trace w)))
                             (submitted_batches cs) (returned r)).
Proof.
  intro Hr. destruct counters as [total np]. unfold overflow_part.
  set (t := title ++ " (" ++ str_of_nat (part + 1) ++ ")").
  apply after_bind, after_emit. intros w1 Hw1.
  assert (Hr1 : ready w1) by exact (ready_after Hr Hw1).
  destruct (create_playlist_any t Hr1) as [r [Hrun Hspec]].
  rewrite (advances_count_create Hw1), Nat.add_0_r in Hspec.
  pose proof (is_created_spec (count_create (trace w))) as Hcreated.
  unfold part_batches.
  apply after_bind. eexists. rewrite Hrun. cbn [fst snd].
  split; [exact (advances_push w1 (CreatePlaylist ua tok uid t))|].
  cbn [is_call is_create is_add orb].
  destruct (playlist_of_reply (createPlaylist E (count_create (trace w)))) as [pid|].
  - destruct Hcreated as [-> ->]. destruct Hspec as [Htruthy [resp [-> Hid]]].
    intros w2 Hw2. apply after_bind, (after_pure (Hid w2)). rewrite Htruthy. cbn [negb].
    intros w3 Hw3. apply after_bind.
    eapply after_weaken;
      [apply after_add_batches; exact (ready_after (ready_after Hr1 Hw2) Hw3)|].
    intros [total'|e] cs [Hcount Hsub]; rewrite (chunk_slices (pair pid)) in Hsub.
    + intros w4 Hw4. apply after_ret. rewrite !app_nil_r, !submitted_batches_app.
      split; [intros _; rewrite !count_create_app, Hcount; reflexivity|exact Hsub].
    + rewrite !submitted_batches_app. split; [intros []|exact Hsub].
  - rewrite Hcreated. destruct r as [resp|e].
    + destruct Hspec as [r2 [Hid Hr2]].
      intros w2 Hw2. apply after_bind, (after_pure (Hid w2)).
      destruct r2 as [pid|e].
      * rewrite Hr2. cbn [negb]. intros w3 Hw3. apply after_ret.
        split; [reflexivity|apply submits_nil].
      * split; [intros []|apply submits_nil].
    + split; [intros []|apply submits_nil].
Qed.

Lemma after_overflow_loop k0 m : forall a counters w,
  ready w -> count_create (trace w) = k0 + a ->
  after (for_ (seq a m) (overflow_part E svc uid title ids shown_total) counters) w
        (fun r cs => submits (flat_map (fun part => part_batches E ids part (k0 + part))
                                       (seq a m))
                             (submitted_batches cs) (returned r)).
Proof.
  induction m as [|m IH]; intros a counters w Hr Hk; cbn [seq for_ flat_map].
  - apply after_ret. apply submits_nil.
  - apply after_bind. eapply after_weaken; [apply after_overflow_part; exact Hr|].
    rewrite Hk. intros [counters'|e] cs [Hcount Hsub].
    + intros w1 Hw1. eapply after_weaken; [apply (IH (S a)); [exact (ready_after Hr Hw1)|]|].
      * rewrite (advances_count_create Hw1), (Hcount I). lia.
      * intros r' cs' Hsub'. rewrite submitted_batches_app.
        exact (submits_app Hsub Hsub').
    + exact (submits_cut _ Hsub (fun H => H)).
Qed.

End Any.

Lemma batches_by_chunk_unfold E ids k0 :
  1 <= length ids -> is_created E k0 = true ->
  batches_by_chunk E ids k0 =
  ([(playlist_at E k0, slice ids 0 BATCH_SIZE)]
   ++ map (fun i => (playlist_at E k0, slice ids i (i + BATCH_SIZE)))
          (range BATCH_SIZE (Nat.min PLAYLIST_MAX (length ids)) BATCH_SIZE)
   ++ flat_map (fun part => part_batches E ids part (k0 + part))
               (seq 1 ((length ids + PLAYLIST_MAX - 1) / PLAYLIST_MAX - 1)))%list.
Proof.
  intros Hn Hc. unfold batches_by_chunk, ceil_div, PLAYLIST_MAX, BATCH_SIZE. rewrite Hc.
  replace ((length ids + (1000 - 1)) / 1000) with (S ((length ids + 1000 - 1) / 1000 - 1)) by lia.
  rewrite <- cons_seq. cbn [flat_map].
  unfold part_batches at 1, PLAYLIST_MAX, BATCH_SIZE.
  rewrite Nat.add_0_r, Hc, Nat.mul_0_l, Nat.add_0_l, (Nat.min_comm (length ids)).
  rewrite (range_step (a := 0)) by lia. reflexivity.
Qed.

(** The transfer, whatever the API answers: what is submitted is an
    initial part of the planned batches, and all of them when
    [main_transfer] returns. *)
Lemma after_main_transfer E s all_tracks w :
  500 <= length all_tracks ->
  after (main_transfer E s all_tracks) w
        (fun r cs => submits (batches_by_chunk E (map composite_id (rev all_tracks))
                                               (count_create (trace w)))
                             (submitted_batches cs) (returned r)).
Proof.
  intro Hlen. unfold main_transfer.
  replace (length all_tracks <? MIN_TRACKS)%nat with false
    by (symmetry; apply Nat.ltb_ge; exact Hlen).
  set (ids := map composite_id (rev all_tracks)).
  assert (Hids : length ids = length all_tracks)
    by (unfold ids; now rewrite length_map, length_rev).
  apply after_bind, after_emit. intros w1 Hw1.
  apply after_bind, after_emit. intros w2 Hw2.
  pose proof (advances_trans Hw1 Hw2) as Hw12. cbn [is_call is_create is_add orb app] in Hw12.
  destruct (credentials (service s) (config_file w)) as [[ua tok]|e] eqn:Hc.
  2:{ apply after_bind. eapply after_pure.
      - unfold create_playlist. apply bind_raise.
        rewrite get_credentials_run, (proj1 Hw12), Hc. reflexivity.
      - apply submits_nothing. intros []. }
  assert (Hr2 : credentials (service s) (config_file w2) = Ok (ua, tok))
    by (rewrite (proj1 Hw12); exact Hc).
  destruct (@create_playlist_any E (service s) (user_id s) ua tok (playlist_title s) w2 Hr2)
    as [r [Hrun Hspec]].
  rewrite (advances_count_create Hw12), Nat.add_0_r in Hspec.
  pose proof (@is_created_spec E (count_create (trace w))) as Hcreated.
  apply after_bind. eexists. rewrite Hrun. cbn [fst snd].
  split; [exact (advances_push w2 (CreatePlaylist ua tok (user_id s) (playlist_title s)))|].
  cbn [is_call is_create is_add orb].
  destruct (playlist_of_reply (createPlaylist E (count_create (trace w)))) as [pid|].
  - destruct Hcreated as [Hcreated Hpid]. destruct Hspec as [Htruthy [resp [-> Hid]]].
    rewrite batches_by_chunk_unfold, Hpid by (exact Hcreated || lia).
    intros w3 Hw3. apply after_bind, (after_pure (Hid w3)). rewrite Htruthy. cbn [negb].
    intros w4 Hw4.
    assert (Hr4 : credentials (service s) (config_file w4) = Ok (ua, tok))
      by (rewrite (proj1 Hw4), (proj1 Hw3); exact Hr2).
    apply after_bind. eapply after_add_to_playlist; [exact Hr4|]. intros [[]|e].
    + intros w5 Hw5. apply after_bind, after_emit. intros w6 Hw6.
      apply after_bind, after_emit. intros w7 Hw7.
      assert (Hr7 : credentials (service s) (config_file w7) = Ok (ua, tok))
        by (rewrite (proj1 Hw7), (proj1 Hw6), (proj1 Hw5); exact Hr4).
      apply after_bind. eapply after_weaken; [eapply after_add_batches; exact Hr7|].
      intros [total|e] cs [Hcount Hsub].
      * intros w8 Hw8. rewrite range_from_1. apply after_bind.
        eapply after_weaken;
          [eapply after_overflow_loop with (k0 := count_create (trace w))|].
        -- rewrite (proj1 Hw8). exact Hr7.
        -- rewrite (advances_count_create Hw8), (advances_count_create Hw7),
             (advances_count_create Hw6), (advances_count_create Hw5),
             (advances_count_create Hw4), (advances_count_create Hw3),
             (advances_count_create Hw12), Hcount.
           unfold count_create. cbn [filter is_create length]. lia.
        -- intros [[t np]|e] cs' Hsub'.
           ++ intros w9 Hw9. apply after_emit.
              rewrite !submitted_batches_app. cbn [submitted_batches flat_map app].
              rewrite !app_nil_r.
              exact (submits_app (submits_once _ True) (submits_app Hsub Hsub')).
           ++ rewrite !submitted_batches_app. cbn [submitted_batches flat_map app].
              exact (submits_app (submits_once _ True) (submits_app Hsub Hsub')).
      * rewrite !submitted_batches_app. cbn [submitted_batches flat_map app].
        exact (submits_app (submits_once _ True) (submits_cut _ Hsub (fun H => H))).
    + rewrite !submitted_batches_app. cbn [submitted_batches flat_map app].
      exact (submits_cut _ (submits_once _ True) (fun H => H)).
  - unfold batches_by_chunk. rewrite Hcreated. destruct r as [resp|e].
    + destruct Hspec as [r2 [Hid Hr2']].
      intros w3 Hw3. apply after_bind, (after_pure (Hid w3)).
      destruct r2 as [pid|e].
      * rewrite Hr2'. cbn [negb]. intros w4 Hw4. apply after_emit. apply submits_nil.
      * apply submits_nil.
    + apply submits_nil.
Qed.






(** ** Further properties of the script *)

(** *** The requests are paced *)

Lemma paced_app hot evs evs' :
  paced hot (evs ++ evs') =
  match paced hot evs with Some h => paced h evs' | None => None end.
Proof.
  revert hot. induction evs as [|ev evs IH]; intro hot; [reflexivity|].
  destruct ev; cbn [app paced]; try apply IH. now destruct hot.
Qed.

Lemma paced_no_add hot evs :
  forallb (fun ev => negb (is_add ev)) evs = true ->
  exists hot', paced hot evs = Some hot' /\ (hot = false -> hot' = false).
Proof.
  revert hot. induction evs as [|ev evs IH]; intros hot H.
  - exists hot. auto.
  - cbn [forallb] in H. apply andb_true_iff in H. destruct H as [Hev H].
    destruct ev; try discriminate; cbn [paced]; try (apply IH; exact H).
    destruct (IH (if (500 <=? milliseconds)%nat then false else hot) H) as [h [Hp Hh]].
    exists h. split; [exact Hp|]. intros ->. apply Hh. now destruct (500 <=? milliseconds)%nat.
Qed.

Lemma kp_ret {A} (a : A) w hot (Q : Result A -> bool -> Prop) :
  Q (Ok a) hot -> keeps_pace (ret a) w hot Q.
Proof. intro H. exists [], hot. cbn. now rewrite app_nil_r. Qed.

Lemma kp_emit ev w hot (Q : Result unit -> bool -> Prop) :
  (forall h, paced hot [ev] = Some h -> Q (Ok tt) h) ->
  paced hot [ev] <> None ->
  keeps_pace (emit ev) w hot Q.
Proof.
  intros H Hp. destruct (paced hot [ev]) as [h|] eqn:E; [|contradiction].
  exists [ev], h. cbn [emit fst snd trace]. auto.
Qed.

Lemma kp_bind {A B} (m : M A) (k : A -> M B) w hot (Q : Result B -> bool -> Prop) :
  keeps_pace m w hot (fun r h => match r with
                                 | Ok a => forall w1, keeps_pace (k a) w1 h Q
                                 | Raise e => Q (Raise e) h
                                 end) ->
  keeps_pace (bind m k) w hot Q.
Proof.
  intros [evs [h [Ht [Hp H]]]]. unfold keeps_pace, bind.
  destruct (m w) as [[a|e] w1]; cbn [fst snd] in *.
  - destruct (H w1) as [evs' [h' [Ht' [Hp' H']]]].
    exists (evs ++ evs')%list, h'. rewrite Ht', Ht, app_assoc, paced_app, Hp. auto.
  - exists evs, h. auto.
Qed.

Lemma kp_try_except {A} (body : M A) (caught : Exn -> bool) (handler : Exn -> M A) w hot
    (Q : Result A -> bool -> Prop) :
  keeps_pace body w hot (fun r h => match r with
                                    | Ok a => Q (Ok a) h
                                    | Raise e =>
                                        if caught e
                                        then forall w1, keeps_pace (handler e) w1 h Q
                                        else Q (Raise e) h
                                    end) ->
  keeps_pace (try_except body caught handler) w hot Q.
Proof.
  intros [evs [h [Ht [Hp H]]]]. unfold keeps_pace, try_except.
  destruct (body w) as [[a|e] w1]; cbn [fst snd] in *.
  - exists evs, h. auto.
  - destruct (caught e).
    + destruct (H w1) as [evs' [h' [Ht' [Hp' H']]]].
      exists (evs ++ evs')%list, h'. rewrite Ht', Ht, app_assoc, paced_app, Hp. auto.
    + exists evs, h. auto.
Qed.

Lemma kp_weaken {A} (m : M A) w hot (Q Q' : Result A -> bool -> Prop) :
  keeps_pace m w hot Q -> (forall r h, Q r h -> Q' r h) -> keeps_pace m w hot Q'.
Proof. intros [evs [h [Ht [Hp H]]]] HQ. exists evs, h. auto. Qed.

(** A computation that sends no addToPlaylist request keeps the pace,
    and leaves a cold state cold. *)
Lemma kp_only {A} (m : M A) w (Q : Result A -> bool -> Prop) (P : Event -> bool) :
  only P m -> (forall ev, P ev = true -> is_add ev = false) ->
  (forall r, Q r false) ->
  keeps_pace m w false Q.
Proof.
  intros Hm HP HQ. destruct (Hm w) as [evs [Ht Hall]].
  destruct (@paced_no_add false evs) as [h [Hp Hh]].
  { rewrite forallb_forall in *. intros ev Hin. now rewrite (HP ev (Hall ev Hin)). }
  exists evs, h. rewrite (Hh eq_refl) in *. auto.
Qed.

Section Pace.

Variable E : Env.

Lemma kp_add_to_playlist svc uid pid batch w (Q : Result unit -> bool -> Prop) :
  (forall r h, Q r h) -> keeps_pace (add_to_playlist E svc uid pid batch) w false Q.
Proof.
  intro HQ. unfold keeps_pace, add_to_playlist, bind.
  rewrite get_credentials_run.
  destruct (credentials svc (config_file w)) as [[ua tok]|e].
  - unfold request_addToPlaylist.
    destruct (addToPlaylist E (count_add (trace w))) as [data|e].
    + destruct (raise_on_error_pure data) as [r Hpure]. rewrite Hpure.
      exists [AddToPlaylist ua tok uid pid batch], true. destruct r as [[]|e]; cbn; auto.
    + exists [AddToPlaylist ua tok uid pid batch], true. cbn. auto.
  - exists [], false. cbn. rewrite app_nil_r. auto.
Qed.

Lemma kp_create_playlist svc uid title w hot (Q : Result Json -> bool -> Prop) :
  (forall r, Q r hot) -> keeps_pace (create_playlist E svc uid title) w hot Q.
Proof.
  intro HQ. unfold keeps_pace, create_playlist, bind.
  rewrite get_credentials_run.
  destruct (credentials svc (config_file w)) as [[ua tok]|e].
  - unfold request_createPlaylist.
    destruct (createPlaylist E (count_create (trace w))) as [data|e].
    + destruct (raise_on_error_pure data) as [r Hpure]. rewrite Hpure.
      exists [CreatePlaylist ua tok uid title], hot.
      destruct r as [[]|e]; cbn; auto.
    + exists [CreatePlaylist ua tok uid title], hot. cbn. auto.
  - exists [], hot. cbn. rewrite app_nil_r. auto.
Qed.

Lemma kp_playlist_id_of resp w hot (Q : Result Json -> bool -> Prop) :
  (forall r, Q r hot) -> keeps_pace (playlist_id_of resp) w hot Q.
Proof.
  intro HQ. destruct (playlist_id_of_pure resp) as [r Hpure].
  exists [], hot. rewrite Hpure. cbn. rewrite app_nil_r. auto.
Qed.

Ltac kp_print := apply kp_emit; [intros ? [= <-]|discriminate].

(** One batch, from a cold state: the retry waits two seconds before it
    sends the batch again, and the batch ends with half a second of sleep. *)
Lemma kp_add_batch svc uid pid batch shown n total w :
  keeps_pace (add_batch E svc uid pid batch shown n total) w false cold_if_returned.
Proof.
  unfold add_batch.
  assert (Hend : forall (a : nat) h w1,
             keeps_pace (sleep 500 ;; ret a) w1 h cold_if_returned).
  { intros a h w1. apply kp_bind, kp_emit; [|destruct h; discriminate].
    intros h' Hh'. cbn in Hh'. injection Hh' as <-. intro w2. now apply kp_ret. }
  apply kp_bind, kp_try_except, kp_bind, kp_add_to_playlist. intros [[]|e] h.
  - intro w1. apply kp_bind. kp_print. intro w2. apply kp_ret. apply Hend.
  - destruct (is_RuntimeError e); [|exact I].
    intro w1. apply kp_try_except, kp_bind, kp_emit; [|destruct h; discriminate].
    intros h' Hh'. cbn in Hh'. injection Hh' as <-. intro w2.
    apply kp_bind, kp_add_to_playlist. intros [[]|e2] h2.
    + intro w3. apply kp_bind. kp_print. intro w4. apply kp_ret. apply Hend.
    + destruct (is_RuntimeError e2); [|exact I].
      intro w3. apply kp_bind. kp_print. intro w4. apply kp_ret. apply Hend.
Qed.

Lemma kp_add_batches svc uid pid xs shown n starts : forall total w,
  keeps_pace (add_batches E svc uid pid xs starts shown n total) w false cold_if_returned.
Proof.
  unfold add_batches. induction starts as [|i rest IH]; intros total w; cbn [for_].
  - now apply kp_ret.
  - apply kp_bind. eapply kp_weaken; [apply kp_add_batch|].
    intros [total'|e] h H; [|exact I]. cbn in H. subst h. intro w1. apply IH.
Qed.

Lemma kp_overflow_part svc uid title ids n part counters w :
  keeps_pace (overflow_part E svc uid title ids n part counters) w false cold_if_returned.
Proof.
  destruct counters as [total np]. unfold overflow_part.
  apply kp_bind. kp_print. intro w1.
  apply kp_bind, kp_create_playlist. intros [resp|e]; [|exact I]. intro w2.
  apply kp_bind, kp_playlist_id_of. intros [pid|e]; [|exact I]. intro w3.
  destruct (negb (truthy pid)); [now apply kp_ret|].
  apply kp_bind. eapply kp_weaken; [apply kp_add_batches|].
  intros [total'|e] h H; [|exact I]. cbn in H. subst h. intro w4. now apply kp_ret.
Qed.

Lemma kp_main_transfer s all_tracks w :
  keeps_pace (main_transfer E s all_tracks) w false (fun _ _ => True).
Proof.
  unfold main_transfer. destruct (length all_tracks <? MIN_TRACKS)%nat.
  - apply kp_bind. kp_print. intro w1. kp_print. exact I.
  - apply kp_bind. kp_print. intro w1. apply kp_bind. kp_print. intro w2.
    apply kp_bind, kp_create_playlist. intros [resp|e]; [|exact I]. intro w3.
    apply kp_bind, kp_playlist_id_of. intros [pid|e]; [|exact I]. intro w4.
    destruct (negb (truthy pid)); [kp_print; exact I|].
    apply kp_bind, kp_add_to_playlist. intros [[]|e] h; [|exact I]. intro w5.
    apply kp_bind, kp_emit; [|destruct h; discriminate].
    intros h' [= <-]. intro w6.
    apply kp_bind, kp_emit; [|destruct h; discriminate].
    intros h' Hh'. cbn in Hh'. injection Hh' as <-. intro w7.
    apply kp_bind. eapply kp_weaken; [apply kp_add_batches|].
    intros [total|e] h1 H; [|exact I]. cbn in H. subst h1. intro w8.
    apply kp_bind.
    assert (Hloop : forall parts counters w',
               keeps_pace (for_ parts (overflow_part E (service s) (user_id s) (playlist_title s)
                                                     (map composite_id (rev all_tracks))
                                                     (str_of_nat (length all_tracks)))
                                counters) w' false cold_if_returned).
    { induction parts as [|part parts IH]; intros counters w'; cbn [for_].
      - now apply kp_ret.
      - apply kp_bind. eapply kp_weaken; [apply kp_overflow_part|].
        intros [c|e] h1 H; [|exact I]. cbn in H. subst h1. intro w1'. apply IH. }
    eapply kp_weaken; [apply Hloop|].
    intros [[total' np]|e] h1 H; [|exact I]. intro w9. kp_print. exact I.
Qed.

End Pace.

Lemma kp_main E w : keeps_pace (main E) w false (fun _ _ => True).
Proof.
  unfold main. apply kp_bind.
  eapply kp_only; [apply only_main_prepare| |].
  { intros ev H. unfold not_call, is_call in H.
    rewrite negb_true_iff, orb_false_iff in H. tauto. }
  intros [[s|]|e]; [|intro w1; now apply kp_ret|exact I].
  intro w1. apply kp_bind.
  eapply kp_only; [apply only_main_fetch| |].
  { intros ev H. apply is_fetching_not_call in H. unfold not_call, is_call in H.
    rewrite negb_true_iff, orb_false_iff in H. tauto. }
  intros [[all_tracks|]|e]; [|intro w2; now apply kp_ret|exact I].
  intro w2. apply kp_main_transfer.
Qed.

Lemma paced_hot_needs_sleep mid a2 tr2 :
  is_add a2 = true -> paced true (mid ++ a2 :: tr2) <> None ->
  exists ms, In (Sleep ms) mid /\ 500 <= ms.
Proof.
  intros Ha2. induction mid as [|ev mid IH]; intro H.
  - destruct a2; try discriminate. now elim H.
  - destruct ev; cbn [app paced] in H;
      try (destruct (IH H) as [ms [Hin Hms]]; exists ms; split; [now right|exact Hms]).
    + destruct (500 <=? milliseconds)%nat eqn:Hms.
      * exists milliseconds. split; [now left|now apply Nat.leb_le].
      * destruct (IH H) as [ms [Hin Hms']]. exists ms. split; [now right|exact Hms'].
    + now elim H.
Qed.

(** X1.  Between two addToPlaylist requests of a run there is always a sleep of
    half a second or more, whatever the API answers. *)
Theorem requests_are_paced E lines cfg tr1 a1 mid a2 tr2 :
  trace (snd (main E (initial_world lines cfg))) = (tr1 ++ a1 :: mid ++ a2 :: tr2)%list ->
  is_add a1 = true -> is_add a2 = true ->
  exists ms, In (Sleep ms) mid /\ 500 <= ms.
Proof.
  intros Htrace Ha1 Ha2.
  destruct (kp_main E (initial_world lines cfg)) as [evs [h [Ht [Hp _]]]].
  cbn [initial_world trace app] in Ht. rewrite Ht in Htrace. subst evs.
  rewrite paced_app in Hp. destruct (paced false tr1) as [h1|]; [|discriminate].
  destruct a1; try discriminate. cbn [paced] in Hp. destruct h1; [discriminate|].
  apply (paced_hot_needs_sleep mid a2 tr2 Ha2). now rewrite Hp.
Qed.


(** *** The enumeration comes first *)

Lemma only_main_transfer_events E s all_tracks :
  only is_transfer_event (main_transfer E s all_tracks).
Proof.
  unfold main_transfer, overflow_part, add_batches, add_batch, create_playlist,
    add_to_playlist, raise_on_error, playlist_id_of, _get_credentials,
    config_token, config_user_agent, section_get.
  only_auto.
Qed.

(** Either [main] reaches the transfer, after events that are no API
    calls, or it ends before, and its whole run holds no API call. *)
Lemma main_cases E w :
  (exists s all_tracks w2 evs,
     enumerated E w = Some (s, all_tracks, w2) /\
     trace w2 = (trace w ++ evs)%list /\ forallb not_call evs = true) \/
  (enumerated E w = None /\
   exists evs, trace (snd (main E w)) = (trace w ++ evs)%list /\ forallb not_call evs = true).
Proof.
  unfold enumerated, main, bind.
  destruct (main_prepare E w) as [r1 w1] eqn:H1.
  destruct (only_run (only_main_prepare E) H1) as [evs1 [Ht1 Hq1]].
  destruct r1 as [[s|]|e];
    [|right; split; [reflexivity|exists evs1; auto]..].
  destruct (main_fetch E s w1) as [r2 w2] eqn:H2.
  destruct (only_run (only_main_fetch E s) H2) as [evs2 [Ht2 Hq2]].
  assert (Hq : forallb not_call (evs1 ++ evs2) = true).
  { rewrite forallb_app, Hq1. cbn [andb].
    eapply forallb_weaken; [apply is_fetching_not_call|exact Hq2]. }
  assert (Ht : trace w2 = (trace w ++ evs1 ++ evs2)%list)
    by now rewrite Ht2, Ht1, app_assoc.
  destruct r2 as [[all_tracks|]|e].
  - left. exists s, all_tracks, w2, (evs1 ++ evs2)%list. auto.
  - right. split; [reflexivity|]. exists (evs1 ++ evs2)%list. auto.
  - right. split; [reflexivity|]. exists (evs1 ++ evs2)%list. auto.
Qed.

(** X2.  Every run of [main] is made of two parts: first events that are no
    API calls (console, configuration, enumeration), then events that are
    prints, sleeps and API calls only.  The enumeration is over before the
    first playlist is asked for, and nothing is read or enumerated once
    the transfer has begun. *)
Theorem enumeration_comes_first E lines cfg :
  exists before transfer,
    trace (snd (main E (initial_world lines cfg))) = (before ++ transfer)%list /\
    forallb not_call before = true /\
    forallb is_transfer_event transfer = true.
Proof.
  destruct (main_cases E (initial_world lines cfg))
    as [[s [all_tracks [w2 [evs [Henum [Ht Hq]]]]]]|[_ [evs [Ht Hq]]]].
  - rewrite (enumerated_main _ _ Henum).
    destruct (only_main_transfer_events E s all_tracks w2) as [evs' [Ht' Hq']].
    exists evs, evs'. rewrite Ht', Ht. auto.
  - exists evs, []. rewrite Ht, app_nil_r. auto.
Qed.

(** *** What a batch looks like *)

Lemma In_with_retries {A} (x : A) done : forall retried,
  In x (with_retries done retried) -> In x done.
Proof.
  induction done as [|y done IH]; intros [|b retried] H; try contradiction.
  cbn [with_retries] in H. apply in_app_or in H. destruct H as [H|H].
  - left. destruct b; cbn in H; tauto.
  - right. exact (IH _ H).
Qed.

Lemma playlist_of_reply_truthy reply pid :
  playlist_of_reply reply = Some pid -> truthy pid = true.
Proof.
  unfold playlist_of_reply. destruct reply as [data|e]; [|discriminate].
  destruct (contains "error" data) as [[|]|e]; try discriminate.
  destruct (getitem data "response") as [resp|e]; [|discriminate].
  destruct (get resp "id" JNone) as [a|e]; [|discriminate].
  destruct (get resp "playlist_id" JNone) as [b|e]; [|discriminate].
  destruct (truthy a) eqn:Ha; [now intros [= <-]|].
  destruct (truthy b) eqn:Hb; [now intros [= <-]|discriminate].
Qed.

Lemma In_batches_by_chunk E ids k0 pid batch :
  In (pid, batch) (batches_by_chunk E ids k0) ->
  truthy pid = true /\ 1 <= length batch <= 50.
Proof.
  unfold batches_by_chunk. destruct (is_created E k0); [|contradiction].
  intro H. apply in_flat_map in H. destruct H as [part [_ H]].
  unfold part_batches, is_created, playlist_at, PLAYLIST_MAX, BATCH_SIZE in H.
  destruct (playlist_of_reply (createPlaylist E (k0 + part))) as [p|] eqn:Hp;
    [|contradiction].
  apply in_map_iff in H. destruct H as [i [[= <- <-] Hi]].
  split; [exact (playlist_of_reply_truthy _ Hp)|].
  apply range_In in Hi; [|lia]. destruct Hi as [k [-> Hk]].
  rewrite length_slice. lia.
Qed.

(** X3.  Whatever the API answers, every batch a run submits holds between 1
    and 50 ids, and goes to a playlist id that is truthy: no empty request,
    none above [BATCH_SIZE], none for a playlist that was not created. *)
Theorem batches_are_well_formed E lines cfg pid batch :
  In (pid, batch) (submitted_batches (trace (snd (main E (initial_world lines cfg))))) ->
  truthy pid = true /\ 1 <= length batch <= 50.
Proof.
  destruct (main_cases E (initial_world lines cfg))
    as [[s [all_tracks [w2 [evs [Henum [Ht Hq]]]]]]|[_ [evs [Ht Hq]]]].
  - rewrite (enumerated_main _ _ Henum).
    cbn [initial_world trace app] in Ht.
    assert (Hcalls : calls (trace w2) = []).
    { rewrite Ht. clear Ht. unfold calls. induction evs as [|ev evs IH]; [reflexivity|].
      cbn [forallb] in Hq. apply andb_true_iff in Hq. destruct Hq as [Hev Hq].
      unfold not_call in Hev. apply negb_true_iff in Hev. cbn [filter]. rewrite Hev. auto. }
    destruct (Nat.ltb_spec (length all_tracks) MIN_TRACKS) as [Hlt|Hge].
    + unfold main_transfer. replace (length all_tracks <? MIN_TRACKS)%nat with true
        by (symmetry; now apply Nat.ltb_lt).
      cbn [bind print emit snd trace]. rewrite <- submitted_batches_calls, !calls_app, Hcalls.
      intros [].
    + destruct (@after_main_transfer E s all_tracks w2 Hge) as [cs [[_ Hadv] Hsub]].
      rewrite <- submitted_batches_calls, Hadv, Hcalls. cbn [app].
      destruct Hsub as [done [rest [retried [Hplan [_ [-> _]]]]]].
      intro H. apply In_with_retries in H.
      apply (@In_batches_by_chunk E (map composite_id (rev all_tracks))
                                  (count_create (trace w2))).
      rewrite Hplan. apply in_or_app. now left.
  - rewrite Ht. cbn [initial_world trace app]. destruct (no_calls _ Hq) as [_ ->].
    intros [].
Qed.

(** *** The report at the end *)

Lemma batch_total_range xs a b :
  batch_total xs (range a b 50) = length (slice xs a (a + (b - a + 49) / 50 * 50)).
Proof.
  rewrite <- concat_range_slices, length_concat, map_map. reflexivity.
Qed.

Lemma sum_of_chunks n m : forall a,
  list_sum (map (fun part => Nat.min 1000 (n - part * 1000)) (seq a m))
  = Nat.min n ((a + m) * 1000) - Nat.min n (a * 1000).
Proof.
  induction m as [|m IH]; intro a; cbn [seq map list_sum fold_right].
  - rewrite Nat.add_0_r. lia.
  - change (fold_right Nat.add 0 ?l) with (list_sum l). rewrite IH. lia.
Qed.

Lemma runs_then_ends {A B} (m : M A) (k : A -> M B) w a cs b ev :
  runs m w a cs ->
  (forall w1, advances w w1 cs -> exists w', k a w1 = (Ok b, push w' ev)) ->
  exists w', bind m k w = (Ok b, push w' ev).
Proof.
  intros [w1 [Hm Ha]] Hk. destruct (Hk w1 Ha) as [w' Hk'].
  exists w'. now rewrite (bind_ok _ Hm).
Qed.
Arguments runs_then_ends {A B m k w a cs b ev} _ _.

Section Report.

Variable E : Env.
Variables (svc : Service) (uid : Z) (ua tok : string).
Variables (title : string) (ids : list string) (shown_total : string).

Hypothesis creates_succeed : forall k, playlist_of_reply (createPlaylist E k) <> None.
Hypothesis adds_accepted : forall k, accepted (addToPlaylist E k) = true.

(** The loop over the further playlists, with the counters it returns. *)
Lemma runs_overflow_loop_counters k0 m : forall a total np w,
  credentials svc (config_file w) = Ok (ua, tok) ->
  1 <= a -> count_create (trace w) = k0 + a ->
  runs (for_ (seq a m) (overflow_part E svc uid title ids shown_total) (total, np)) w
       (total + list_sum (map (fun part => Nat.min 1000 (length ids - part * 1000)) (seq a m)),
        np + m)
       (flat_map (fun part => part_calls E ua tok uid title ids part (k0 + part)) (seq a m)).
Proof.
  induction m as [|m IH]; intros a total np w Hr Ha Hk; cbn [seq for_ flat_map map list_sum fold_right].
  - rewrite !Nat.add_0_r. apply runs_ret.
  - change (fold_right Nat.add 0 ?l) with (list_sum l).
    pose proof (@runs_overflow_part E svc uid ua tok title ids shown_total
                  creates_succeed adds_accepted a total np w Hr Ha) as Hpart.
    rewrite Hk in Hpart. unfold PLAYLIST_MAX, BATCH_SIZE in Hpart.
    rewrite batch_total_range, !length_slice in Hpart.
    replace (total + Nat.min (0 + (Nat.min (a * 1000 + 1000 - a * 1000)
                                           (length ids - a * 1000) - 0 + 49) / 50 * 50 - 0)
                             (Nat.min (a * 1000 + 1000 - a * 1000) (length ids - a * 1000) - 0))
      with (total + Nat.min 1000 (length ids - a * 1000)) in Hpart by lia.
    replace (np + S m) with (np + 1 + m) by lia. rewrite Nat.add_assoc.
    apply (runs_bind Hpart). intros w1 Hw1.
    apply IH; [exact (@ready_advances _ _ _ _ _ _ Hr Hw1)|lia|].
    rewrite (advances_count_create Hw1), count_create_part_calls. lia.
Qed.

End Report.

Lemma main_transfer_reports E s all_tracks ua tok w :
  500 <= length all_tracks ->
  credentials (service s) (config_file w) = Ok (ua, tok) ->
  (forall k, playlist_of_reply (createPlaylist E k) <> None) ->
  (forall k, accepted (addToPlaylist E k) = true) ->
  exists w',
    main_transfer E s all_tracks w =
    (Ok tt, push w' (Print (nl ++ "Готово! Перенесено " ++ str_of_nat (length all_tracks)
                            ++ " треков в " ++ str_of_nat (ceil_div (length all_tracks) 1000)
                            ++ " плейлист(ов)."))).
Proof.
  intros Hlen Hr Hcreate Hadd. unfold main_transfer.
  replace (length all_tracks <? MIN_TRACKS)%nat with false
    by (symmetry; apply Nat.ltb_ge; exact Hlen).
  set (ids := map composite_id (rev all_tracks)).
  assert (Hids : length ids = length all_tracks)
    by (unfold ids; now rewrite length_map, length_rev).
  rewrite range_from_1.
  apply (runs_then_ends (runs_emit (Print _) w)). intros w1 Hw1.
  apply (runs_then_ends (runs_emit (Print _) w1)). intros w2 Hw2.
  pose proof (advances_trans Hw1 Hw2) as Hw12. cbn [is_call is_create is_add orb app] in Hw12.
  assert (Hr2 : credentials (service s) (config_file w2) = Ok (ua, tok))
    by exact (@ready_advances _ _ _ _ _ _ Hr Hw12).
  edestruct runs_create_playlist as [resp [Hc [Htruthy Hid]]]; [exact Hcreate|exact Hr2|].
  apply (runs_then_ends Hc). intros w3 Hw3.
  rewrite (bind_ok _ (Hid w3)), Htruthy. cbn [negb].
  assert (Hr3 : credentials (service s) (config_file w3) = Ok (ua, tok))
    by exact (@ready_advances _ _ _ _ _ _ Hr2 Hw3).
  eapply runs_then_ends; [eapply runs_add_to_playlist; [exact Hadd|exact Hr3]|]. intros w4 Hw4.
  apply (runs_then_ends (runs_emit (Print _) w4)). intros w5 Hw5.
  apply (runs_then_ends (runs_emit (Sleep _) w5)). intros w6 Hw6.
  pose proof (advances_trans (advances_trans Hw4 Hw5) Hw6) as Hw46.
  assert (Hr6 : credentials (service s) (config_file w6) = Ok (ua, tok))
    by exact (@ready_advances _ _ _ _ _ _ Hr3 Hw46).
  eapply runs_then_ends; [eapply runs_add_batches; [exact Hadd|exact Hr6]|]. intros w7 Hw7.
  assert (Hr7 : credentials (service s) (config_file w7) = Ok (ua, tok))
    by exact (@ready_advances _ _ _ _ _ _ Hr6 Hw7).
  eapply runs_then_ends.
  - eapply runs_overflow_loop_counters with (k0 := count_create (trace w));
      [exact Hcreate|exact Hadd|exact Hr7|lia|].
    rewrite (advances_count_create Hw7), (advances_count_create Hw46),
      (advances_count_create Hw3), (advances_count_create Hw12).
    cbn [is_call is_create is_add orb app]. rewrite count_create_adds.
    unfold count_create. cbn [filter is_create length]. lia.
  - intros w8 _. exists w8. unfold print, emit, push.
    rewrite batch_total_range, length_slice, sum_of_chunks.
    unfold BATCH_SIZE, PLAYLIST_MAX, ceil_div. rewrite Hids.
    set (n := length all_tracks) in *.
    replace (50 + Nat.min (50 + (Nat.min 1000 n - 50 + 49) / 50 * 50 - 50) (n - 50)
             + (Nat.min n ((1 + ((n + 1000 - 1) / 1000 - 1)) * 1000) - Nat.min n (1 * 1000)))
      with n by lia.
    replace (1 + ((n + 1000 - 1) / 1000 - 1)) with ((n + (1000 - 1)) / 1000) by lia.
    reflexivity.
Qed.

(** X4.  When at least 500 tracks were enumerated and every createPlaylist
    and addToPlaylist call succeeds, the run returns and the last thing it
    prints is the report that all the tracks went into [ceil(total / 1000)]
    playlists. *)
Theorem success_is_reported E lines cfg s all_tracks w2 :
  enumerated E (initial_world lines cfg) = Some (s, all_tracks, w2) ->
  500 <= length all_tracks ->
  calls_succeed E (service s) w2 ->
  exists w3,
    main E (initial_world lines cfg) =
    (Ok tt, push w3 (Print (nl ++ "Готово! Перенесено " ++ str_of_nat (length all_tracks)
                            ++ " треков в " ++ str_of_nat (ceil_div (length all_tracks) 1000)
                            ++ " плейлист(ов)."))).
Proof.
  intros Henum Hlen [[[ua tok] Hc] [Hcreate Hadd]].
  rewrite (enumerated_main _ _ Henum).
  exact (main_transfer_reports E s all_tracks w2 Hlen Hc Hcreate Hadd).
Qed.

(** *** The enumeration *)

Lemma collect_track_run track tracks w :
  exists w',
    collect_track track tracks w
    = (Ok (tracks ++ track_pairs [track])%list, w') /\
    trace w' = (trace w ++
                (if has_both_fields track
                 then (if (S (length tracks) mod 100 =? 0)%nat
                       then [progress_line (S (length tracks))] else [])
                 else (if ((length tracks mod 100 =? 0)%nat
                           && match tracks with [] => false | _ => true end)%bool
                       then [progress_line (length tracks)] else [])))%list.
Proof.
  unfold collect_track, track_pairs, has_both_fields. cbn [filter].
  destruct (negb (is_None (track_field track "owner_id"))
            && negb (is_None (track_field track "id")))%bool; cbn [map].
  - replace (length (tracks ++ [(str (track_field track "owner_id"),
                                 str (track_field track "id"))]))
      with (S (length tracks)) by (rewrite length_app; cbn [length]; lia).
    assert (Hne : match (tracks ++ [(str (track_field track "owner_id"),
                                     str (track_field track "id"))])%list
                  with [] => false | _ => true end = true)
      by (destruct tracks; reflexivity).
    rewrite Hne, andb_true_r.
    destruct (S (length tracks) mod 100 =? 0)%nat.
    + eexists. split; reflexivity.
    + eexists. split; [reflexivity|]. cbn [ret bind snd trace]. now rewrite app_nil_r.
  - rewrite app_nil_r.
    destruct ((length tracks mod 100 =? 0)%nat
              && match tracks with [] => false | _ => true end)%bool.
    + eexists. split; reflexivity.
    + eexists. split; [reflexivity|]. cbn [ret bind snd trace]. now rewrite app_nil_r.
Qed.

Lemma track_pairs_cons track items :
  track_pairs (track :: items) = (track_pairs [track] ++ track_pairs items)%list.
Proof. unfold track_pairs. cbn [filter]. destruct (has_both_fields track); reflexivity. Qed.

Lemma for_collect_track items : forall tracks w,
  exists w', for_ items collect_track tracks w = (Ok (tracks ++ track_pairs items)%list, w').
Proof.
  induction items as [|track items IH]; intros tracks w; cbn [for_].
  - exists w. unfold track_pairs. cbn [filter map]. now rewrite app_nil_r.
  - destruct (collect_track_run track tracks w) as [w1 [Hrun _]].
    destruct (IH (tracks ++ track_pairs [track])%list w1) as [w' H'].
    exists w'. now rewrite (bind_ok _ Hrun), H', (track_pairs_cons track items), app_assoc.
Qed.

Lemma for_collect_track_progress items : forall tracks w,
  forallb has_both_fields items = true ->
  trace (snd (for_ items collect_track tracks w))
  = (trace w ++ map progress_line
                    (filter (fun n => (n mod 100 =? 0)%nat)
                            (seq (S (length tracks)) (length items))))%list.
Proof.
  induction items as [|track items IH]; intros tracks w Hall; cbn [for_ length seq filter map].
  - cbn [ret snd]. now rewrite app_nil_r.
  - cbn [forallb] in Hall. apply andb_true_iff in Hall. destruct Hall as [Hb Hall].
    destruct (collect_track_run track tracks w) as [w1 [Hrun Htr]].
    rewrite (bind_ok _ Hrun), (IH _ w1 Hall), Htr, Hb.
    unfold track_pairs. cbn [filter]. rewrite Hb. cbn [map].
    rewrite length_app. cbn [length]. replace (length tracks + 1) with (S (length tracks)) by lia.
    destruct (S (length tracks) mod 100 =? 0)%nat; cbn [map]; now rewrite <- app_assoc.
Qed.

Lemma fetch_reaches_the_loop E uid l p c k w tracks w' :
  _fetch_all_via_vk_api E uid l p c k w = (Ok tracks, w') ->
  exists w1,
    for_ (fst (get_iter E)) collect_track [] (push w1 (AudioIter uid)) = (Ok tracks, w') /\
    snd (get_iter E) = None.
Proof.
  unfold _fetch_all_via_vk_api.
  set (m0 := match c, k with
             | Some path, Some tok =>
                 if (path_exists E path && nonempty tok)%bool
                 then emit (LoadCookies path) ;; lift (cookies_load E)
                 else login_with_password E l p
             | _, _ => login_with_password E l p
             end).
  unfold bind at 1. destruct (m0 w) as [[[]|e] w1]; [|discriminate].
  unfold bind at 1. cbn [emit].
  unfold bind at 1, lift at 1. destruct (VkAudio E) as [[]|e]; [|discriminate].
  unfold bind at 1, print at 1. cbn [emit].
  unfold bind at 1. cbn [emit].
  match goal with |- bind _ _ ?w0 = _ -> _ => set (w2 := w0) end.
  intro H. unfold bind in H.
  destruct (for_collect_track (fst (get_iter E)) [] w2) as [w3 Hloop].
  rewrite Hloop in H. cbn [app] in H.
  destruct (snd (get_iter E)) as [e|]; [discriminate|].
  injection H as <- <-.
  exists (push (push w1 NewVkAudio)
               (Print "Загрузка треков (время зависит от количества, прогресс каждые 100)...")).
  split; [exact Hloop|reflexivity].
Qed.

Arguments fetch_reaches_the_loop {E uid l p c k w tracks w'} _.

(** X5.  When the enumeration returns, what it returns are the items the
    iterator yielded that have both an [owner_id] and an [id], each as the
    pair of the two as strings, in the order they were yielded; and the
    iterator ended without an exception. *)
Theorem fetch_collects_the_items_with_both_fields E uid l p c k w tracks w' :
  _fetch_all_via_vk_api E uid l p c k w = (Ok tracks, w') ->
  tracks = track_pairs (fst (get_iter E)) /\ snd (get_iter E) = None.
Proof.
  intro H. destruct (fetch_reaches_the_loop H) as [w1 [Hloop Hend]].
  split; [|exact Hend].
  destruct (for_collect_track (fst (get_iter E)) [] (push w1 (AudioIter uid))) as [w3 Hloop'].
  rewrite Hloop' in Hloop. now injection Hloop as <- _.
Qed.

(** X6.  When every item has both fields and the enumeration returns, the
    last events of the enumeration are the iteration and then one progress
    line for each multiple of 100 up to the number of items, in order. *)
Theorem progress_every_hundred E uid l p c k w tracks w' :
  _fetch_all_via_vk_api E uid l p c k w = (Ok tracks, w') ->
  forallb has_both_fields (fst (get_iter E)) = true ->
  exists before,
    trace w' = (before ++ AudioIter uid ::
                map progress_line
                    (filter (fun n => (n mod 100 =? 0)%nat)
                            (seq 1 (length (fst (get_iter E))))))%list.
Proof.
  intros H Hall. destruct (fetch_reaches_the_loop H) as [w1 [Hloop _]].
  pose proof (@for_collect_track_progress _ [] (push w1 (AudioIter uid)) Hall) as Htr.
  rewrite Hloop in Htr. cbn [snd length] in Htr.
  exists (trace w1). rewrite Htr. unfold push. cbn [trace]. now rewrite <- app_assoc.
Qed.

(** *** The configuration file and the credentials *)

(** Case analysis on what the configuration file holds for the options
    of the section [vk]. *)
Ltac config_cases vk :=
  repeat (cbn beta iota; cbn [negb is_truthy andb fst snd];
          match goal with
          | |- context [lookup ?k vk] => destruct (lookup k vk) as [[?|?]|] eqn:?
          | |- context [nonempty ?v] => destruct (nonempty v) eqn:?
          end);
  cbn beta iota; cbn [negb is_truthy andb fst snd].

(** Reducing a reader in a world whose configuration file is known. *)
Ltac config_known H :=
  repeat (cbn beta iota; cbn [negb fst snd]; try rewrite !H).

Lemma load_service_reads w w0 :
  config_file w0 = config_file w ->
  _load_service_from_config w = (fst (_load_service_from_config w0), w).
Proof.
  intro H.
  unfold _load_service_from_config, config_exists, config_read, config_token,
    config_user_agent, section_get, bind, ret, raise.
  destruct (config_file w) as [[e|sections]|] eqn:Hc;
    config_known Hc; config_known H; try reflexivity.
  destruct (lookup "VK" sections) as [vk|]; [|reflexivity].
  config_cases vk; reflexivity.
Qed.

Lemma load_service_pure w : exists r, _load_service_from_config w = (r, w).
Proof. eexists. apply (load_service_reads w w eq_refl). Qed.

(** X7.  Reading the service from the configuration file changes nothing,
    and gives no service when there is no file.  A service it gives has
    credentials, whatever the configuration file holds later, and neither
    its user agent nor its token is empty. *)
Theorem loaded_service_has_credentials w :
  exists r,
    _load_service_from_config w = (r, w) /\
    (config_file w = None -> r = Ok None) /\
    forall s, r = Ok (Some s) ->
      exists ua tok,
        (forall w', _get_credentials s w' = (Ok (ua, tok), w')) /\
        nonempty ua = true /\ nonempty tok = true.
Proof.
  unfold _load_service_from_config, config_exists, config_read, config_token,
    config_user_agent, section_get, bind, ret, raise.
  destruct (config_file w) as [[e|sections]|] eqn:Hc; config_known Hc;
    [eexists; split; [reflexivity|split; discriminate]|
    |eexists; split; [reflexivity|split; [reflexivity|discriminate]]].
  destruct (lookup "VK" sections) as [vk|];
    [|eexists; split; [reflexivity|split; discriminate]].
  config_cases vk;
    (eexists; split; [reflexivity|split; [discriminate|]]);
    intros s Hs; try discriminate Hs; injection Hs as <-;
    (eexists _, _; split; [intro w'; reflexivity|split; assumption]).
Qed.

(** X8.  The two readers of the configuration file agree: when
    [_load_service_from_config] gives a service, the fallback of
    [_get_credentials], taken for a service without the two attributes,
    gives the credentials of that service. *)
Theorem config_readers_agree w s :
  _load_service_from_config w = (Ok (Some s), w) ->
  credentials {| user_agent := None; _Service__token := None |} (config_file w)
  = credentials s (config_file w).
Proof.
  assert (Hcred : forall svc, credentials svc (config_file w) = fst (_get_credentials svc w))
    by (intro svc; now rewrite get_credentials_run).
  rewrite !Hcred. clear Hcred.
  unfold _load_service_from_config, _get_credentials, config_exists, config_read,
    config_token, config_user_agent, section_get, bind, ret, raise.
  cbn [user_agent _Service__token].
  destruct (config_file w) as [[e|sections]|] eqn:Hc; config_known Hc; try discriminate.
  destruct (lookup "VK" sections) as [vk|]; [|discriminate].
  config_cases vk; intro H; try discriminate H; injection H as <-; reflexivity.
Qed.

(** The ways [main_service] goes (lines 176-197). *)
Lemma main_service_cases E w :
  (exists s, main_service E w = (Ok (Some s), w) /\
             (parse_config E = Some s \/
              parse_config E = None /\ _load_service_from_config w = (Ok (Some s), w))) \/
  (parse_config E = None /\
   exists e, _load_service_from_config w = (Raise e, w) /\
             main_service E w = (Raise e, w)) \/
  (parse_config E = None /\ _load_service_from_config w = (Ok None, w) /\
   let w3 := pushes w [Print "Токен Kate нужен для добавления в плейлист. Авторизуйтесь в браузере:";
                       OpenBrowser auth_url;
                       Print "Скопируйте access_token из адресной строки после входа."] in
   match stdin w with
   | [] => main_service E w = (Raise (EOFError "EOF when reading a line"), w3)
   | line :: rest =>
       let w4 := {| trace := trace w3 ++ [Input "Токен: " line];
                    stdin := rest; config_file := config_file w |} in
       if nonempty (strip line)
       then match config_write E (token_config E (strip line)) with
            | Ok file =>
                main_service E w =
                (Ok (Some (new_Service (KATE_user_agent E) (strip line))),
                 {| trace := trace w4 ++ [WriteConfig (token_config E (strip line));
                                          Print ("Токен сохранён." ++ nl)];
                    stdin := rest;
                    config_file := Some file |})
            | Raise e => main_service E w = (Raise e, w4)
            end
       else main_service E w = (Ok None, w4)
   end).
Proof.
  unfold main_service.
  destruct (parse_config E) as [s|] eqn:Hp.
  - left. exists s. split; [reflexivity|left; reflexivity].
  - destruct (load_service_pure w) as [[[s|]|e] Hload].
    + rewrite (bind_ok _ Hload). left. exists s. split; [reflexivity|right; auto].
    + rewrite (bind_ok _ Hload). right. right.
      split; [reflexivity|]. split; [exact Hload|].
      unfold bind, print, emit, input, write_config, pushes, token_config.
      cbn [trace stdin config_file].
      destruct (stdin w) as [|line rest].
      * rewrite <- !app_assoc. reflexivity.
      * destruct (nonempty (strip line)); cbn [negb trace stdin config_file];
          [destruct (config_write E _)|]; cbn [trace stdin config_file];
          rewrite <- !app_assoc; reflexivity.
    + right. left. split; [reflexivity|]. exists e. split; [exact Hload|].
      exact (bind_raise _ Hload).
Qed.

(** X9.  The token [main] saves is the one it reads back.  When no
    service comes from [Service.parse_config], the user agent of Kate is
    not empty, and configparser reports the two values of lines 193-194
    the way they were given (as it does for values without a [%]), the
    service [main] goes on with is the one the configuration file gives
    from then on. *)
Theorem saved_token_is_loaded_again E w s w' :
  parse_config E = None -> nonempty (KATE_user_agent E) = true ->
  main_service E w = (Ok (Some s), w') ->
  (forall tok file,
     _Service__token s = Some tok ->
     config_write E (token_config E tok) = Ok file ->
     file = stored (token_config E tok)) ->
  _load_service_from_config w' = (Ok (Some s), w').
Proof.
  intros Hp Hua Hrun Hstored.
  destruct (main_service_cases E w)
    as [[s0 [Hs [Hc|[_ Hload]]]]|[[_ [e [_ He]]]|[_ [_ Hcase]]]].
  - congruence.
  - rewrite Hs in Hrun. now injection Hrun as <- <-.
  - congruence.
  - cbv zeta in Hcase. destruct (stdin w) as [|line rest]; [congruence|].
    destruct (nonempty (strip line)) eqn:Htok; [|congruence].
    destruct (config_write E (token_config E (strip line))) as [file|e] eqn:Hw;
      [|congruence].
    rewrite Hcase in Hrun. injection Hrun as <- <-.
    rewrite (Hstored (strip line) file eq_refl Hw).
    unfold _load_service_from_config, config_exists, config_read, config_token,
      config_user_agent, section_get, bind, ret, stored, token_config.
    cbn [config_file map fst snd negb lookup String.eqb Ascii.eqb Bool.eqb is_truthy].
    rewrite Htok. cbn beta iota. rewrite Htok, Hua. reflexivity.
Qed.


Section NoWrite.

Variable E : Env.

Lemma only_run_auth_no_write flow : only not_write (run_auth flow).
Proof.
  induction flow as [r|next IH]; simpl.
  - apply only_lift.
  - unfold two_factor_handler. only_auto.
Qed.
Hint Resolve only_run_auth_no_write : frames.


End NoWrite.



(** *** The way to authenticate *)

Lemma gives_ret {A} (a : A) (Q : A -> Prop) : Q a -> gives (ret a) Q.
Proof. intros H w a' w' [= <- _]. exact H. Qed.

Lemma gives_bind {A B} (m : M A) (k : A -> M B) (Q : B -> Prop) :
  (forall a, gives (k a) Q) -> gives (bind m k) Q.
Proof.
  intros Hk w b w'. unfold bind. destruct (m w) as [[a|e] w1]; [|discriminate].
  apply Hk.
Qed.

Lemma gives_bind_with {A B} (m : M A) (P : A -> Prop) (k : A -> M B) (Q : B -> Prop) :
  gives m P -> (forall a, P a -> gives (k a) Q) -> gives (bind m k) Q.
Proof.
  intros Hm Hk w b w'. unfold bind. destruct (m w) as [[a|e] w1] eqn:H; [|discriminate].
  apply Hk. exact (Hm _ _ _ H).
Qed.

Lemma main_auth_choice_session E svc uid title :
  gives (main_auth_choice E svc uid title)
        (fun o => forall s, o = Some s -> by_password s \/ by_cookies E s).
Proof.
  unfold main_auth_choice. do 5 (apply gives_bind; intros ?).
  destruct (negb (nonempty (strip a3)) || negb (path_exists E (strip a3)))%bool eqn:Hc.
  - do 3 (apply gives_bind; intros ?).
    destruct (negb (nonempty (strip a5)) || negb (nonempty (strip a6)))%bool eqn:Hlp.
    + apply gives_bind. intros _. apply gives_ret. discriminate.
    + apply gives_ret. intros s [= <-]. left.
      apply orb_false_iff in Hlp. destruct Hlp as [Hl Hp].
      apply negb_false_iff in Hl, Hp.
      exists (strip a5), (strip a6). cbn. auto 6.
  - apply gives_bind. intros l. apply gives_bind. intros [ua tok].
    destruct (negb (nonempty tok)) eqn:Htok.
    + apply gives_bind. intros _. apply gives_ret. discriminate.
    + apply gives_ret. intros s [= <-]. right.
      apply orb_false_iff in Hc. destruct Hc as [_ Hpath].
      apply negb_false_iff in Hpath, Htok.
      exists (strip a3), tok. cbn. auto.
Qed.

Lemma main_prepare_session E :
  gives (main_prepare E) (fun o => forall s, o = Some s -> by_password s \/ by_cookies E s).
Proof.
  unfold main_prepare. apply gives_bind. intros [[svc uid]|]; [|apply gives_ret; discriminate].
  apply gives_bind. intro line.
  destruct (negb (nonempty (strip line))); [apply gives_ret; discriminate|].
  apply main_auth_choice_session.
Qed.

Lemma only_main_prepare_of E P :
  (forall ev, is_quiet ev = true -> P ev = true) ->
  (forall answer, P (Input title_prompt answer) = true) ->
  only P (main_prepare E).
Proof.
  intros Hq Ht. unfold main_prepare. apply only_bind.
  - eapply only_weaken; [exact Hq|apply only_main_identify].
  - intros [[svc uid]|]; [|apply only_ret].
    apply only_bind; [apply only_input; exact Ht|].
    intro line. destruct (negb (nonempty (strip line))); [apply only_ret|].
    eapply only_weaken; [exact Hq|apply only_main_auth_choice].
Qed.

Section Modes.

Variable E : Env.

Lemma only_run_auth_password flow : only password_mode (run_auth flow).
Proof.
  induction flow as [r|next IH]; simpl.
  - apply only_lift.
  - unfold two_factor_handler. only_auto.
Qed.

Lemma only_run_auth_cookies flow : only (cookie_mode E) (run_auth flow).
Proof.
  induction flow as [r|next IH]; simpl.
  - apply only_lift.
  - unfold two_factor_handler. only_auto.
Qed.

Lemma only_main_fetch_password s : by_password s -> only password_mode (main_fetch E s).
Proof.
  intros [l [p [Hl [Hp [Hln [Hpn [Hc Hk]]]]]]].
  unfold main_fetch, _fetch_all_via_vk_api. rewrite Hl, Hp, Hc, ?Hk.
  apply only_try_except; [|intro; only_auto].
  apply only_bind; [|intro; only_auto].
  apply only_bind.
  - unfold login_with_password. apply only_bind.
    + apply only_emit. cbn. now rewrite Hln, Hpn.
    + intro. apply only_run_auth_password.
  - intro. unfold collect_track. only_auto.
Qed.

Lemma only_main_fetch_cookies s : by_cookies E s -> only (cookie_mode E) (main_fetch E s).
Proof.
  intros [path [tok [Hc [Hk [Hpath Htok]]]]].
  unfold main_fetch, _fetch_all_via_vk_api. rewrite Hc, Hk, Hpath, Htok. cbn [andb].
  apply only_try_except; [|intro; only_auto].
  apply only_bind; [|intro; only_auto].
  apply only_bind.
  - apply only_bind; [|intro; apply only_lift].
    apply only_emit. cbn. exact Hpath.
  - intro. unfold collect_track. only_auto.
Qed.

End Modes.

(** X11.  A run authenticates in one way only.  Either it loads no
    cookies, and each call of [vk.auth()] has a login and a password that
    are not empty; or it never calls [vk.auth()], and the cookies it loads
    come from a file that exists. *)
Theorem one_way_to_authenticate E lines cfg :
  let tr := trace (snd (main E (initial_world lines cfg))) in
  forallb password_mode tr = true \/ forallb (cookie_mode E) tr = true.
Proof.
  cbv zeta. unfold main, bind.
  destruct (main_prepare E (initial_world lines cfg)) as [r1 w1] eqn:H1.
  assert (Hquiet : forall P : Event -> bool,
            (forall ev, is_quiet ev = true -> P ev = true) ->
            (forall answer, P (Input title_prompt answer) = true) ->
            forallb P (trace w1) = true).
  { intros P Hq Ht.
    destruct (only_run (only_main_prepare_of E P Hq Ht) H1) as [evs [-> Hall]]. exact Hall. }
  assert (Hpw : forallb password_mode (trace w1) = true).
  { apply Hquiet; [|reflexivity]. intros [] H; try reflexivity; discriminate. }
  assert (Hck : forallb (cookie_mode E) (trace w1) = true).
  { apply Hquiet; [|reflexivity]. intros [] H; try reflexivity; discriminate. }
  destruct r1 as [[s|]|e]; [|left; exact Hpw..].
  assert (Hrest : forall P : Event -> bool,
            forallb P (trace w1) = true -> only P (main_fetch E s) ->
            (forall ev, is_transfer_event ev = true -> P ev = true) ->
            forallb P (trace (snd (match main_fetch E s w1 with
                                   | (Ok (Some all_tracks), w') => main_transfer E s all_tracks w'
                                   | (Ok None, w') => (Ok tt, w')
                                   | (Raise e, w') => (Raise e, w')
                                   end))) = true).
  { intros P H0 Hfetch Htr.
    destruct (main_fetch E s w1) as [r2 w2] eqn:H2.
    destruct (only_run Hfetch H2) as [evs2 [Ht2 Hall2]].
    assert (H02 : forallb P (trace w2) = true) by (rewrite Ht2, forallb_app, H0; exact Hall2).
    destruct r2 as [[all_tracks|]|e]; [|exact H02..].
    destruct (only_main_transfer_events E s all_tracks w2) as [evs3 [-> Hall3]].
    rewrite forallb_app, H02. eapply forallb_weaken; [exact Htr|exact Hall3]. }
  destruct (@main_prepare_session E _ _ _ H1 s eq_refl) as [Hs|Hs].
  - left. change (ret tt) with (fun w : World => (Ok tt, w)).
    refine (eq_trans _ (Hrest password_mode Hpw (only_main_fetch_password E Hs) _)).
    + destruct (main_fetch E s w1) as [[[all_tracks|]|e] w2]; reflexivity.
    + intros [] H; try reflexivity; discriminate.
  - right.
    refine (eq_trans _ (Hrest (cookie_mode E) Hck (only_main_fetch_cookies Hs) _)).
    + destruct (main_fetch E s w1) as [[[all_tracks|]|e] w2]; reflexivity.
    + intros [] H; try reflexivity; discriminate.
Qed.

(** *** The identity of the requests *)

Lemma steady_ret {A} c P (a : A) : steady c P (ret a).
Proof. intros w Hc. split; [exact Hc|]. exists []. cbn. now rewrite app_nil_r. Qed.

Lemma steady_raise {A} c P e : steady c P (@raise A e).
Proof. intros w Hc. split; [exact Hc|]. exists []. cbn. now rewrite app_nil_r. Qed.

Lemma steady_lift {A} c P (r : Result A) : steady c P (lift r).
Proof. intros w Hc. split; [exact Hc|]. exists []. cbn. now rewrite app_nil_r. Qed.

Lemma steady_emit c P ev : P ev = true -> steady c P (emit ev).
Proof. intros H w Hc. split; [exact Hc|]. exists [ev]. cbn. now rewrite H. Qed.

Lemma steady_bind {A B} c P (m : M A) (k : A -> M B) :
  steady c P m -> (forall a, steady c P (k a)) -> steady c P (bind m k).
Proof.
  intros Hm Hk w Hc. unfold bind.
  destruct (Hm w Hc) as [Hc1 [evs [Ht Hp]]].
  destruct (m w) as [[a|e] w1]; cbn [snd] in *.
  - destruct (Hk a w1 Hc1) as [Hc2 [evs' [Ht' Hp']]]. split; [exact Hc2|].
    exists (evs ++ evs')%list. rewrite Ht', Ht, app_assoc, forallb_app, Hp, Hp'. auto.
  - split; [exact Hc1|]. exists evs. auto.
Qed.

Lemma steady_try_except {A} c P (body : M A) caught handler :
  steady c P body -> (forall e, steady c P (handler e)) ->
  steady c P (try_except body caught handler).
Proof.
  intros Hm Hk w Hc. unfold try_except.
  destruct (Hm w Hc) as [Hc1 [evs [Ht Hp]]].
  destruct (body w) as [[a|e] w1]; cbn [snd] in *.
  - split; [exact Hc1|]. exists evs. auto.
  - destruct (caught e).
    + destruct (Hk e w1 Hc1) as [Hc2 [evs' [Ht' Hp']]]. split; [exact Hc2|].
      exists (evs ++ evs')%list. rewrite Ht', Ht, app_assoc, forallb_app, Hp, Hp'. auto.
    + split; [exact Hc1|]. exists evs. auto.
Qed.

Lemma steady_for {A S} c P (xs : list A) (body : A -> S -> M S) :
  (forall x s, steady c P (body x s)) -> forall s, steady c P (for_ xs body s).
Proof.
  intros Hb. induction xs as [|x rest IH]; intro s; cbn [for_].
  - apply steady_ret.
  - apply steady_bind; auto.
Qed.

(** The credentials are those of the configuration file [c]; what follows
    them runs only if there are credentials. *)
Lemma steady_credentials {B} c P svc (k : string * string -> M B) :
  (forall a, credentials svc c = Ok a -> steady c P (k a)) ->
  steady c P (bind (_get_credentials svc) k).
Proof.
  intros Hk w Hc. unfold bind. rewrite get_credentials_run, Hc.
  destruct (credentials svc c) as [a|e].
  - exact (Hk a eq_refl w Hc).
  - split; [exact Hc|]. exists []. cbn. now rewrite app_nil_r.
Qed.

Lemma steady_request_createPlaylist E c P ua tok uid title :
  P (CreatePlaylist ua tok uid title) = true ->
  steady c P (request_createPlaylist E ua tok uid title).
Proof.
  intros H w Hc. split; [exact Hc|].
  exists [CreatePlaylist ua tok uid title]. cbn. now rewrite H.
Qed.

Lemma steady_request_addToPlaylist E c P ua tok uid pid ids :
  P (AddToPlaylist ua tok uid pid ids) = true ->
  steady c P (request_addToPlaylist E ua tok uid pid ids).
Proof.
  intros H w Hc. split; [exact Hc|].
  exists [AddToPlaylist ua tok uid pid ids]. cbn. now rewrite H.
Qed.

Lemma carries_refl_create ua tok uid title :
  carries ua tok uid (CreatePlaylist ua tok uid title) = true.
Proof. cbn. now rewrite !String.eqb_refl, Z.eqb_refl. Qed.

Lemma carries_refl_add ua tok uid pid ids :
  carries ua tok uid (AddToPlaylist ua tok uid pid ids) = true.
Proof. cbn. now rewrite !String.eqb_refl, Z.eqb_refl. Qed.

Ltac steady_step :=
  first
    [ apply steady_ret | apply steady_raise | apply steady_lift
    | apply steady_emit; reflexivity
    | apply steady_request_createPlaylist; apply carries_refl_create
    | apply steady_request_addToPlaylist; apply carries_refl_add
    | apply steady_credentials;
      let a := fresh "a" in let H := fresh "H" in
      intros a H;
      match goal with
      | Hc : credentials _ _ = Ok _ |- _ => rewrite Hc in H; injection H as <-
      | Hc : credentials _ _ = Raise _ |- _ => rewrite Hc in H; discriminate H
      end
    | apply steady_bind; [|intros]
    | apply steady_try_except; [|intros]
    | apply steady_for; intros
    | match goal with
      | |- steady _ _ (match ?x with _ => _ end) => destruct x
      | |- steady _ _ (if ?b then _ else _) => destruct b
      end ].

Lemma steady_main_transfer E s all_tracks c ua tok :
  credentials (service s) c = Ok (ua, tok) ->
  steady c (carries ua tok (user_id s)) (main_transfer E s all_tracks).
Proof.
  intro Hc.
  unfold main_transfer, overflow_part, add_batches, add_batch, create_playlist,
    add_to_playlist, raise_on_error, playlist_id_of, print, sleep.
  repeat steady_step.
Qed.

Lemma steady_main_transfer_no_credentials E s all_tracks c e :
  credentials (service s) c = Raise e ->
  steady c not_call (main_transfer E s all_tracks).
Proof.
  intro Hc.
  unfold main_transfer, overflow_part, add_batches, add_batch, create_playlist,
    add_to_playlist, raise_on_error, playlist_id_of, print, sleep.
  repeat steady_step.
Qed.

Lemma not_call_carries ua tok uid ev : not_call ev = true -> carries ua tok uid ev = true.
Proof. destruct ev; try reflexivity; discriminate. Qed.

Lemma gives_lift {A} (r : Result A) : gives (lift r) (fun a => r = Ok a).
Proof. intros w a w' [= -> _]. reflexivity. Qed.

Lemma main_identify_user E :
  gives (main_identify E)
        (fun o => forall svc uid, o = Some (svc, uid) ->
                  exists info, get_user_info E = Ok info /\ uid = userid info).
Proof.
  unfold main_identify. apply gives_bind. intros _. apply gives_bind.
  intros [svc|]; [|apply gives_ret; discriminate].
  apply gives_bind. intros _.
  eapply gives_bind_with; [apply gives_lift|]. cbv beta. intros info Hinfo.
  apply gives_bind. intros _. apply gives_ret.
  intros svc' uid [= _ <-]. exists info. auto.
Qed.

Lemma main_auth_choice_keeps E svc uid title :
  gives (main_auth_choice E svc uid title)
        (fun o => forall s, o = Some s ->
                  service s = svc /\ user_id s = uid /\ playlist_title s = title).
Proof.
  unfold main_auth_choice. do 5 (apply gives_bind; intros ?).
  destruct (negb (nonempty (strip a3)) || negb (path_exists E (strip a3)))%bool.
  - do 3 (apply gives_bind; intros ?).
    destruct (negb (nonempty (strip a5)) || negb (nonempty (strip a6)))%bool.
    + apply gives_bind. intros _. apply gives_ret. discriminate.
    + apply gives_ret. intros s [= <-]. cbn. auto.
  - apply gives_bind. intros l. apply gives_bind. intros [ua tok].
    destruct (negb (nonempty tok)).
    + apply gives_bind. intros _. apply gives_ret. discriminate.
    + apply gives_ret. intros s [= <-]. cbn. auto.
Qed.

Lemma main_prepare_user E :
  gives (main_prepare E)
        (fun o => forall s, o = Some s ->
                  exists info, get_user_info E = Ok info /\ user_id s = userid info).
Proof.
  unfold main_prepare. eapply gives_bind_with; [apply main_identify_user|]. cbv beta.
  intros [[svc uid]|] Hid; [|apply gives_ret; discriminate].
  destruct (Hid svc uid eq_refl) as [info [Hinfo ->]].
  apply gives_bind. intro line.
  destruct (negb (nonempty (strip line))); [apply gives_ret; discriminate|].
  intros w o w' Hrun s ->.
  destruct (@main_auth_choice_keeps E svc (userid info) (strip line) _ _ _ Hrun s eq_refl)
    as [_ [Hu _]].
  exists info. auto.
Qed.

(** X12.  All the requests of a run carry one identity: the same user
    agent and the same token, and as owner the user id that
    [get_user_info] returned.  A run in which [get_user_info] raises makes
    no request. *)
Theorem requests_carry_one_identity E lines cfg :
  let tr := trace (snd (main E (initial_world lines cfg))) in
  exists ua tok,
    match get_user_info E with
    | Ok info => forallb (carries ua tok (userid info)) tr = true
    | Raise _ => forallb not_call tr = true
    end.
Proof.
  cbv zeta.
  destruct (main_cases E (initial_world lines cfg))
    as [[s [all_tracks [w2 [evs [Henum [Ht Hq]]]]]]|[_ [evs [Ht Hq]]]].
  - rewrite (enumerated_main _ _ Henum).
    assert (Huser : exists info, get_user_info E = Ok info /\ user_id s = userid info).
    { unfold enumerated in Henum.
      destruct (main_prepare E (initial_world lines cfg)) as [[[s'|]|e] w1] eqn:H1;
        try discriminate.
      destruct (main_fetch E s' w1) as [[[t|]|e] w2']; try discriminate.
      injection Henum as -> _ _.
      exact (@main_prepare_user E _ _ _ H1 s eq_refl). }
    destruct Huser as [info [Hinfo Huid]]. rewrite Hinfo, <- Huid.
    cbn [initial_world trace app] in Ht.
    destruct (credentials (service s) (config_file w2)) as [[ua tok]|e] eqn:Hc.
    + exists ua, tok.
      destruct (@steady_main_transfer E s all_tracks _ ua tok Hc w2 eq_refl)
        as [_ [evs3 [-> Hall]]].
      rewrite forallb_app, Hall, andb_true_r, Ht.
      eapply forallb_weaken; [|exact Hq]. intros ev. apply not_call_carries.
    + exists "", "".
      destruct (@steady_main_transfer_no_credentials E s all_tracks _ e Hc w2 eq_refl)
        as [_ [evs3 [-> Hall]]].
      rewrite forallb_app, Ht. apply andb_true_iff. split.
      * eapply forallb_weaken; [|exact Hq]. intros ev. apply not_call_carries.
      * eapply forallb_weaken; [|exact Hall]. intros ev. apply not_call_carries.
  - exists "", "". rewrite Ht. cbn [initial_world trace app].
    destruct (get_user_info E) as [info|e]; [|exact Hq].
    eapply forallb_weaken; [|exact Hq]. intros ev. apply not_call_carries.
Qed.

(** *** The titles of the playlists *)

Lemma created_titles_none cs : count_create cs = 0 -> created_titles cs = [].
Proof.
  unfold count_create. induction cs as [|ev cs IH]; [reflexivity|].
  destruct ev; cbn [filter is_create length created_titles flat_map app];
    try exact IH; discriminate.
Qed.

Ltac titles :=
  repeat rewrite created_titles_app; cbn [created_titles flat_map app];
  repeat rewrite app_nil_r.

Section Titles.

Variable E : Env.
Variables (svc : Service) (uid : Z) (ua tok : string).
Variables (title : string) (ids : list string) (shown_total : string).

Let ready (w : World) : Prop := credentials svc (config_file w) = Ok (ua, tok).

(** A further playlist is asked for once, whatever becomes of it. *)
Lemma titles_overflow_part part counters w :
  ready w -> 1 <= part ->
  after (overflow_part E svc uid title ids shown_total part counters) w
        (fun r cs => created_titles cs = [title_of title part]).
Proof.
  intros Hr Hpart. destruct counters as [total np]. unfold overflow_part.
  set (t := title ++ " (" ++ str_of_nat (part + 1) ++ ")").
  assert (Ht : title_of title part = t) by (destruct part; [lia|reflexivity]).
  rewrite Ht.
  apply after_bind, after_emit. intros w1 Hw1.
  assert (Hr1 : ready w1) by exact (@ready_after svc ua tok _ _ _ Hr Hw1).
  destruct (@create_playlist_any E svc uid ua tok t w1 Hr1) as [r [Hrun _]].
  apply after_bind. eexists. rewrite Hrun. cbn [fst snd].
  split; [exact (advances_push w1 (CreatePlaylist ua tok uid t))|].
  cbn [is_call is_create is_add orb].
  destruct r as [resp|e]; [|reflexivity].
  intros w2 Hw2. destruct (playlist_id_of_pure resp) as [r2 Hid].
  apply after_bind, (after_pure (Hid w2)).
  destruct r2 as [pid|e]; [|reflexivity].
  destruct (negb (truthy pid)).
  - intros w3 Hw3. apply after_ret. reflexivity.
  - intros w3 Hw3. apply after_bind.
    eapply after_weaken;
      [eapply after_add_batches;
       exact (@ready_after svc ua tok _ _ _ (@ready_after svc ua tok _ _ _ Hr1 Hw2) Hw3)|].
    intros [total'|e] cs [Hcount _].
    + intros w4 Hw4. apply after_ret. titles. now rewrite (created_titles_none _ Hcount).
    + titles. now rewrite (created_titles_none _ Hcount).
Qed.

Lemma titles_overflow_loop m : forall a counters w,
  ready w -> 1 <= a ->
  after (for_ (seq a m) (overflow_part E svc uid title ids shown_total) counters) w
        (fun r cs => exists j, j <= m /\ created_titles cs = map (title_of title) (seq a j)).
Proof.
  induction m as [|m IH]; intros a counters w Hr Ha; cbn [seq for_].
  - apply after_ret. exists 0. auto.
  - apply after_bind. eapply after_weaken; [apply titles_overflow_part; assumption|].
    intros [counters'|e] cs Hcs.
    + intros w1 Hw1.
      eapply after_weaken;
        [apply (IH (S a)); [exact (@ready_after svc ua tok _ _ _ Hr Hw1)|lia]|].
      intros r' cs' [j [Hj Hcs']]. exists (S j). split; [lia|].
      rewrite created_titles_app, Hcs, Hcs'. reflexivity.
    + exists 1. split; [lia|]. rewrite Hcs. reflexivity.
Qed.

End Titles.

Lemma titles_main_transfer E s all_tracks w :
  after (main_transfer E s all_tracks) w
        (fun r cs => exists k, k <= ceil_div (length all_tracks) 1000 /\
                               created_titles cs
                               = map (title_of (playlist_title s)) (seq 0 k)).
Proof.
  unfold main_transfer.
  destruct (length all_tracks <? MIN_TRACKS)%nat eqn:Hlen.
  { apply after_bind, after_emit. intros w1 Hw1. apply after_emit. exists 0.
    split; [lia|reflexivity]. }
  apply Nat.ltb_ge in Hlen. unfold MIN_TRACKS in Hlen.
  set (ids := map composite_id (rev all_tracks)).
  assert (Hids : length ids = length all_tracks)
    by (unfold ids; now rewrite length_map, length_rev).
  assert (Hceil : 1 <= ceil_div (length all_tracks) 1000)
    by (unfold ceil_div; change (1000 - 1) with 999; lia).
  apply after_bind, after_emit. intros w1 Hw1.
  apply after_bind, after_emit. intros w2 Hw2.
  pose proof (advances_trans Hw1 Hw2) as Hw12. cbn [is_call is_create is_add orb app] in Hw12.
  destruct (credentials (service s) (config_file w)) as [[ua tok]|e] eqn:Hc.
  2:{ apply after_bind. eapply after_pure.
      - unfold create_playlist. apply bind_raise.
        rewrite get_credentials_run, (proj1 Hw12), Hc. reflexivity.
      - exists 0. split; [lia|reflexivity]. }
  assert (Hr2 : credentials (service s) (config_file w2) = Ok (ua, tok))
    by (rewrite (proj1 Hw12); exact Hc).
  destruct (@create_playlist_any E (service s) (user_id s) ua tok (playlist_title s) w2 Hr2)
    as [r [Hrun _]].
  apply after_bind. eexists. rewrite Hrun. cbn [fst snd].
  split; [exact (advances_push w2 (CreatePlaylist ua tok (user_id s) (playlist_title s)))|].
  cbn [is_call is_create is_add orb].
  assert (Hone : exists k, k <= ceil_div (length all_tracks) 1000 /\
                   [playlist_title s] = map (title_of (playlist_title s)) (seq 0 k))
    by (exists 1; split; [exact Hceil|reflexivity]).
  destruct r as [resp|e]; [|titles; exact Hone].
  intros w3 Hw3. destruct (playlist_id_of_pure resp) as [r2 Hid].
  apply after_bind, (after_pure (Hid w3)).
  destruct r2 as [pid|e]; [|titles; exact Hone].
  destruct (negb (truthy pid)).
  { intros w4 Hw4. apply after_emit. titles. exact Hone. }
  intros w4 Hw4.
  assert (Hr4 : credentials (service s) (config_file w4) = Ok (ua, tok))
    by (rewrite (proj1 Hw4), (proj1 Hw3); exact Hr2).
  apply after_bind. eapply after_add_to_playlist; [exact Hr4|]. intros [[]|e];
    [|titles; exact Hone].
  intros w5 Hw5. apply after_bind, after_emit. intros w6 Hw6.
  apply after_bind, after_emit. intros w7 Hw7.
  assert (Hr7 : credentials (service s) (config_file w7) = Ok (ua, tok))
    by (rewrite (proj1 Hw7), (proj1 Hw6), (proj1 Hw5); exact Hr4).
  apply after_bind. eapply after_weaken; [eapply after_add_batches; exact Hr7|].
  intros [total|e] cs [Hcount _];
    [|titles; rewrite (created_titles_none _ Hcount); exact Hone].
  intros w8 Hw8. rewrite range_from_1. apply after_bind.
  eapply after_weaken; [eapply titles_overflow_loop with (ua := ua) (tok := tok)|].
  - rewrite (proj1 Hw8). exact Hr7.
  - lia.
  - assert (Hall : forall cs' j,
              j <= (length ids + PLAYLIST_MAX - 1) / PLAYLIST_MAX - 1 ->
              created_titles cs' = map (title_of (playlist_title s)) (seq 1 j) ->
              exists k, k <= ceil_div (length all_tracks) 1000 /\
                        (playlist_title s :: created_titles cs')
                        = map (title_of (playlist_title s)) (seq 0 k)).
    { intros cs' j Hj Hcs'. exists (S j). split.
      - unfold ceil_div. unfold PLAYLIST_MAX in Hj. rewrite Hids in Hj.
        change (1000 - 1) with 999. lia.
      - rewrite Hcs'. reflexivity. }
    intros [[t np]|e] cs' [j [Hj Hcs']].
    + intros w9 Hw9. apply after_emit. titles.
      rewrite (created_titles_none _ Hcount). cbn [app]. exact (Hall cs' j Hj Hcs').
    + titles. rewrite (created_titles_none _ Hcount). cbn [app]. exact (Hall cs' j Hj Hcs').
Qed.

(** X13.  Whatever the API answers, the playlists a run asks for are
    named, in this order, by the title, the title with [(2)], the title
    with [(3)] and so on, without a gap, and there are at most
    [ceil(total / 1000)] of them: a playlist that could not be created
    does not shift the numbers of the next ones. *)
Theorem playlists_are_numbered_in_order E lines cfg s all_tracks w2 :
  enumerated E (initial_world lines cfg) = Some (s, all_tracks, w2) ->
  exists k,
    k <= ceil_div (length all_tracks) 1000 /\
    created_titles (trace (snd (main E (initial_world lines cfg))))
    = map (title_of (playlist_title s)) (seq 0 k).
Proof.
  intro Henum. rewrite (enumerated_main _ _ Henum).
  pose proof (enumerated_no_calls _ _ _ Henum) as Hq.
  destruct (titles_main_transfer E s all_tracks w2) as [cs [[_ Hcalls] [k [Hk Ht]]]].
  exists k. split; [exact Hk|].
  rewrite <- created_titles_calls, Hcalls, created_titles_app, Ht, created_titles_calls.
  assert (Hnone : created_titles (trace w2) = []).
  { clear - Hq. induction (trace w2) as [|ev tr IH]; [reflexivity|].
    cbn [forallb] in Hq. apply andb_true_iff in Hq. destruct Hq as [Hev Htr].
    destruct ev; try exact (IH Htr); discriminate. }
  now rewrite Hnone.
Qed.


(** *** The counters of the report *)

Lemma gives_try_except {A} (body : M A) caught handler (Q : A -> Prop) :
  gives body Q -> (forall e, gives (handler e) Q) -> gives (try_except body caught handler) Q.
Proof.
  intros Hb Hh w a w'. unfold try_except.
  destruct (body w) as [[a0|e] w1] eqn:H.
  - intros [= <- _]. exact (Hb _ _ _ H).
  - destruct (caught e); [apply Hh|discriminate].
Qed.

Section Counters.

Variable E : Env.
Variables (svc : Service) (uid : Z).
Variables (title : string) (ids : list string) (shown_total : string).

(** A batch adds its length to the counter, or nothing. *)
Lemma add_batch_total pid batch shown total :
  gives (add_batch E svc uid pid batch shown shown_total total)
        (fun t => total <= t <= total + length batch).
Proof.
  unfold add_batch. eapply gives_bind_with with (P := fun t => total <= t <= total + length batch).
  - apply gives_try_except.
    + do 2 (apply gives_bind; intros ?). apply gives_ret. lia.
    + intro e. apply gives_try_except.
      * do 3 (apply gives_bind; intros ?). apply gives_ret. lia.
      * intros _. apply gives_bind. intros _. apply gives_ret. lia.
  - intros t Ht. apply gives_bind. intros _. apply gives_ret. exact Ht.
Qed.

Lemma add_batches_total pid xs shown starts : forall total,
  gives (add_batches E svc uid pid xs starts shown shown_total total)
        (fun t => total <= t <= total + batch_total xs starts).
Proof.
  unfold add_batches, batch_total.
  induction starts as [|i rest IH]; intro total; cbn [for_ map list_sum fold_right].
  - apply gives_ret. lia.
  - change (fold_right Nat.add 0 ?l) with (list_sum l).
    eapply gives_bind_with; [apply add_batch_total|]. cbv beta. intros t Ht.
    intros w t' w' Hrun. pose proof (IH t w t' w' Hrun) as Ht'. cbv beta in Ht'. lia.
Qed.

Lemma overflow_part_counters part total np :
  gives (overflow_part E svc uid title ids shown_total part (total, np))
        (fun c => total <= fst c <= total + Nat.min 1000 (length ids - part * 1000) /\
                  np <= snd c <= np + 1).
Proof.
  unfold overflow_part. do 3 (apply gives_bind; intros ?).
  destruct (negb (truthy a1)).
  - apply gives_ret. cbn [fst snd]. lia.
  - eapply gives_bind_with; [apply add_batches_total|]. cbv beta. intros t Ht.
    apply gives_ret. cbn [fst snd].
    rewrite batch_total_range, !length_slice in Ht. unfold PLAYLIST_MAX in Ht. lia.
Qed.

Lemma overflow_loop_counters m : forall a total np,
  gives (for_ (seq a m) (overflow_part E svc uid title ids shown_total) (total, np))
        (fun c => total <= fst c
                  <= total + list_sum (map (fun part => Nat.min 1000 (length ids - part * 1000))
                                           (seq a m)) /\
                  np <= snd c <= np + m).
Proof.
  induction m as [|m IH]; intros a total np; cbn [seq for_ map list_sum fold_right].
  - apply gives_ret. cbn [fst snd]. lia.
  - change (fold_right Nat.add 0 ?l) with (list_sum l).
    eapply gives_bind_with; [apply overflow_part_counters|]. cbv beta.
    intros [t p] [Ht Hp]. cbn [fst snd] in Ht, Hp.
    intros w c w' Hrun. pose proof (IH (S a) t p w c w' Hrun) as Hc. cbv beta in Hc. lia.
Qed.

End Counters.

Lemma main_transfer_report E s all_tracks w w' :
  500 <= length all_tracks ->
  main_transfer E s all_tracks w = (Ok tt, w') ->
  exists w1,
    w' = push w1 (Print "Ошибка создания плейлиста.") \/
    exists total playlists,
      w' = push w1 (Print (nl ++ "Готово! Перенесено " ++ str_of_nat total ++ " треков в "
                           ++ str_of_nat playlists ++ " плейлист(ов).")) /\
      50 <= total <= length all_tracks /\
      1 <= playlists <= ceil_div (length all_tracks) 1000.
Proof.
  intros Hlen. unfold main_transfer.
  replace (length all_tracks <? MIN_TRACKS)%nat with false
    by (symmetry; apply Nat.ltb_ge; exact Hlen).
  set (ids := map composite_id (rev all_tracks)).
  assert (Hids : length ids = length all_tracks)
    by (unfold ids; now rewrite length_map, length_rev).
  rewrite range_from_1.
  unfold bind at 1. destruct (print _ w) as [[[]|e] w1]; [|discriminate].
  unfold bind at 1. destruct (print _ w1) as [[[]|e] w2]; [|discriminate].
  unfold bind at 1. destruct (create_playlist _ _ _ _ w2) as [[resp|e] w3]; [|discriminate].
  unfold bind at 1. destruct (playlist_id_of resp w3) as [[pid|e] w4]; [|discriminate].
  destruct (negb (truthy pid)).
  { intros [= <-]. exists w4. left. reflexivity. }
  unfold bind at 1. destruct (add_to_playlist _ _ _ _ _ w4) as [[[]|e] w5]; [|discriminate].
  unfold bind at 1. destruct (print _ w5) as [[[]|e] w6]; [|discriminate].
  unfold bind at 1. destruct (sleep _ w6) as [[[]|e] w7]; [|discriminate].
  unfold bind at 1.
  destruct (add_batches _ _ _ _ _ _ _ _ _ w7) as [[total|e] w8] eqn:Hfirst; [|discriminate].
  pose proof (@add_batches_total _ _ _ _ _ _ _ _ _ _ _ _ Hfirst) as Ht. cbv beta in Ht.
  unfold bind at 1.
  destruct (for_ _ _ _ w8) as [[[total' np]|e] w9] eqn:Hloop; [|discriminate].
  pose proof (@overflow_loop_counters _ _ _ _ _ _ _ _ _ _ _ _ _ Hloop) as [Ht' Hp].
  cbn [fst snd] in Ht', Hp.
  intros [= <-]. exists w9. right. exists total', np. split; [reflexivity|].
  rewrite batch_total_range, length_slice in Ht. rewrite sum_of_chunks in Ht'.
  unfold BATCH_SIZE, PLAYLIST_MAX, ceil_div in *. rewrite Hids in *.
  change (1000 - 1) with 999. lia.
Qed.

(** X15.  A run that enumerated 500 tracks or more and returns ends in
    one of two ways: with the message that the playlist was not created,
    or with the report, whose counts are bounded whatever the API
    answered: between 50 tracks and all of them, in between one and
    [ceil(total / 1000)] playlists. *)
Theorem report_counts_are_bounded E lines cfg s all_tracks w2 w' :
  enumerated E (initial_world lines cfg) = Some (s, all_tracks, w2) ->
  500 <= length all_tracks ->
  main E (initial_world lines cfg) = (Ok tt, w') ->
  exists w1,
    w' = push w1 (Print "Ошибка создания плейлиста.") \/
    exists total playlists,
      w' = push w1 (Print (nl ++ "Готово! Перенесено " ++ str_of_nat total ++ " треков в "
                           ++ str_of_nat playlists ++ " плейлист(ов).")) /\
      50 <= total <= length all_tracks /\
      1 <= playlists <= ceil_div (length all_tracks) 1000.
Proof.
  intros Henum Hlen Hrun. rewrite (enumerated_main _ _ Henum) in Hrun.
  exact (@main_transfer_report E s all_tracks w2 w' Hlen Hrun).
Qed.

(** ** Sample runs *)

Lemma sample_calls_succeed n s w :
  service s = new_Service "KateMobileAndroid" "token" ->
  calls_succeed (sample_env n created added) (service s) w.
Proof.
  intros ->. split; [|split].
  - eexists. reflexivity.
  - intro k. discriminate.
  - intro k. reflexivity.
Qed.

Lemma transfer_call_counts_witness :
  exists w3,
    main (sample_env 500 created added) sample_world = (Ok tt, w3) /\
    length (submitted_batches (trace w3)) = 10 /\
    length (created_titles (trace w3)) = 1.
Proof.
  edestruct (@transfer_call_counts (sample_env 500 created added) sample_input None)
    as [w3 [Hrun [Hadd Hcreate]]].
  - vm_compute. reflexivity.
  - apply Nat.leb_le. vm_compute. reflexivity.
  - apply sample_calls_succeed. reflexivity.
  - exists w3. split; [exact Hrun|]. split; [exact Hadd|exact Hcreate].
Defined.

Lemma too_few_tracks_no_playlist_witness :
  exists w3,
    main (sample_env 499 created added) sample_world = (Ok tt, w3) /\
    created_titles (trace w3) = [] /\ submitted_batches (trace w3) = [].
Proof.
  edestruct (@too_few_tracks_no_playlist (sample_env 499 created added) sample_input None)
    as [w3 [line1 [line2 [Hrun [_ [Hcreate Hadd]]]]]].
  - vm_compute. reflexivity.
  - apply Nat.ltb_lt. vm_compute. reflexivity.
  - exists w3. split; [exact Hrun|]. split; [exact Hcreate|exact Hadd].
Defined.

Lemma submitted_in_reverse_order_witness :
  exists w3,
    main (sample_env 500 created added) sample_world = (Ok tt, w3) /\
    firstn 2 (submitted_ids (trace w3)) = ["7_499"; "7_498"] /\
    skipn 498 (submitted_ids (trace w3)) = ["7_1"; "7_0"].
Proof.
  edestruct (@submitted_in_reverse_order (sample_env 500 created added) sample_input None)
    as [w3 [Hrun Hids]].
  - vm_compute. reflexivity.
  - apply Nat.leb_le. vm_compute. reflexivity.
  - apply sample_calls_succeed. reflexivity.
  - exists w3. split; [exact Hrun|]. rewrite Hids. split; vm_compute; reflexivity.
Defined.

(** C3 as stated fails.  A single enumerated track is never submitted: the
    run makes no addToPlaylist call at all.  And with 500 tracks, when the
    API refuses the fourth addToPlaylist call once, the retry submits that
    batch a second time: 550 ids are submitted for 500 tracks. *)
Lemma submitted_is_not_always_the_reversed_list :
  (exists s all_tracks w2 r w3,
     enumerated (sample_env 1 created added) sample_world = Some (s, all_tracks, w2) /\
     main (sample_env 1 created added) sample_world = (r, w3) /\
     all_tracks = [("7", "0")] /\
     submitted_ids (trace w3) = [] /\
     submitted_ids (trace w3)
     <> map (fun track => fst track ++ "_" ++ snd track) (rev all_tracks)) /\
  (exists s all_tracks w2 r w3,
     enumerated (sample_env 500 created (refused_at 3 added)) sample_world
     = Some (s, all_tracks, w2) /\
     main (sample_env 500 created (refused_at 3 added)) sample_world = (r, w3) /\
     length all_tracks = 500 /\
     length (submitted_ids (trace w3)) = 550 /\
     submitted_ids (trace w3)
     <> map (fun track => fst track ++ "_" ++ snd track) (rev all_tracks)).
Proof.
  split.
  - do 5 eexists. split; [vm_compute; reflexivity|].
    split; [vm_compute; reflexivity|].
    split; [reflexivity|]. split; [reflexivity|]. discriminate.
  - do 5 eexists. split; [vm_compute; reflexivity|].
    split; [vm_compute; reflexivity|].
    split; [vm_compute; reflexivity|]. split; [vm_compute; reflexivity|].
    intro H. apply (f_equal (@length string)) in H. vm_compute in H. discriminate.
Qed.

Lemma enumeration_failure_aborts_witness :
  exists w3,
    main {| parse_config := Some (new_Service "KateMobileAndroid" "token");
            KATE_user_agent := "KateMobileAndroid";
            get_user_info := Ok {| userid := 7; first_name := "Ivan"; last_name := "Petrov" |};
            path_exists := fun _ => false;
            cookies_load := Ok tt;
            auth := AuthDone (Raise (OtherException "AuthError" "wrong password"));
            VkAudio := Ok tt;
            get_iter := (sample_tracks 600, None);
            createPlaylist := created;
            addToPlaylist := added;
            config_write := fun content => Ok (stored content) |} sample_world
    = (Ok tt, w3) /\
    skipn 13 (trace w3) = [Print (nl ++ "Ошибка: wrong password"); Print "Плейлист не создан."] /\
    created_titles (trace w3) = [] /\ submitted_batches (trace w3) = [].
Proof.
  edestruct (@enumeration_failure_aborts
               {| parse_config := Some (new_Service "KateMobileAndroid" "token");
                  KATE_user_agent := "KateMobileAndroid";
                  get_user_info := Ok {| userid := 7; first_name := "Ivan";
                                         last_name := "Petrov" |};
                  path_exists := fun _ => false;
                  cookies_load := Ok tt;
                  auth := AuthDone (Raise (OtherException "AuthError" "wrong password"));
                  VkAudio := Ok tt;
                  get_iter := (sample_tracks 600, None);
                  createPlaylist := created;
                  addToPlaylist := added;
                  config_write := fun content => Ok (stored content) |}
               sample_input None)
    as [w3 [Hrun [Htrace [Hcreate Hadd]]]].
  - vm_compute. reflexivity.
  - vm_compute. reflexivity.
  - exists w3. split; [exact Hrun|]. split; [rewrite Htrace; reflexivity|].
    split; [exact Hcreate|exact Hadd].
Defined.

Lemma submitted_batches_of_adds ua tok uid pid batches :
  submitted_batches (map (AddToPlaylist ua tok uid pid) batches) = map (pair pid) batches.
Proof.
  induction batches as [|b bs IH]; [reflexivity|].
  cbn [map submitted_batches flat_map app]. f_equal. exact IH.
Qed.

Lemma submitted_batches_after_create ua tok uid title tr :
  submitted_batches (CreatePlaylist ua tok uid title :: tr) = submitted_batches tr.
Proof. reflexivity. Qed.

Lemma two_playlists_for_1200_witness :
  exists w3 batches1 batches2,
    main (sample_env 1200 created added) sample_world = (Ok tt, w3) /\
    created_titles (trace w3) = ["Mix"; "Mix (2)"] /\
    map (fun b => (fst b, length (snd b))) (submitted_batches (trace w3))
    = (repeat (JInt 1, 50) 20 ++ repeat (JInt 2, 50) 4)%list /\
    submitted_batches (trace w3)
    = (map (pair (JInt 1)) batches1 ++ map (pair (JInt 2)) batches2)%list /\
    firstn 2 (concat batches1) = ["7_1199"; "7_1198"] /\
    skipn 998 (concat batches1) = ["7_201"; "7_200"] /\
    firstn 2 (concat batches2) = ["7_199"; "7_198"] /\
    skipn 198 (concat batches2) = ["7_1"; "7_0"].
Proof.
  edestruct (@two_playlists_for_1200 (sample_env 1200 created added) sample_input None)
    as [w3 [ua [tok [p1 [p2 [b1 [b2 [Hrun [H1 [H2 [Hcalls [Hb1 Hb2]]]]]]]]]]]].
  - vm_compute. reflexivity.
  - vm_compute. reflexivity.
  - apply sample_calls_succeed. reflexivity.
  - exists w3, b1, b2. split; [exact Hrun|].
    assert (Hw3 : w3 = snd (main (sample_env 1200 created added) sample_world))
      by (unfold sample_world; now rewrite Hrun).
    split; [rewrite Hw3; vm_compute; reflexivity|].
    split; [rewrite Hw3; vm_compute; reflexivity|].
    split.
    + vm_compute in H1, H2. injection H1 as <-. injection H2 as <-.
      rewrite <- submitted_batches_calls, Hcalls.
      rewrite submitted_batches_after_create, submitted_batches_app,
        submitted_batches_after_create, !submitted_batches_of_adds.
      reflexivity.
    + rewrite Hb1, Hb2. repeat split; vm_compute; reflexivity.
Defined.

Lemma api_error_is_runtime_error_witness :
  fst (add_to_playlist (sample_env 500 created (refused_at 0 added))
                       (new_Service "KateMobileAndroid" "token") 7 (JInt 1) ["7_0"]
                       sample_world)
  = Raise (RuntimeError "Ошибка: [9] Flood control").
Proof.
  edestruct (@api_error_is_runtime_error
               (sample_env 500 created (refused_at 0 added))
               (new_Service "KateMobileAndroid" "token") 7 "Mix" (JInt 1) ["7_0"]
               sample_world ("KateMobileAndroid", "token")
               [("error", JDict [("error_code", JInt 9); ("error_msg", JStr "Flood control")])])
    as [_ Hadd].
  - reflexivity.
  - exists (JInt 9). reflexivity.
  - destruct (Hadd eq_refl) as [_ [m [Hm Hrun]]].
    rewrite Hrun. vm_compute in Hm. now injection Hm as <-.
Defined.

Lemma empty_title_returns_at_once_witness :
  exists w',
    main (sample_env 600 created added) (initial_world ["   "; "cookies.txt"] None)
    = (Ok tt, w') /\
    forallb (fun ev => negb (is_enumeration ev || is_call ev)) (trace w') = true.
Proof.
  destruct (main (sample_env 600 created added) (initial_world ["   "; "cookies.txt"] None))
    as [r w'] eqn:Hrun.
  destruct (@empty_title_returns_at_once
              (sample_env 600 created added) ["   "; "cookies.txt"] None r w' "   " Hrun)
    as [Hr [_ Hquiet]].
  - vm_compute in Hrun. injection Hrun as <- <-. vm_compute. auto.
  - vm_compute. reflexivity.
  - exists w'. rewrite Hr. split; [reflexivity|exact Hquiet].
Defined.

(** C4 fails on the first batch of the first playlist (lines 262-264).
    With 500 tracks, when the API refuses the first addToPlaylist call,
    [main] ends with that [RuntimeError]: the batch is sent once, not
    retried, and no later batch is sent.  Refused on the second call
    instead, the batch of the loop is sent again and the transfer goes on
    to the ten batches. *)
Lemma first_batch_is_not_retried :
  (let '(r, w) := main (sample_env 500 created (refused_at 0 added)) sample_world in
   r = Raise (RuntimeError "Ошибка: [9] Flood control") /\
   map (fun b => hd "" (snd b)) (submitted_batches (trace w)) = ["7_499"]) /\
  (let '(r, w) := main (sample_env 500 created (refused_at 1 added)) sample_world in
   r = Ok tt /\
   map (fun b => hd "" (snd b)) (submitted_batches (trace w))
   = ["7_499"; "7_449"; "7_449"; "7_399"; "7_349"; "7_299"; "7_249"; "7_199";
      "7_149"; "7_99"; "7_49"]).
Proof. split; vm_compute; split; reflexivity. Qed.

(** C5 fails when createPlaylist fails the way [create_playlist] reports
    failures (lines 149-151).  With 2500 tracks, when the API refuses the
    second createPlaylist call, [main] ends with that [RuntimeError]: the
    second chunk gets no addToPlaylist call, but the third chunk is not
    transferred either: its playlist is never asked for.  When the answer
    merely holds no id, the second chunk is skipped and the third one is
    transferred. *)
Lemma refused_playlist_stops_the_transfer :
  (let '(r, w) := main (sample_env 2500 (refused_at 1 created) added) sample_world in
   r = Raise (RuntimeError "Ошибка: [9] Flood control") /\
   created_titles (trace w) = ["Mix"; "Mix (2)"] /\
   map fst (submitted_batches (trace w)) = repeat (JInt 1) 20) /\
  (let '(r, w) := main (sample_env 2500 (fun k => if (k =? 1)%nat then no_id else created k)
                                   added) sample_world in
   r = Ok tt /\
   created_titles (trace w) = ["Mix"; "Mix (2)"; "Mix (3)"] /\
   map fst (submitted_batches (trace w)) = (repeat (JInt 1) 20 ++ repeat (JInt 3) 10)%list).
Proof. split; vm_compute; repeat split; reflexivity. Qed.



(** *** Sample runs of the further properties *)

Lemma requests_are_paced_witness :
  exists ms, In (Sleep ms) [Print "  Добавлено: 50/500"; Sleep 500] /\ 500 <= ms.
Proof.
  pose (T := trace (snd (main (sample_env 500 created added) sample_world))).
  apply (@requests_are_paced (sample_env 500 created added) sample_input None
           (firstn 24 T) (nth 24 T (Sleep 0)) [Print "  Добавлено: 50/500"; Sleep 500]
           (nth 27 T (Sleep 0)) (skipn 28 T)).
  - vm_compute. reflexivity.
  - vm_compute. reflexivity.
  - vm_compute. reflexivity.
Defined.

Lemma batches_are_well_formed_witness :
  truthy (JInt 1) = true /\
  1 <= length (map (fun k => "7_" ++ str_of_nat k) (rev (seq 450 50))) <= 50.
Proof.
  apply (@batches_are_well_formed (sample_env 500 created added) sample_input None).
  vm_compute. left. reflexivity.
Defined.

Lemma success_is_reported_witness :
  exists w3,
    main (sample_env 500 created added) sample_world =
    (Ok tt, push w3 (Print (nl ++ "Готово! Перенесено 500 треков в 1 плейлист(ов)."))).
Proof.
  edestruct (@success_is_reported (sample_env 500 created added) sample_input None)
    as [w3 Hrun].
  - vm_compute. reflexivity.
  - apply Nat.leb_le. vm_compute. reflexivity.
  - apply sample_calls_succeed. reflexivity.
  - exists w3. etransitivity; [exact Hrun|]. vm_compute. reflexivity.
Defined.

Lemma fetch_collects_the_items_with_both_fields_witness :
  [("7", "0"); ("7", "1"); ("7", "2")]
  = track_pairs (fst (get_iter (sample_env 3 created added))) /\
  snd (get_iter (sample_env 3 created added)) = None.
Proof.
  apply (@fetch_collects_the_items_with_both_fields
           (sample_env 3 created added) 7 (Some "user") (Some "secret") None None
           (initial_world [] None) [("7", "0"); ("7", "1"); ("7", "2")]
           (snd (_fetch_all_via_vk_api (sample_env 3 created added) 7 (Some "user")
                                       (Some "secret") None None (initial_world [] None)))).
  vm_compute. reflexivity.
Defined.

Lemma progress_every_hundred_witness :
  exists before,
    trace (snd (_fetch_all_via_vk_api (sample_env 250 created added) 7 (Some "user")
                                      (Some "secret") None None (initial_world [] None)))
    = (before ++ [AudioIter 7; progress_line 100; progress_line 200])%list.
Proof.
  apply (@progress_every_hundred
           (sample_env 250 created added) 7 (Some "user") (Some "secret") None None
           (initial_world [] None)
           (track_pairs (sample_tracks 250))
           (snd (_fetch_all_via_vk_api (sample_env 250 created added) 7 (Some "user")
                                       (Some "secret") None None (initial_world [] None)))).
  - vm_compute. reflexivity.
  - vm_compute. reflexivity.
Defined.

Lemma config_readers_agree_witness :
  credentials {| user_agent := None; _Service__token := None |}
              (Some (Parsed [("VK", [("token", Ok "abc"); ("user_agent", Ok "Kate")])]))
  = credentials (new_Service "Kate" "abc")
                (Some (Parsed [("VK", [("token", Ok "abc"); ("user_agent", Ok "Kate")])])).
Proof.
  apply (@config_readers_agree
           (initial_world [] (Some (Parsed [("VK", [("token", Ok "abc"); ("user_agent", Ok "Kate")])])))
           (new_Service "Kate" "abc")).
  vm_compute. reflexivity.
Defined.

Lemma saved_token_is_loaded_again_witness :
  _load_service_from_config
    (snd (main_service (no_service (sample_env 0 created added))
                       (initial_world ["  abc  "] None)))
  = (Ok (Some (new_Service "KateMobileAndroid" "abc")),
     snd (main_service (no_service (sample_env 0 created added))
                       (initial_world ["  abc  "] None))).
Proof.
  apply (@saved_token_is_loaded_again
           (no_service (sample_env 0 created added)) (initial_world ["  abc  "] None)).
  - reflexivity.
  - reflexivity.
  - vm_compute. reflexivity.
  - intros tok file _ H. cbn in H. now injection H as <-.
Defined.

Lemma playlists_are_numbered_in_order_witness :
  exists k,
    k <= 2 /\
    created_titles (trace (snd (main (sample_env 1200 created (refused_at 3 added))
                                     sample_world)))
    = map (title_of "Mix") (seq 0 k).
Proof.
  edestruct (@playlists_are_numbered_in_order
               (sample_env 1200 created (refused_at 3 added)) sample_input None)
    as [k [Hk Ht]].
  - vm_compute. reflexivity.
  - exists k. split; [exact Hk|exact Ht].
Defined.

Lemma report_counts_are_bounded_witness :
  exists w1,
    snd (main (sample_env 500 created (refused_at 3 (refused_at 4 added))) sample_world)
    = push w1 (Print "Ошибка создания плейлиста.") \/
    exists total playlists,
      snd (main (sample_env 500 created (refused_at 3 (refused_at 4 added))) sample_world)
      = push w1 (Print (nl ++ "Готово! Перенесено " ++ str_of_nat total ++ " треков в "
                        ++ str_of_nat playlists ++ " плейлист(ов).")) /\
      50 <= total <= 500 /\ 1 <= playlists <= 1.
Proof.
  edestruct (@report_counts_are_bounded
               (sample_env 500 created (refused_at 3 (refused_at 4 added))) sample_input None)
    as [w1 H].
  - vm_compute. reflexivity.
  - apply Nat.leb_le. vm_compute. reflexivity.
  - vm_compute. reflexivity.
  - exists w1. exact H.
Defined.

(** *** Configuration files that configparser refuses *)

(** A token with a lone [%] in the file: both readers raise what the
    interpolation raises, and [main] ends with that exception before it
    asks for anything. *)
Lemma percent_in_the_file_raises :
  let e := OtherException "InterpolationSyntaxError"
             "'%' must be followed by '%' or '(', found: '%cd'" in
  let w := initial_world sample_input (Some percent_file) in
  _load_service_from_config w = (Raise e, w) /\
  _get_credentials {| user_agent := None; _Service__token := None |} w = (Raise e, w) /\
  exists banner,
    main (no_service (sample_env 600 created added)) w = (Raise e, push w (Print banner)).
Proof. cbv zeta. split; [|split]; [reflexivity|reflexivity|]. eexists. vm_compute. reflexivity. Qed.

(** A file that [config.read] refuses makes both readers raise. *)
Lemma unreadable_file_raises e :
  let w := initial_world [] (Some (Unreadable e)) in
  _load_service_from_config w = (Raise e, w) /\
  _get_credentials {| user_agent := None; _Service__token := None |} w = (Raise e, w).
Proof. cbv zeta. split; reflexivity. Qed.

(** A token that configparser refuses: [main] ends with the [ValueError],
    nothing is written and the file stays as it was. *)
Lemma refused_token_is_not_written :
  exists w',
    main (refusing (no_service (sample_env 600 created added)))
         (initial_world ["a%b"; "Mix"] None)
    = (Raise (OtherException "ValueError"
                "invalid interpolation syntax in 'a%b' at position 1"), w') /\
    filter is_write (trace w') = [] /\ config_file w' = None /\
    exists before, trace w' = (before ++ [Input "Токен: " "a%b"])%list.
Proof.
  eexists. split; [vm_compute; reflexivity|].
  split; [reflexivity|]. split; [reflexivity|]. eexists. cbn [trace]. 
  change [?a; ?b; ?c; ?d; ?e] with ([a; b; c; d] ++ [e])%list. reflexivity.
Qed.
